(** * odata_v4_query: the query-options parser and the filter core

    A shallow embedding of [odata_v4_query/query_parser.py] together with a
    model of the tokenizer and recursive-descent filter parser it calls.

    Python values are embedded as follows.
    - [str] is [string]; a character is a code point below 256, so the
      embedding covers ASCII and Latin-1 text.
    - [int] is [Z].
    - a [dict] is an association list in insertion order (Python dicts
      iterate in insertion order and the order decides which handler runs,
      and fails, first).
    - an object that is mutated and may raise is a state-and-exception
      computation in which the state survives the exception. *)

From Stdlib Require Import String Ascii List ZArith NArith Bool Lia Arith.
From Stdlib Require Import DecimalString Permutation.
Import ListNotations.

Local Open Scope string_scope.
Local Open Scope list_scope.

(* ===================================================================== *)
(** * Python string built-ins used by the sources *)
(* ===================================================================== *)

Module Py.

(** [str.isspace] on one character (code points below 256). *)
Definition isspace (c : ascii) : bool :=
  let n := N_of_ascii c in
  (((9 <=? n) && (n <=? 13)) || ((28 <=? n) && (n <=? 32))
   || (n =? 133) || (n =? 160))%N.

(** [str.lower] on one character (code points below 256). *)
Definition lower_char (c : ascii) : ascii :=
  let n := N_of_ascii c in
  if (((65 <=? n) && (n <=? 90)) || ((192 <=? n) && (n <=? 214))
      || ((216 <=? n) && (n <=? 222)))%N
  then ascii_of_N (n + 32) else c.

(** [s.lower()] *)
Fixpoint lower (s : string) : string :=
  match s with
  | EmptyString => EmptyString
  | String c s' => String (lower_char c) (lower s')
  end.

(** [s.lstrip()] *)
Fixpoint lstrip (s : string) : string :=
  match s with
  | EmptyString => EmptyString
  | String c s' => if isspace c then lstrip s' else s
  end.

(** [s.rstrip()] *)
Fixpoint rstrip (s : string) : string :=
  match s with
  | EmptyString => EmptyString
  | String c s' =>
      match rstrip s' with
      | EmptyString => if isspace c then EmptyString else String c EmptyString
      | r => String c r
      end
  end.

(** [s.strip()] *)
Definition strip (s : string) : string := rstrip (lstrip s).

(** [s.split(sep)] for a one-character separator: one more item than there
    are separators, empty items kept. *)
Fixpoint split (sep : ascii) (s : string) : list string :=
  match s with
  | EmptyString => [EmptyString]
  | String c s' =>
      if Ascii.eqb c sep then EmptyString :: split sep s'
      else match split sep s' with
           | h :: t => String c h :: t
           | [] => [String c EmptyString]
           end
  end.

(** [sep.join(items)] for a one-character separator. *)
Fixpoint join (sep : ascii) (items : list string) : string :=
  match items with
  | [] => EmptyString
  | [x] => x
  | x :: rest => x ++ String sep (join sep rest)
  end.

(** [s.startswith(p)] *)
Fixpoint startswith (s p : string) : bool :=
  match p, s with
  | EmptyString, _ => true
  | String a p', String b s' => Ascii.eqb a b && startswith s' p'
  | String _ _, EmptyString => false
  end.

(** [s.endswith(suffix)]: some tail of [s] is [suffix]. *)
Fixpoint endswith (s suffix : string) : bool :=
  String.eqb s suffix ||
  match s with
  | EmptyString => false
  | String _ s' => endswith s' suffix
  end.

(** [s.replace(old, new)]: every non-overlapping occurrence, leftmost first.
    [skip] counts the characters of a matched occurrence still to drop. *)
Fixpoint replace_from (old new : string) (skip : nat) (s : string) : string :=
  match s with
  | EmptyString => EmptyString
  | String c s' =>
      match skip with
      | S k => replace_from old new k s'
      | O =>
          if startswith s old
          then new ++ replace_from old new (String.length old - 1) s'
          else String c (replace_from old new 0 s')
      end
  end.

Fixpoint intersperse (new s : string) : string :=
  match s with
  | EmptyString => new
  | String c s' => new ++ String c (intersperse new s')
  end.

Definition replace (s old new : string) : string :=
  match old with
  | EmptyString => intersperse new s
  | _ => replace_from old new 0 s
  end.

(** [s] ends in [suffix] up to the case of letters. *)
Definition ends_with_ignoring_case (s suffix : string) : Prop :=
  exists pre suf : string, s = (pre ++ suf)%string /\ lower suf = lower suffix.

Definition is_digit (c : ascii) : bool :=
  let n := N_of_ascii c in ((48 <=? n) && (n <=? 57))%N.

Definition digit_value (c : ascii) : Z := Z.of_N (N_of_ascii c) - 48.

(** The digits of an integer literal: at least one digit, single
    underscores allowed between digits only. *)
Fixpoint int_digits (acc : Z) (after_digit : bool) (s : string) : option Z :=
  match s with
  | EmptyString => if after_digit then Some acc else None
  | String c s' =>
      if is_digit c then int_digits (10 * acc + digit_value c) true s'
      else if Ascii.eqb c "_" && after_digit then int_digits acc false s'
      else None
  end.

(** The information separators U+001C to U+001F: whitespace for
    [str.strip], but not for [int], which rejects a string that has one. *)
Definition is_separator (c : ascii) : bool :=
  let n := N_of_ascii c in ((28 <=? n) && (n <=? 31))%N.

Fixpoint has_separator (s : string) : bool :=
  match s with
  | EmptyString => false
  | String c s' => is_separator c || has_separator s'
  end.

(** [int(s)] for a string in base 10: surrounding whitespace other than
    the information separators, an optional sign, then the digits. [None]
    stands for [ValueError]. The interpreter's configurable cap on the
    number of digits is not part of this model; the parser below takes the
    conversion as a parameter, and this function is the instance used to
    run it. *)
Definition int (s : string) : option Z :=
  if has_separator s then None
  else
    match strip s with
    | String "-" body => option_map Z.opp (int_digits 0 false body)
    | String "+" body => int_digits 0 false body
    | body => int_digits 0 false body
    end.

(** ** Vocabulary for the statements about strings *)

(** [s == s.strip()] *)
Definition trimmed (s : string) : Prop := strip s = s.

(** [c in s] for one character. *)
Fixpoint has_char (c : ascii) (s : string) : bool :=
  match s with
  | EmptyString => false
  | String d s' => Ascii.eqb d c || has_char c s'
  end.

(** No character of [s] is whitespace. *)
Fixpoint no_whitespace (s : string) : bool :=
  match s with
  | EmptyString => true
  | String c s' => negb (isspace c) && no_whitespace s'
  end.

(** Every character of [s] is whitespace. *)
Fixpoint all_whitespace (s : string) : bool :=
  match s with
  | EmptyString => true
  | String c s' => isspace c && all_whitespace s'
  end.

End Py.

(* ===================================================================== *)
(** * query_parser.py *)
(* ===================================================================== *)

(** The result of [urllib.parse.urlparse]; the parser reads [query] only. *)
Record ParseResult := {
  scheme : string;
  netloc : string;
  path : string;
  params : string;
  query : string;
  fragment : string
}.

(** [dict[str, list[str]]] as handed to [parse_query_params]. A list entry
    is [None] where the caller stored Python's [None]; the code tests for
    it. *)
Definition QueryParams := list (string * list (option string)).

(** [d.get(key)] on a dict in insertion order. *)
Fixpoint lookup {A : Type} (key : string) (d : list (string * A)) : option A :=
  match d with
  | [] => None
  | (k, v) :: rest => if String.eqb k key then Some v else lookup key rest
  end.

Section QueryParser.

(** What the module imports from files that are not part of the sources
    ([filter_parser.py]) and from the Python runtime. *)
Variable FilterNode : Type.
Variable FilterError : Type.
(** [ODataFilterParser.parse]: the tree, or the error it raises. *)
Variable filter_parse : string -> FilterError + FilterNode.
(** [int(value)] on a string; [None] is [ValueError]. *)
Variable int : string -> option Z.
(** [urlparse(url)]; [None] is the [ValueError] it raises on a malformed
    network location. *)
Variable urlparse : string -> option ParseResult.
(** [parse_qs(query_string)] *)
Variable parse_qs : string -> QueryParams.

(** The exceptions that can travel through the parser. The two classes of
    [errors.py] carry the arguments they are constructed with. *)
Inductive exn :=
| ValueError
| TypeError
| AssertionError
| NoPositiveIntegerValue (param value : string)
| UnsupportedFormat (value : string)
| FilterParserError (e : FilterError).

Record ODataQueryOptions := {
  count : bool;
  expand : option (list string);
  filter_ : option FilterNode;
  format_ : option string;
  orderby : option (list (list (string * string)));
  search : option string;
  select : option (list string);
  skip : option Z;
  top : option Z
}.

(** [ODataQueryOptions()] *)
Definition default_options : ODataQueryOptions :=
  {| count := false; expand := None; filter_ := None; format_ := None;
     orderby := None; search := None; select := None; skip := None;
     top := None |}.

Definition set_count v o :=
  {| count := v; expand := expand o; filter_ := filter_ o;
     format_ := format_ o; orderby := orderby o; search := search o;
     select := select o; skip := skip o; top := top o |}.
Definition set_expand v o :=
  {| count := count o; expand := v; filter_ := filter_ o;
     format_ := format_ o; orderby := orderby o; search := search o;
     select := select o; skip := skip o; top := top o |}.
Definition set_filter_ v o :=
  {| count := count o; expand := expand o; filter_ := v;
     format_ := format_ o; orderby := orderby o; search := search o;
     select := select o; skip := skip o; top := top o |}.
Definition set_format_ v o :=
  {| count := count o; expand := expand o; filter_ := filter_ o;
     format_ := v; orderby := orderby o; search := search o;
     select := select o; skip := skip o; top := top o |}.
Definition set_orderby v o :=
  {| count := count o; expand := expand o; filter_ := filter_ o;
     format_ := format_ o; orderby := v; search := search o;
     select := select o; skip := skip o; top := top o |}.
Definition set_search v o :=
  {| count := count o; expand := expand o; filter_ := filter_ o;
     format_ := format_ o; orderby := orderby o; search := v;
     select := select o; skip := skip o; top := top o |}.
Definition set_select v o :=
  {| count := count o; expand := expand o; filter_ := filter_ o;
     format_ := format_ o; orderby := orderby o; search := search o;
     select := v; skip := skip o; top := top o |}.
Definition set_skip v o :=
  {| count := count o; expand := expand o; filter_ := filter_ o;
     format_ := format_ o; orderby := orderby o; search := search o;
     select := select o; skip := v; top := top o |}.
Definition set_top v o :=
  {| count := count o; expand := expand o; filter_ := filter_ o;
     format_ := format_ o; orderby := orderby o; search := search o;
     select := select o; skip := skip o; top := v |}.

(** What a handler can touch: the options object it was handed, and the
    filter parser, whose calls are logged in order. *)
Record World := {
  options : ODataQueryOptions;
  parse_calls : list string
}.

Definition with_options (f : ODataQueryOptions -> ODataQueryOptions)
    (w : World) : World :=
  {| options := f (options w); parse_calls := parse_calls w |}.

(** A statement sequence: it ends normally with a value or raises, and
    in both cases leaves the world as mutated so far. *)
Definition M (A : Type) : Type := World -> (exn + A) * World.

Definition ret {A} (x : A) : M A := fun w => (inr x, w).
Definition raise {A} (e : exn) : M A := fun w => (inl e, w).
Definition bind {A B} (c : M A) (k : A -> M B) : M B :=
  fun w => match c w with
           | (inr x, w') => k x w'
           | (inl e, w') => (inl e, w')
           end.
(** [try: c  except ...: handler(e)] *)
Definition try_except {A} (c : M A) (handler : exn -> M A) : M A :=
  fun w => match c w with
           | (inl e, w') => handler e w'
           | r => r
           end.
(** [options.field = v] *)
Definition assign (f : ODataQueryOptions -> ODataQueryOptions) : M unit :=
  fun w => (inr tt, with_options f w).
(** [options.field] *)
Definition read {A} (f : ODataQueryOptions -> A) : M A :=
  fun w => (inr (f (options w)), w).
(** [assert b] *)
Definition py_assert (b : bool) : M unit :=
  if b then ret tt else raise AssertionError.
(** [int(value)] as a statement. *)
Definition call_int (value : string) : M Z :=
  match int value with
  | Some n => ret n
  | None => raise ValueError
  end.
(** [self.filter_parser.parse(value)] as a statement: the call is logged,
    then it returns the tree or raises. *)
Definition call_filter_parse (value : string) : M FilterNode :=
  fun w =>
    let w' := {| options := options w;
                 parse_calls := parse_calls w ++ [value] |} in
    match filter_parse value with
    | inr node => (inr node, w')
    | inl e => (inl (FilterParserError e), w')
    end.

Notation "x <- c ;; k" := (bind c (fun x => k))
  (at level 61, c at next level, right associativity).
Notation "c ;; k" := (bind c (fun _ => k))
  (at level 61, right associativity).

(** Python's truth value of a string. *)
Definition truthy (s : string) : bool :=
  match s with EmptyString => false | _ => true end.

Definition _parse_count (value : string) : M unit :=
  assign (set_count (String.eqb (Py.lower value) "true")).

Definition _parse_expand (value : string) : M unit :=
  if truthy value
  then assign (set_expand (Some (map Py.strip (Py.split "," value))))
  else ret tt.

Definition _parse_filter (value : string) : M unit :=
  node <- call_filter_parse value ;;
  assign (set_filter_ (Some node)).

Definition _parse_format (value : string) : M unit :=
  if existsb (String.eqb value) ["json"; "xml"; "csv"; "tsv"]
  then assign (set_format_ (Some value))
  else raise (UnsupportedFormat value).

(** One turn of the loop of [_parse_orderby]: the dict appended for the
    item. *)
Definition orderby_entry (item : string) : list (string * string) :=
  let item := Py.strip item in
  let lowercased_item := Py.lower item in
  let '(field, direction) :=
    if Py.endswith lowercased_item " asc"
    then (Py.strip (Py.replace item " asc" EmptyString), "asc")
    else if Py.endswith lowercased_item " desc"
    then (Py.strip (Py.replace item " desc" EmptyString), "desc")
    else (item, "asc") in
  [("field", field); ("direction", direction)].

Definition _parse_orderby (value : string) : M unit :=
  if negb (truthy value) then ret tt
  else assign (set_orderby (Some (map orderby_entry (Py.split "," value)))).

Definition _parse_search (value : string) : M unit :=
  assign (set_search (Some (Py.strip value))).

Definition _parse_select (value : string) : M unit :=
  if truthy value
  then assign (set_select (Some (map Py.strip (Py.split "," value))))
  else ret tt.

(** [x >= 0] where [x] was read back from an optional field. *)
Definition assert_non_negative (x : option Z) : M unit :=
  match x with
  | Some n => py_assert (0 <=? n)%Z
  | None => raise TypeError
  end.

(** The [except (AssertionError, ValueError, TypeError)] clause shared by
    [_parse_skip] and [_parse_top]. *)
Definition no_positive_integer (param value : string) (e : exn) : M unit :=
  match e with
  | AssertionError | ValueError | TypeError =>
      raise (NoPositiveIntegerValue param value)
  | _ => raise e
  end.

Definition _parse_skip (value : string) : M unit :=
  try_except
    (n <- call_int value ;;
     assign (set_skip (Some n)) ;;
     x <- read skip ;;
     assert_non_negative x)
    (no_positive_integer "$skip" value).

Definition _parse_top (value : string) : M unit :=
  try_except
    (n <- call_int value ;;
     assign (set_top (Some n)) ;;
     x <- read top ;;
     assert_non_negative x)
    (no_positive_integer "$top" value).

(** [self.supported_options] *)
Definition supported_options : list (string * (string -> M unit)) :=
  [ ("$count", _parse_count);
    ("$expand", _parse_expand);
    ("$filter", _parse_filter);
    ("$format", _parse_format);
    ("$orderby", _parse_orderby);
    ("$search", _parse_search);
    ("$select", _parse_select);
    ("$skip", _parse_skip);
    ("$top", _parse_top) ].

(** [values[0] if values else None] *)
Definition first_value (values : list (option string)) : option string :=
  match values with
  | [] => None
  | v :: _ => v
  end.

(** The body of the [for] loop of [parse_query_params]. *)
Definition parse_param (param : string) (values : list (option string))
    : M unit :=
  match lookup param supported_options with
  | Some parser_func =>
      match first_value values with
      | None => ret tt
      | Some value => parser_func value
      end
  | None => ret tt
  end.

(** [for param, values in query_params.items(): ...] *)
Fixpoint parse_params (items : QueryParams) : M unit :=
  match items with
  | [] => ret tt
  | (param, values) :: rest =>
      parse_param param values ;; parse_params rest
  end.

(** The world in which [parse_query_params] starts: a fresh options
    object, and no call made to the filter parser yet. *)
Definition fresh_world : World :=
  {| options := default_options; parse_calls := [] |}.

(** [parse_query_params]: what it returns or raises, and the calls it made
    to the filter parser. The options object is local, so a caller sees it
    only when it is returned. *)
Definition parse_query_params (query_params : QueryParams)
    : (exn + ODataQueryOptions) * list string :=
  match parse_params query_params fresh_world with
  | (inr _, w) => (inr (options w), parse_calls w)
  | (inl e, w) => (inl e, parse_calls w)
  end.

Definition parse_query_string (query_string : string)
    : (exn + ODataQueryOptions) * list string :=
  parse_query_params (parse_qs query_string).

Definition parse_url (url : string)
    : (exn + ODataQueryOptions) * list string :=
  match urlparse url with
  | Some parsed_url => parse_query_string (query parsed_url)
  | None => (inl ValueError, [])
  end.

(** ** Vocabulary for the statements about the parser *)

(** How a statement sequence ends when started in [w]. *)
Definition raises {A} (c : M A) (w : World) (e : exn) : Prop :=
  fst (c w) = inl e.
Definition returns {A} (c : M A) (w w' : World) : Prop :=
  exists x, c w = (inr x, w').

(** [param in self.supported_options] *)
Definition supported (param : string) : bool :=
  match lookup param supported_options with
  | Some _ => true
  | None => false
  end.

(** The nine fields of [ODataQueryOptions], the key each one is set from,
    and what it means for a field to hold its default. *)
Inductive OptionField :=
| Count | Expand | Filter_ | Format_ | Orderby | Search | Select | Skip | Top.

Definition key_of (f : OptionField) : string :=
  match f with
  | Count => "$count" | Expand => "$expand" | Filter_ => "$filter"
  | Format_ => "$format" | Orderby => "$orderby" | Search => "$search"
  | Select => "$select" | Skip => "$skip" | Top => "$top"
  end.

(** The two records agree on the field. *)
Definition same_field (f : OptionField) (o o' : ODataQueryOptions) : Prop :=
  match f with
  | Count => count o = count o'
  | Expand => expand o = expand o'
  | Filter_ => filter_ o = filter_ o'
  | Format_ => format_ o = format_ o'
  | Orderby => orderby o = orderby o'
  | Search => search o = search o'
  | Select => select o = select o'
  | Skip => skip o = skip o'
  | Top => top o = top o'
  end.

Definition at_default (f : OptionField) (o : ODataQueryOptions) : Prop :=
  same_field f o default_options.

(** An entry of the mapping that reaches a handler: a supported key whose
    first value is a string. *)
Definition effective (item : string * list (option string)) : bool :=
  supported (fst item) &&
  match first_value (snd item) with
  | Some _ => true
  | None => false
  end.

(** The keys of a dict. *)
Definition keys {A : Type} (d : list (string * A)) : list string :=
  map fst d.

(** ** Vocabulary for the statements about the whole loop *)

(** Whether the handler of [param] returns normally on [value]: the
    conditions under which [_parse_skip], [_parse_top], [_parse_format]
    and [_parse_filter] do not raise; the other handlers never raise. *)
Definition accepts (param value : string) : bool :=
  if String.eqb param "$skip" || String.eqb param "$top" then
    match int value with
    | Some n => (0 <=? n)%Z
    | None => false
    end
  else if String.eqb param "$format" then
    existsb (String.eqb value) ["json"; "xml"; "csv"; "tsv"]
  else if String.eqb param "$filter" then
    match filter_parse value with
    | inr _ => true
    | inl _ => false
    end
  else true.

(** Every entry of the mapping that reaches a handler is accepted by it. *)
Definition all_accepted (m : QueryParams) : bool :=
  forallb
    (fun item =>
       match first_value (snd item) with
       | Some value => accepts (fst item) value
       | None => true
       end)
    m.

(** The first value stored under [param], if it is a string. *)
Definition first_of (m : QueryParams) (param : string) : option string :=
  match lookup param m with
  | Some values => first_value values
  | None => None
  end.

Definition comma_list (value : string) : option (list string) :=
  if truthy value then Some (map Py.strip (Py.split "," value)) else None.

(** The record read off the mapping key by key. *)
Definition options_of (m : QueryParams) : ODataQueryOptions :=
  {| count :=
       match first_of m "$count" with
       | Some v => String.eqb (Py.lower v) "true"
       | None => false
       end;
     expand :=
       match first_of m "$expand" with
       | Some v => comma_list v
       | None => None
       end;
     filter_ :=
       match first_of m "$filter" with
       | Some v => match filter_parse v with
                   | inr node => Some node
                   | inl _ => None
                   end
       | None => None
       end;
     format_ := first_of m "$format";
     orderby :=
       match first_of m "$orderby" with
       | Some v => if truthy v
                   then Some (map orderby_entry (Py.split "," v))
                   else None
       | None => None
       end;
     search := option_map Py.strip (first_of m "$search");
     select :=
       match first_of m "$select" with
       | Some v => comma_list v
       | None => None
       end;
     skip :=
       match first_of m "$skip" with
       | Some v => int v
       | None => None
       end;
     top :=
       match first_of m "$top" with
       | Some v => int v
       | None => None
       end |}.

(** The calls to the filter parser read off the mapping. *)
Definition calls_of (m : QueryParams) : list string :=
  match first_of m "$filter" with
  | Some v => [v]
  | None => []
  end.

(** An entry of [options.orderby] as the loop builds it. *)
Definition orderby_dict_ok (entry : list (string * string)) : Prop :=
  exists field direction,
    entry = [("field", field); ("direction", direction)]
    /\ Py.trimmed field
    /\ (direction = "asc" \/ direction = "desc").

(** What the field types of [ODataQueryOptions] promise, and a little
    more: no negative number, no unsupported format, no empty list, no
    text with surrounding whitespace. *)
Definition valid_options (o : ODataQueryOptions) : Prop :=
  (forall n, skip o = Some n -> (0 <= n)%Z)
  /\ (forall n, top o = Some n -> (0 <= n)%Z)
  /\ (forall f, format_ o = Some f -> In f ["json"; "xml"; "csv"; "tsv"])
  /\ (forall items, expand o = Some items ->
                    items <> [] /\ Forall Py.trimmed items)
  /\ (forall items, select o = Some items ->
                    items <> [] /\ Forall Py.trimmed items)
  /\ (forall s, search o = Some s -> Py.trimmed s)
  /\ (forall entries, orderby o = Some entries ->
                      entries <> [] /\ Forall orderby_dict_ok entries).

(** The three classes of error the loop lets through. *)
Definition is_parser_error (e : exn) : Prop :=
  match e with
  | NoPositiveIntegerValue _ _ | UnsupportedFormat _ | FilterParserError _ =>
      True
  | ValueError | TypeError | AssertionError => False
  end.

(** The handler of [param] raises [e] on [value]: which handler, which
    error, and why. *)
Definition rejects (param value : string) (e : exn) : Prop :=
  ((param = "$skip" \/ param = "$top")
   /\ e = NoPositiveIntegerValue param value
   /\ (int value = None \/ exists n, int value = Some n /\ (n < 0)%Z))
  \/ (param = "$format"
      /\ e = UnsupportedFormat value
      /\ ~ In value ["json"; "xml"; "csv"; "tsv"])
  \/ (param = "$filter"
      /\ exists error, filter_parse value = inl error
                       /\ e = FilterParserError error).

(** A field name as clients write it: not empty, no whitespace, no
    comma. *)
Definition plain_name (f : string) : Prop :=
  f <> EmptyString /\ Py.no_whitespace f = true /\ Py.has_char "," f = false.

(** One sort key, a field name and the direction written after it, if
    any: as text and as the dict it is parsed to. *)
Definition orderby_item (key : string * option string) : string :=
  match snd key with
  | Some direction => (fst key ++ " " ++ direction)%string
  | None => fst key
  end.

Definition orderby_dict (key : string * option string)
    : list (string * string) :=
  [("field", fst key);
   ("direction", match snd key with
                 | Some direction => direction
                 | None => "asc"
                 end)].

End QueryParser.

Arguments ValueError {FilterError}.
Arguments TypeError {FilterError}.
Arguments AssertionError {FilterError}.
Arguments NoPositiveIntegerValue {FilterError} param value.
Arguments UnsupportedFormat {FilterError} value.
Arguments FilterParserError {FilterError} e.

(* ===================================================================== *)
(** * The filter core: tokenizer and recursive-descent parser *)
(* ===================================================================== *)

(** Modelled from the spec: [filter_tokenizer.py] and [filter_parser.py]
    (the tokenizer, [ODataFilterParser.parse], [FilterNode]) are not among
    the sources; every definition of this module follows sections 3, 4 and
    7 of the specification. Where the specification leaves a choice, the
    model takes the following.
    - A word is a maximal run of letters, digits, underscores and slashes
      that begins with a letter or an underscore; a numeral begins with a
      digit or a minus sign.
    - Keywords and function names are reserved: a word that is one of them
      up to case is never an identifier, and the parser asks for the
      parenthesis after a function name.
    - A number literal keeps its digits: sign, integer digits, fraction
      digits.
    - The three functions take a string literal as their argument. *)
Module FilterCore.

Inductive TokenKind :=
| Identifier | StringLiteral | NumberLiteral | BooleanLiteral | NullLiteral
| Operator | LogicalKeyword | Function | LParen | RParen | Comma.

Record Token := {
  kind : TokenKind;
  text : string;      (* the lexeme; the unescaped body for a string literal *)
  position : nat      (* offset of the lexeme's first character *)
}.

Inductive Error :=
| LexError (message : string) (at_position : option nat)
| SyntaxError (message : string) (at_position : option nat).

Module ComparisonOp.
Inductive t := eq | ne | gt | ge | lt | le.
End ComparisonOp.

Module LogicalOp.
Inductive t := and | or.
End LogicalOp.

Module UnaryOp.
Inductive t := not.
End UnaryOp.

Module FunctionName.
Inductive t := contains | startswith | endswith.
End FunctionName.

(** A decimal numeral: sign, integer digits, fraction digits ([Nil] when
    the numeral has no fraction part). *)
Record decimal := {
  negative : bool;
  int_part : Decimal.uint;
  frac_part : Decimal.uint
}.

Module Literal.
Inductive t :=
| String (text : string)
| Number (value : decimal)
| Boolean (value : bool)
| Null.
End Literal.

Inductive FilterNode :=
| Comparison (field_path : list string) (operator : ComparisonOp.t)
    (value : Literal.t)
| Logical (operator : LogicalOp.t) (left right : FilterNode)
| Unary (operator : UnaryOp.t) (operand : FilterNode)
| FunctionCall (name : FunctionName.t) (field_path : list string)
    (argument : Literal.t).

(** ** Tokenizer (section 4.1) *)

Definition is_letter (c : ascii) : bool :=
  let n := N_of_ascii c in
  (((65 <=? n) && (n <=? 90)) || ((97 <=? n) && (n <=? 122)))%N.

Definition is_word_start (c : ascii) : bool :=
  is_letter c || Ascii.eqb c "_".

(** Letters, digits, underscore and the navigation separator. *)
Definition is_word_char (c : ascii) : bool :=
  is_letter c || Py.is_digit c || Ascii.eqb c "_" || Ascii.eqb c "/".

Definition mem (w : string) (words : list string) : bool :=
  existsb (String.eqb w) words.

(** Modelled from the spec: the kind of a whole word, decided on its
    lower-cased lexeme; literals first, then keywords, then function names. *)
Definition word_kind (lexeme : string) : TokenKind :=
  let w := Py.lower lexeme in
  if mem w ["true"; "false"] then BooleanLiteral
  else if mem w ["null"] then NullLiteral
  else if mem w ["and"; "or"; "not"] then LogicalKeyword
  else if mem w ["eq"; "ne"; "gt"; "ge"; "lt"; "le"] then Operator
  else if mem w ["contains"; "startswith"; "endswith"] then Function
  else Identifier.

(** Where the single left-to-right pass stands. *)
Inductive LexState :=
| Idle
| InWord (start : nat) (lexeme : string)
| InString (start : nat) (body : string)
| QuoteSeen (start : nat) (body : string)
    (* a quote inside a literal: it closes the literal unless a second
       quote follows *)
| NumSign (start : nat)                     (* "-" read *)
| NumInt (start : nat) (lexeme : string)    (* integer digits *)
| NumDot (start : nat) (lexeme : string)    (* "." read *)
| NumFrac (start : nat) (lexeme : string).  (* fraction digits *)

Definition token (k : TokenKind) (lexeme : string) (start : nat) : Token :=
  {| kind := k; text := lexeme; position := start |}.

Definition snoc (s : string) (c : ascii) : string :=
  s ++ String c EmptyString.

(** The first character of a token. *)
Definition start_token (pos : nat) (c : ascii)
    : Error + (list Token * LexState) :=
  if Py.isspace c then inr ([], Idle)
  else if Ascii.eqb c "(" then inr ([token LParen "(" pos], Idle)
  else if Ascii.eqb c ")" then inr ([token RParen ")" pos], Idle)
  else if Ascii.eqb c "," then inr ([token Comma "," pos], Idle)
  else if Ascii.eqb c "'" then inr ([], InString pos EmptyString)
  else if Ascii.eqb c "-" then inr ([], NumSign pos)
  else if Py.is_digit c then inr ([], NumInt pos (String c EmptyString))
  else if is_word_start c then inr ([], InWord pos (String c EmptyString))
  else inl (LexError "unrecognized character" (Some pos)).

(** One character: the tokens completed by it and the next state. A
    character that ends a lexeme starts the next token. *)
Definition step (st : LexState) (pos : nat) (c : ascii)
    : Error + (list Token * LexState) :=
  let then_start (done : Token) :=
    match start_token pos c with
    | inr (toks, st') => inr (done :: toks, st')
    | inl e => inl e
    end in
  match st with
  | Idle => start_token pos c
  | InWord start w =>
      if is_word_char c then inr ([], InWord start (snoc w c))
      else then_start (token (word_kind w) w start)
  | InString start body =>
      if Ascii.eqb c "'" then inr ([], QuoteSeen start body)
      else inr ([], InString start (snoc body c))
  | QuoteSeen start body =>
      if Ascii.eqb c "'" then inr ([], InString start (snoc body "'"))
      else then_start (token StringLiteral body start)
  | NumSign start =>
      if Py.is_digit c
      then inr ([], NumInt start (String "-" (String c EmptyString)))
      else inl (LexError "invalid number: digit expected" (Some pos))
  | NumInt start l =>
      if Py.is_digit c then inr ([], NumInt start (snoc l c))
      else if Ascii.eqb c "." then inr ([], NumDot start (snoc l c))
      else then_start (token NumberLiteral l start)
  | NumDot start l =>
      if Py.is_digit c then inr ([], NumFrac start (snoc l c))
      else inl (LexError "invalid number: digit expected" (Some pos))
  | NumFrac start l =>
      if Py.is_digit c then inr ([], NumFrac start (snoc l c))
      else then_start (token NumberLiteral l start)
  end.

(** End of input. *)
Definition finish (st : LexState) (pos : nat) : Error + list Token :=
  match st with
  | Idle => inr []
  | InWord start w => inr [token (word_kind w) w start]
  | InString start _ =>
      inl (LexError "unterminated string literal" (Some start))
  | QuoteSeen start body => inr [token StringLiteral body start]
  | NumSign _ | NumDot _ _ =>
      inl (LexError "invalid number: digit expected" (Some pos))
  | NumInt start l | NumFrac start l => inr [token NumberLiteral l start]
  end.

Definition prepend {E A} (xs : list A) (r : E + list A) : E + list A :=
  match r with
  | inr ys => inr (xs ++ ys)
  | inl e => inl e
  end.

Fixpoint scan (st : LexState) (pos : nat) (s : string) : Error + list Token :=
  match s with
  | EmptyString => finish st pos
  | String c s' =>
      match step st pos c with
      | inr (toks, st') => prepend toks (scan st' (S pos) s')
      | inl e => inl e
      end
  end.

(** Modelled from the spec: [tokenize] of section 4.1, absent from the
    sources. *)
Definition tokenize (input : string) : Error + list Token :=
  scan Idle 0 input.

(** ** Parser (section 4.2) *)

Definition comparison_op (lexeme : string) : option ComparisonOp.t :=
  let w := Py.lower lexeme in
  if w =? "eq" then Some ComparisonOp.eq
  else if w =? "ne" then Some ComparisonOp.ne
  else if w =? "gt" then Some ComparisonOp.gt
  else if w =? "ge" then Some ComparisonOp.ge
  else if w =? "lt" then Some ComparisonOp.lt
  else if w =? "le" then Some ComparisonOp.le
  else None.

Definition function_name (lexeme : string) : option FunctionName.t :=
  let w := Py.lower lexeme in
  if w =? "contains" then Some FunctionName.contains
  else if w =? "startswith" then Some FunctionName.startswith
  else if w =? "endswith" then Some FunctionName.endswith
  else None.

Definition is_keyword (word : string) (t : Token) : bool :=
  match kind t with
  | LogicalKeyword => Py.lower (text t) =? word
  | _ => false
  end.

Definition nonempty_digits (s : string) : option Decimal.uint :=
  match NilEmpty.uint_of_string s with
  | Some Decimal.Nil => None
  | r => r
  end.

(** The value of a number lexeme: optional "-", digits, optional "." and
    digits. *)
Definition decimal_of_string (s : string) : option decimal :=
  let '(neg, body) :=
    match s with
    | String "-" r => (true, r)
    | _ => (false, s)
    end in
  match Py.split "." body with
  | [i] =>
      match nonempty_digits i with
      | Some d => Some {| negative := neg; int_part := d;
                          frac_part := Decimal.Nil |}
      | None => None
      end
  | [i; f] =>
      match nonempty_digits i, nonempty_digits f with
      | Some d, Some e => Some {| negative := neg; int_part := d;
                                  frac_part := e |}
      | _, _ => None
      end
  | _ => None
  end.

Definition literal_of (t : Token) : option Literal.t :=
  match kind t with
  | StringLiteral => Some (Literal.String (text t))
  | NumberLiteral => option_map Literal.Number (decimal_of_string (text t))
  | BooleanLiteral => Some (Literal.Boolean (Py.lower (text t) =? "true"))
  | NullLiteral => Some Literal.Null
  | _ => None
  end.

(** The segments of an identifier token; the grammar has no empty
    segment. *)
Definition field_path_of (t : Token) : Error + list string :=
  let segments := Py.split "/" (text t) in
  if existsb (String.eqb EmptyString) segments
  then inl (SyntaxError "empty segment in field path" (Some (position t)))
  else inr segments.

Definition parse_literal (tokens : list Token)
    : Error + (Literal.t * list Token) :=
  match tokens with
  | [] => inl (SyntaxError "unexpected end of input: literal expected" None)
  | t :: rest =>
      match literal_of t with
      | Some v => inr (v, rest)
      | None => inl (SyntaxError "literal expected" (Some (position t)))
      end
  end.

(** [comparison := field_path comparison_op literal], the field token
    already read. *)
Definition parse_comparison (field : Token) (tokens : list Token)
    : Error + (FilterNode * list Token) :=
  match tokens with
  | [] => inl (SyntaxError "unexpected end of input: operator expected" None)
  | op :: rest =>
      match kind op with
      | Operator =>
          match comparison_op (text op), field_path_of field with
          | None, _ =>
              inl (SyntaxError "unsupported operator" (Some (position op)))
          | _, inl e => inl e
          | Some o, inr fp =>
              match parse_literal rest with
              | inr (v, rest') => inr (Comparison fp o v, rest')
              | inl e => inl e
              end
          end
      | LParen =>
          inl (SyntaxError "unsupported function" (Some (position field)))
      | Identifier =>
          inl (SyntaxError "unsupported operator" (Some (position op)))
      | _ =>
          inl (SyntaxError "comparison operator expected"
                 (Some (position op)))
      end
  end.

Definition expect (k : TokenKind) (message : string) (tokens : list Token)
    : Error + (Token * list Token) :=
  match tokens with
  | [] => inl (SyntaxError message None)
  | t :: rest =>
      if match kind t, k with
         | Identifier, Identifier | StringLiteral, StringLiteral
         | LParen, LParen | RParen, RParen | Comma, Comma => true
         | _, _ => false
         end
      then inr (t, rest)
      else inl (SyntaxError message (Some (position t)))
  end.

(** [function_call := func_name "(" field_path "," literal ")"], the
    function token already read; the three functions take a string. *)
Definition parse_function_call (fn : Token) (tokens : list Token)
    : Error + (FilterNode * list Token) :=
  match function_name (text fn) with
  | None => inl (SyntaxError "unsupported function" (Some (position fn)))
  | Some name =>
      let arity := (text fn ++ " expects 2 arguments: a field path and a string")%string in
      match expect LParen (text fn ++ ": ( expected")%string tokens with
      | inl e => inl e
      | inr (_, ts1) =>
      match expect Identifier arity ts1 with
      | inl e => inl e
      | inr (field, ts2) =>
      match expect Comma arity ts2 with
      | inl e => inl e
      | inr (_, ts3) =>
      match expect StringLiteral arity ts3 with
      | inl e => inl e
      | inr (arg, ts4) =>
      match expect RParen arity ts4 with
      | inl e => inl e
      | inr (_, ts5) =>
      match field_path_of field with
      | inl e => inl e
      | inr fp =>
          inr (FunctionCall name fp (Literal.String (text arg)), ts5)
      end end end end end end
  end.

(** A parser step: [None] when the recursion budget is used up. *)
Definition Parsed := option (Error + (FilterNode * list Token)).

Section Levels.

(** [unary_expr], with a smaller budget. *)
Variable parse_unary : list Token -> Parsed.

(** [( "and" unary_expr )*], folding to the left. *)
Fixpoint and_loop (n : nat) (lhs : FilterNode) (tokens : list Token)
    : Parsed :=
  match tokens with
  | t :: rest =>
      if is_keyword "and" t then
        match n with
        | O => None
        | S n' =>
            match parse_unary rest with
            | Some (inr (rhs, rest')) =>
                and_loop n' (Logical LogicalOp.and lhs rhs) rest'
            | other => other
            end
        end
      else Some (inr (lhs, tokens))
  | [] => Some (inr (lhs, []))
  end.

Definition parse_and (n : nat) (tokens : list Token) : Parsed :=
  match parse_unary tokens with
  | Some (inr (lhs, rest)) => and_loop n lhs rest
  | other => other
  end.

(** [( "or" and_expr )*], folding to the left. *)
Fixpoint or_loop (n : nat) (lhs : FilterNode) (tokens : list Token)
    : Parsed :=
  match tokens with
  | t :: rest =>
      if is_keyword "or" t then
        match n with
        | O => None
        | S n' =>
            match parse_and n' rest with
            | Some (inr (rhs, rest')) =>
                or_loop n' (Logical LogicalOp.or lhs rhs) rest'
            | other => other
            end
        end
      else Some (inr (lhs, tokens))
  | [] => Some (inr (lhs, []))
  end.

Definition parse_or (n : nat) (tokens : list Token) : Parsed :=
  match parse_and n tokens with
  | Some (inr (lhs, rest)) => or_loop n lhs rest
  | other => other
  end.

End Levels.

(** [unary_expr := "not" unary_expr | primary] and
    [primary := "(" expression ")" | comparison | function_call]. *)
Fixpoint parse_unary (fuel : nat) (tokens : list Token) : Parsed :=
  match fuel with
  | O => None
  | S fuel' =>
      match tokens with
      | [] => Some (inl (SyntaxError "unexpected end of input" None))
      | t :: rest =>
          match kind t with
          | LogicalKeyword =>
              if is_keyword "not" t then
                match parse_unary fuel' rest with
                | Some (inr (x, rest')) =>
                    Some (inr (Unary UnaryOp.not x, rest'))
                | other => other
                end
              else Some (inl (SyntaxError "unexpected keyword"
                                (Some (position t))))
          | LParen =>
              match parse_or (parse_unary fuel') fuel' rest with
              | Some (inr (x, rest')) =>
                  match expect RParen "unmatched parenthesis" rest' with
                  | inr (_, rest'') => Some (inr (x, rest''))
                  | inl (SyntaxError m None) =>
                      Some (inl (SyntaxError m (Some (position t))))
                  | inl e => Some (inl e)
                  end
              | other => other
              end
          | Identifier => Some (parse_comparison t rest)
          | Function => Some (parse_function_call t rest)
          | _ => Some (inl (SyntaxError "unexpected token"
                             (Some (position t))))
          end
      end
  end.

(** [expression := or_expr] *)
Definition parse_expression (fuel : nat) (tokens : list Token) : Parsed :=
  parse_or (parse_unary fuel) fuel tokens.

(** Modelled from the spec: [parse(tokens)] of section 4.2, absent from the
    sources. Every level of recursion reads a token first, so a budget
    above the number of tokens is never used up ([parse_tokens_budget]
    below). *)
Definition parse_tokens (tokens : list Token) : Error + FilterNode :=
  match parse_expression (S (length tokens)) tokens with
  | Some (inr (tree, [])) => inr tree
  | Some (inr (_, extra :: _)) =>
      inl (SyntaxError "unexpected token after the expression"
             (Some (position extra)))
  | Some (inl e) => inl e
  | None => inl (SyntaxError "expression nested too deeply" None)
  end.

(** Modelled from the spec: [parse(value)], the entry point the query
    parser calls: tokenize, then parse the tokens. *)
Definition parse (input : string) : Error + FilterNode :=
  match tokenize input with
  | inr tokens => parse_tokens tokens
  | inl e => inl e
  end.

(** ** Pretty-printer (section 8) *)

Definition comparison_op_name (o : ComparisonOp.t) : string :=
  match o with
  | ComparisonOp.eq => "eq" | ComparisonOp.ne => "ne"
  | ComparisonOp.gt => "gt" | ComparisonOp.ge => "ge"
  | ComparisonOp.lt => "lt" | ComparisonOp.le => "le"
  end.

Definition logical_op_name (o : LogicalOp.t) : string :=
  match o with
  | LogicalOp.and => "and"
  | LogicalOp.or => "or"
  end.

Definition function_name_text (f : FunctionName.t) : string :=
  match f with
  | FunctionName.contains => "contains"
  | FunctionName.startswith => "startswith"
  | FunctionName.endswith => "endswith"
  end.

(** The body of a string literal with every quote doubled. *)
Fixpoint escape (body : string) : string :=
  match body with
  | EmptyString => EmptyString
  | String c s =>
      if Ascii.eqb c "'" then String "'" (String "'" (escape s))
      else String c (escape s)
  end.

(** The fraction of a numeral as it is written: nothing, or a point and
    the digits. *)
Definition fraction_text (f : Decimal.uint) : string :=
  match f with
  | Decimal.Nil => EmptyString
  | _ => String "." (NilEmpty.string_of_uint f)
  end.

Definition string_of_decimal (d : decimal) : string :=
  (if negative d then "-" else EmptyString)
  ++ NilEmpty.string_of_uint (int_part d)
  ++ fraction_text (frac_part d).

Definition pretty_literal (v : Literal.t) : string :=
  match v with
  | Literal.String s => String "'" (escape s ++ "'")
  | Literal.Number d => string_of_decimal d
  | Literal.Boolean b => if b then "true" else "false"
  | Literal.Null => "null"
  end.

(** An operand that is itself a [Logical] or [Unary] node goes in
    parentheses: parentheses are not kept in the tree, so the printer puts
    back those that fix the shape. *)
Definition parenthesize (t : FilterNode) (s : string) : string :=
  match t with
  | Logical _ _ _ | Unary _ _ => String "(" (s ++ ")")
  | _ => s
  end.

(** Modelled from the spec: the in-order reconstruction of section 8
    (field, operator, literal back to text); no printer is among the
    sources. *)
Fixpoint pretty (t : FilterNode) : string :=
  match t with
  | Comparison fp o v =>
      Py.join "/" fp ++ " " ++ comparison_op_name o ++ " " ++ pretty_literal v
  | Logical o l r =>
      parenthesize l (pretty l) ++ " " ++ logical_op_name o ++ " "
      ++ parenthesize r (pretty r)
  | Unary _ x => "not " ++ parenthesize x (pretty x)
  | FunctionCall f fp a =>
      function_name_text f ++ "(" ++ Py.join "/" fp ++ ","
      ++ pretty_literal a ++ ")"
  end.

(** ** Vocabulary for the statements about the filter core *)

Fixpoint all_chars (p : ascii -> bool) (s : string) : bool :=
  match s with
  | EmptyString => true
  | String c s' => p c && all_chars p s'
  end.

(** The text of a word token: a word start, then word characters. *)
Definition word_shape (w : string) : bool :=
  match w with
  | EmptyString => false
  | String c r => is_word_start c && all_chars is_word_char r
  end.

(** A field path whose text is one identifier lexeme and whose segments
    are those of that lexeme, none of them empty. *)
Definition path_ok (fp : list string) : Prop :=
  word_shape (Py.join "/" fp) = true
  /\ word_kind (Py.join "/" fp) = Identifier
  /\ Py.split "/" (Py.join "/" fp) = fp
  /\ existsb (String.eqb EmptyString) fp = false.

(** A numeral has at least one integer digit. *)
Definition literal_ok (v : Literal.t) : Prop :=
  match v with
  | Literal.Number d => int_part d <> Decimal.Nil
  | _ => True
  end.

(** The trees the grammar can produce. *)
Fixpoint well_formed (t : FilterNode) : Prop :=
  match t with
  | Comparison fp _ v => path_ok fp /\ literal_ok v
  | Logical _ l r => well_formed l /\ well_formed r
  | Unary _ x => well_formed x
  | FunctionCall _ fp a => path_ok fp /\ exists s, a = Literal.String s
  end.

(** The literal of a whole number. *)
Definition integer (n : nat) : Literal.t :=
  Literal.Number {| negative := false; int_part := Nat.to_uint n;
                    frac_part := Decimal.Nil |}.

(** A token without its position. *)
Definition shape (t : Token) : TokenKind * string := (kind t, text t).

Definition literal_shape (v : Literal.t) : TokenKind * string :=
  match v with
  | Literal.String s => (StringLiteral, s)
  | Literal.Number d => (NumberLiteral, string_of_decimal d)
  | Literal.Boolean b => (BooleanLiteral, if b then "true" else "false")
  | Literal.Null => (NullLiteral, "null")
  end.

Definition parenthesize_tokens (t : FilterNode)
    (ts : list (TokenKind * string)) : list (TokenKind * string) :=
  match t with
  | Logical _ _ _ | Unary _ _ => (LParen, "(") :: ts ++ [(RParen, ")")]
  | _ => ts
  end.

(** The tokens that [pretty t] is made of. *)
Fixpoint spell (t : FilterNode) : list (TokenKind * string) :=
  match t with
  | Comparison fp o v =>
      [(Identifier, Py.join "/" fp); (Operator, comparison_op_name o);
       literal_shape v]
  | Logical o l r =>
      parenthesize_tokens l (spell l)
      ++ (LogicalKeyword, logical_op_name o)
      :: parenthesize_tokens r (spell r)
  | Unary _ x => (LogicalKeyword, "not") :: parenthesize_tokens x (spell x)
  | FunctionCall f fp a =>
      [(Function, function_name_text f); (LParen, "(");
       (Identifier, Py.join "/" fp); (Comma, ","); literal_shape a;
       (RParen, ")")]
  end.

(** An operand as the printer writes it. *)
Definition operand (t : FilterNode) : string := parenthesize t (pretty t).

(** Characters after which no lexeme continues. *)
Definition is_delimiter (c : ascii) : bool :=
  Ascii.eqb c " " || Ascii.eqb c "(" || Ascii.eqb c ")" || Ascii.eqb c ",".

Definition delimited (rest : string) : Prop :=
  match rest with
  | EmptyString => True
  | String c _ => is_delimiter c = true
  end.

(** The token a state holds back until the lexeme ends. *)
Definition pending (st : LexState) : option Token :=
  match st with
  | InWord start w => Some (token (word_kind w) w start)
  | QuoteSeen start body => Some (token StringLiteral body start)
  | NumInt start l | NumFrac start l => Some (token NumberLiteral l start)
  | _ => None
  end.

(** [s] is read from [Idle] as tokens of the shapes [ks], whatever
    delimited text follows. *)
Definition lexes (s : string) (ks : list (TokenKind * string)) : Prop :=
  forall pos rest,
    delimited rest ->
    exists toks,
      map shape toks = ks
      /\ scan Idle pos (s ++ rest) =
         prepend toks (scan Idle (pos + String.length s) rest).

Definition is_lex_error (e : Error) : Prop :=
  match e with
  | LexError _ _ => True
  | SyntaxError _ _ => False
  end.

Definition is_syntax_error (e : Error) : Prop :=
  match e with
  | SyntaxError _ _ => True
  | LexError _ _ => False
  end.

(** Where an expression ends: at the end of the tokens or at a closing
    parenthesis. *)
Definition stops (rest : list Token) : Prop :=
  match rest with
  | [] => True
  | t :: _ => kind t = RParen
  end.

(** What the pass keeps true of the word it is reading, and of the
    identifier tokens it hands to the parser. *)
Definition state_ok (st : LexState) : Prop :=
  match st with
  | InWord _ w => word_shape w = true
  | _ => True
  end.

Definition token_ok (t : Token) : Prop :=
  kind t = Identifier ->
  word_shape (text t) = true /\ word_kind (text t) = Identifier.

(** A parser step that yields well-formed trees and hands on tokens of the
    tokenizer. *)
Definition sound (p : list Token -> Parsed) : Prop :=
  forall ts x rest,
    Forall token_ok ts -> p ts = Some (inr (x, rest)) ->
    well_formed x /\ Forall token_ok rest.

(** A parser step whose errors are syntax errors. *)
Definition typed (p : list Token -> Parsed) : Prop :=
  forall ts e, p ts = Some (inl e) -> is_syntax_error e.

(** On fewer than [b] tokens the step answers, and it consumes a token
    whenever it yields a tree. *)
Definition total_below (p : list Token -> Parsed) (b : nat) : Prop :=
  forall ts,
    length ts < b ->
    exists r, p ts = Some r
              /\ forall x rest, r = inr (x, rest) -> length rest < length ts.

End FilterCore.

(* ===================================================================== *)
(** * The parser at concrete collaborators *)
(* ===================================================================== *)

(** Small executable stand-ins for the two [urllib.parse] functions, used
    to run the parser on concrete URLs. They cover URL references made of
    a path, a query and a fragment, without percent escapes and control
    characters; the theorems about [parse_url] and [parse_query_string]
    hold for any [urlparse] and [parse_qs]. *)
Module Urllib.

(** The text before the first [sep], and the text after it if there is
    one: [s.partition(sep)]. *)
Fixpoint partition (sep : ascii) (s : string) : string * option string :=
  match s with
  | EmptyString => (EmptyString, None)
  | String c s' =>
      if Ascii.eqb c sep then (EmptyString, Some s')
      else let '(a, b) := partition sep s' in (String c a, b)
  end.

Definition or_empty (o : option string) : string :=
  match o with
  | Some s => s
  | None => EmptyString
  end.

Definition urlparse (url : string) : option ParseResult :=
  let '(rest, frag) := partition "#" url in
  let '(p, q) := partition "?" rest in
  Some {| scheme := EmptyString; netloc := EmptyString; path := p; params := EmptyString;
          query := or_empty q; fragment := or_empty frag |}.

Definition plus_to_space (s : string) : string := Py.replace s "+" " ".

(** [parsed_result[name].append(value)], or a new key at the end. *)
Fixpoint add_value (name value : string) (d : QueryParams) : QueryParams :=
  match d with
  | [] => [(name, [Some value])]
  | (k, vs) :: rest =>
      if String.eqb k name then (k, vs ++ [Some value]) :: rest
      else (k, vs) :: add_value name value rest
  end.

(** [parse_qs]: fields separated by "&", a field without a value is
    dropped. *)
Definition parse_qs (query_string : string) : QueryParams :=
  fold_left
    (fun d name_value =>
       let '(name, value) := partition "=" name_value in
       match or_empty value with
       | EmptyString => d
       | v => add_value (plus_to_space name) (plus_to_space v) d
       end)
    (Py.split "&" query_string) [].

End Urllib.

(** The query parser with the filter core of the specification, the
    integer conversion of [Py] and the URL functions of [Urllib]. *)
Module Run.

Definition World := World FilterCore.FilterNode.

Definition parse_query_params :=
  parse_query_params FilterCore.FilterNode FilterCore.Error
    FilterCore.parse Py.int.
Definition parse_query_string :=
  parse_query_string FilterCore.FilterNode FilterCore.Error
    FilterCore.parse Py.int Urllib.parse_qs.
Definition parse_url :=
  parse_url FilterCore.FilterNode FilterCore.Error
    FilterCore.parse Py.int Urllib.urlparse Urllib.parse_qs.

Definition fresh_world : World := fresh_world FilterCore.FilterNode.

(** Sample trees for the concrete runs. *)
Definition a_eq_1 : FilterCore.FilterNode :=
  FilterCore.Comparison ["a"] FilterCore.ComparisonOp.eq
    (FilterCore.integer 1).
Definition b_eq_2 : FilterCore.FilterNode :=
  FilterCore.Comparison ["b"] FilterCore.ComparisonOp.eq
    (FilterCore.integer 2).
Definition c_eq_3 : FilterCore.FilterNode :=
  FilterCore.Comparison ["c"] FilterCore.ComparisonOp.eq
    (FilterCore.integer 3).
Definition name_has_foo : FilterCore.FilterNode :=
  FilterCore.FunctionCall FilterCore.FunctionName.contains ["Name"]
    (FilterCore.Literal.String "foo").
Definition b_or_c : FilterCore.FilterNode :=
  FilterCore.Logical FilterCore.LogicalOp.or
    (FilterCore.Comparison ["b"] FilterCore.ComparisonOp.ne
       FilterCore.Literal.Null)
    (FilterCore.Comparison ["Address"; "City"] FilterCore.ComparisonOp.eq
       (FilterCore.Literal.String "Oslo")).

End Run.

(* ===================================================================== *)
(** * Facts about strings *)
(* ===================================================================== *)

Module StringFacts.

Lemma append_nil_r (s : string) : (s ++ EmptyString)%string = s.
Proof. induction s as [|c s IH]; simpl; [reflexivity|now rewrite IH]. Qed.

Lemma append_assoc (a b c : string) :
  ((a ++ b) ++ c)%string = (a ++ (b ++ c))%string.
Proof. induction a as [|x a IH]; simpl; [reflexivity|now rewrite IH]. Qed.

Lemma length_append (a b : string) :
  String.length (a ++ b) = String.length a + String.length b.
Proof. induction a as [|x a IH]; simpl; [reflexivity|now rewrite IH]. Qed.

End StringFacts.

Module PyFacts.
Import Py.

Lemma lower_app (a b : string) : lower (a ++ b) = (lower a ++ lower b)%string.
Proof. induction a as [|c a IH]; simpl; [reflexivity|now rewrite IH]. Qed.

Lemma lower_split (p x s : string) :
  lower s = (p ++ x)%string ->
  exists a b : string, s = (a ++ b)%string /\ lower a = p /\ lower b = x.
Proof.
  revert s. induction p as [|c p IH]; intros s H; simpl in H.
  - exists EmptyString, s. auto.
  - destruct s as [|d s]; simpl in H; [discriminate|].
    injection H as Hc Hs. destruct (IH s Hs) as (a & b & -> & Ha & Hb).
    exists (String d a), b. simpl. rewrite Ha, Hc. auto.
Qed.

Lemma endswith_unfold (s x : string) :
  endswith s x =
  (String.eqb s x ||
   match s with
   | EmptyString => false
   | String _ s' => endswith s' x
   end).
Proof. destruct s; reflexivity. Qed.

Lemma endswith_spec (s x : string) :
  endswith s x = true <-> exists pre : string, s = (pre ++ x)%string.
Proof.
  induction s as [|c s IH]; rewrite endswith_unfold.
  - rewrite orb_false_r, String.eqb_eq. split.
    + intros <-. now exists EmptyString.
    + intros [[|d pre] H]; simpl in H; [auto|discriminate].
  - rewrite orb_true_iff, String.eqb_eq, IH. split.
    + intros [<-|[pre ->]]; [now exists EmptyString|now exists (String c pre)].
    + intros [[|d pre] H]; simpl in H; [now left|].
      injection H as -> ->. right. now exists pre.
Qed.

(** [s.lower().endswith(suffix)], for a lower-case [suffix], is ending in
    [suffix] up to case. *)
Lemma endswith_lower (s suffix : string) :
  lower suffix = suffix ->
  endswith (lower s) suffix = true <-> ends_with_ignoring_case s suffix.
Proof.
  intros Hlow. rewrite endswith_spec. unfold ends_with_ignoring_case.
  rewrite Hlow. split.
  - intros [pre H]. destruct (lower_split _ _ _ H) as (a & b & -> & _ & Hb).
    now exists a, b.
  - intros (a & b & -> & Hb). exists (lower a). now rewrite lower_app, Hb.
Qed.

Lemma split_nonempty (sep : ascii) (s : string) : split sep s <> [].
Proof.
  destruct s as [|c s]; simpl; [discriminate|].
  destruct (Ascii.eqb c sep); [discriminate|].
  destruct (split sep s); discriminate.
Qed.

End PyFacts.

(* ===================================================================== *)
(** * Facts about the filter core *)
(* ===================================================================== *)

Module FilterCoreFacts.
Import FilterCore StringFacts.

(** ** Characters *)

Ltac by_cases_on_char c :=
  destruct c as [[] [] [] [] [] [] [] []];
  try reflexivity; try discriminate.

Lemma delimiter_ends_lexemes (c : ascii) :
  is_delimiter c = true ->
  is_word_char c = false /\ Py.is_digit c = false
  /\ Ascii.eqb c "." = false /\ Ascii.eqb c "'" = false.
Proof.
  unfold is_delimiter. rewrite !orb_true_iff, !Ascii.eqb_eq.
  intros [[[->| ->]| ->]| ->]; repeat split.
Qed.

Lemma word_start_begins_word (pos : nat) (c : ascii) :
  is_word_start c = true ->
  start_token pos c = inr ([], InWord pos (String c EmptyString)).
Proof. by_cases_on_char c. Qed.

Lemma digit_begins_number (pos : nat) (c : ascii) :
  Py.is_digit c = true ->
  start_token pos c = inr ([], NumInt pos (String c EmptyString)).
Proof. by_cases_on_char c. Qed.

Lemma digit_is_no_dot (c : ascii) :
  Py.is_digit c = true -> Ascii.eqb c "." = false.
Proof. by_cases_on_char c. Qed.

Lemma start_quote (pos : nat) :
  start_token pos "'" = inr ([], InString pos EmptyString).
Proof. reflexivity. Qed.

Lemma start_space (pos : nat) : start_token pos " " = inr ([], Idle).
Proof. reflexivity. Qed.

Lemma start_minus (pos : nat) : start_token pos "-" = inr ([], NumSign pos).
Proof. reflexivity. Qed.

Lemma step_int_dot (start : nat) (l : string) (pos : nat) :
  step (NumInt start l) pos "." = inr ([], NumDot start (snoc l ".")).
Proof. reflexivity. Qed.

(** ** The pass over a lexeme *)

Lemma prepend_nil {E A} (r : E + list A) : prepend [] r = r.
Proof. destruct r; reflexivity. Qed.

Lemma prepend_app {E A} (xs ys : list A) (r : E + list A) :
  prepend xs (prepend ys r) = prepend (xs ++ ys) r.
Proof. destruct r; simpl; [reflexivity|now rewrite app_assoc]. Qed.

Lemma scan_cons (st : LexState) (pos : nat) (c : ascii) (s : string) :
  scan st pos (String c s) =
  match step st pos c with
  | inr (toks, st') => prepend toks (scan st' (S pos) s)
  | inl e => inl e
  end.
Proof. reflexivity. Qed.

Lemma snoc_append (acc : string) (c : ascii) (r : string) :
  (snoc acc c ++ r)%string = (acc ++ String c r)%string.
Proof. unfold snoc. now rewrite append_assoc. Qed.

Lemma scan_word (start : nat) (r : string) :
  all_chars is_word_char r = true ->
  forall acc pos rest,
    scan (InWord start acc) pos (r ++ rest) =
    scan (InWord start (acc ++ r)) (pos + String.length r) rest.
Proof.
  induction r as [|c r IH]; intros Hr acc pos rest.
  - now rewrite append_nil_r, Nat.add_0_r.
  - simpl in Hr. apply andb_true_iff in Hr as [Hc Hr].
    cbn [append String.length]. rewrite scan_cons. cbn [step].
    rewrite Hc, prepend_nil, IH, snoc_append, Nat.add_succ_r by exact Hr.
    reflexivity.
Qed.

Lemma scan_int_digits (start : nat) (r : string) :
  all_chars Py.is_digit r = true ->
  forall acc pos rest,
    scan (NumInt start acc) pos (r ++ rest) =
    scan (NumInt start (acc ++ r)) (pos + String.length r) rest.
Proof.
  induction r as [|c r IH]; intros Hr acc pos rest.
  - now rewrite append_nil_r, Nat.add_0_r.
  - simpl in Hr. apply andb_true_iff in Hr as [Hc Hr].
    cbn [append String.length]. rewrite scan_cons. cbn [step].
    rewrite Hc, prepend_nil, IH, snoc_append, Nat.add_succ_r by exact Hr.
    reflexivity.
Qed.

Lemma scan_frac_digits (start : nat) (r : string) :
  all_chars Py.is_digit r = true ->
  forall acc pos rest,
    scan (NumFrac start acc) pos (r ++ rest) =
    scan (NumFrac start (acc ++ r)) (pos + String.length r) rest.
Proof.
  induction r as [|c r IH]; intros Hr acc pos rest.
  - now rewrite append_nil_r, Nat.add_0_r.
  - simpl in Hr. apply andb_true_iff in Hr as [Hc Hr].
    cbn [append String.length]. rewrite scan_cons. cbn [step].
    rewrite Hc, prepend_nil, IH, snoc_append, Nat.add_succ_r by exact Hr.
    reflexivity.
Qed.

(** Inside a literal, the escaped body is read back as the body. *)
Lemma scan_string_body (start : nat) (body : string) :
  forall acc pos rest,
    scan (InString start acc) pos (escape body ++ rest) =
    scan (InString start (acc ++ body))
      (pos + String.length (escape body)) rest.
Proof.
  induction body as [|c body IH]; intros acc pos rest.
  - cbn [escape append String.length]. now rewrite append_nil_r, Nat.add_0_r.
  - cbn [escape]. destruct (Ascii.eqb c "'") eqn:Hc.
    + apply Ascii.eqb_eq in Hc. subst c.
      cbn [append String.length]. rewrite scan_cons. cbn [step].
      rewrite Ascii.eqb_refl, prepend_nil, scan_cons. cbn [step].
      rewrite Ascii.eqb_refl, prepend_nil, IH, snoc_append.
      now rewrite !Nat.add_succ_r.
    + cbn [append String.length]. rewrite scan_cons. cbn [step].
      rewrite Hc, prepend_nil, IH, snoc_append, Nat.add_succ_r.
      reflexivity.
Qed.

(** A held-back token comes out when delimited text follows. *)
Lemma scan_flush (st : LexState) (tk : Token) (pos : nat) (rest : string) :
  pending st = Some tk ->
  delimited rest ->
  scan st pos rest = prepend [tk] (scan Idle pos rest).
Proof.
  intros Hp Hd. destruct rest as [|c rest].
  - destruct st; simpl in Hp; try discriminate; injection Hp as <-;
      reflexivity.
  - simpl in Hd. destruct (delimiter_ends_lexemes c Hd) as (Hw & Hdig & Hdot & Hq).
    rewrite !scan_cons.
    destruct st; simpl in Hp; try discriminate; injection Hp as <-;
      cbn [step]; rewrite ?Hw, ?Hdig, ?Hdot, ?Hq;
      destruct (start_token pos c) as [e|[toks st']]; try reflexivity;
      now rewrite prepend_app.
Qed.


(** ** Reading the printed lexemes *)

Lemma delimited_append (s rest : string) :
  delimited s -> delimited rest -> delimited (s ++ rest).
Proof. destruct s; simpl; auto. Qed.

Lemma lexes_compose (s1 s2 : string) (k1 k2 : list (TokenKind * string)) :
  lexes s1 k1 -> lexes s2 k2 -> delimited s2 -> lexes (s1 ++ s2) (k1 ++ k2).
Proof.
  intros H1 H2 Hd pos rest Hrest.
  destruct (H1 pos (s2 ++ rest)%string (delimited_append _ _ Hd Hrest))
    as (t1 & E1 & S1).
  destruct (H2 (pos + String.length s1) rest Hrest) as (t2 & E2 & S2).
  exists (t1 ++ t2). split; [now rewrite map_app, E1, E2|].
  rewrite append_assoc, S1, S2, prepend_app, length_append, Nat.add_assoc.
  reflexivity.
Qed.

(** A character read from [Idle] that completes [toks] and leaves the
    pass in [Idle]. *)
Lemma lexes_after (c : ascii) (toks : nat -> list Token)
    (k0 : list (TokenKind * string))
    (s : string) (k : list (TokenKind * string)) :
  (forall pos, start_token pos c = inr (toks pos, Idle)) ->
  (forall pos, map shape (toks pos) = k0) ->
  lexes s k -> lexes (String c s) (k0 ++ k).
Proof.
  intros Hc Hk H pos rest Hrest.
  destruct (H (S pos) rest Hrest) as (t & E & S1).
  exists (toks pos ++ t). split; [now rewrite map_app, Hk, E|].
  cbn [append String.length]. rewrite scan_cons. cbn [step].
  rewrite Hc, S1, prepend_app, Nat.add_succ_r. reflexivity.
Qed.

Lemma lexes_nil : lexes EmptyString [].
Proof.
  intros pos rest _. exists []. split; [reflexivity|].
  cbn [append String.length]. now rewrite Nat.add_0_r, prepend_nil.
Qed.

Lemma lexes_space (s : string) (k : list (TokenKind * string)) :
  lexes s k -> lexes (String " " s) k.
Proof.
  intros H. apply (lexes_after " " (fun _ => []) [] s k); auto.
Qed.

Lemma lexes_lparen (s : string) (k : list (TokenKind * string)) :
  lexes s k -> lexes (String "(" s) ((LParen, "(") :: k).
Proof.
  intros H.
  apply (lexes_after "(" (fun pos => [token LParen "(" pos]) [(LParen, "(")]);
    auto.
Qed.

Lemma lexes_rparen (s : string) (k : list (TokenKind * string)) :
  lexes s k -> lexes (String ")" s) ((RParen, ")") :: k).
Proof.
  intros H.
  apply (lexes_after ")" (fun pos => [token RParen ")" pos]) [(RParen, ")")]);
    auto.
Qed.

Lemma lexes_comma (s : string) (k : list (TokenKind * string)) :
  lexes s k -> lexes (String "," s) ((Comma, ",") :: k).
Proof.
  intros H.
  apply (lexes_after "," (fun pos => [token Comma "," pos]) [(Comma, ",")]);
    auto.
Qed.

Lemma lexes_word (w : string) :
  word_shape w = true -> lexes w [(word_kind w, w)].
Proof.
  intros Hw pos rest Hrest. destruct w as [|c r]; [discriminate|].
  simpl in Hw. apply andb_true_iff in Hw as [Hc Hr].
  exists [token (word_kind (String c r)) (String c r) pos].
  split; [reflexivity|].
  cbn [append String.length]. rewrite scan_cons. cbn [step].
  rewrite (word_start_begins_word pos c Hc), prepend_nil.
  rewrite scan_word by exact Hr.
  rewrite (scan_flush _ (token (word_kind (String c r)) (String c r) pos))
    by (auto; reflexivity).
  now rewrite Nat.add_succ_r.
Qed.

Lemma lexes_string (body : string) :
  lexes (String "'" (escape body ++ "'")) [(StringLiteral, body)].
Proof.
  intros pos rest Hrest. exists [token StringLiteral body pos].
  split; [reflexivity|].
  cbn [append String.length]. rewrite scan_cons. cbn [step].
  rewrite start_quote, prepend_nil, append_assoc, scan_string_body.
  cbn [append]. rewrite scan_cons. cbn [step]. rewrite Ascii.eqb_refl.
  rewrite prepend_nil.
  rewrite (scan_flush _ (token StringLiteral body pos)) by (auto; reflexivity).
  rewrite length_append. cbn [String.length].
  now rewrite !Nat.add_succ_r, Nat.add_0_r.
Qed.

Lemma digits_of_uint (u : Decimal.uint) :
  all_chars Py.is_digit (NilEmpty.string_of_uint u) = true.
Proof. induction u; simpl; auto. Qed.

Lemma first_digit_of_uint (u : Decimal.uint) :
  u <> Decimal.Nil ->
  exists c r, NilEmpty.string_of_uint u = String c r
              /\ Py.is_digit c = true /\ all_chars Py.is_digit r = true.
Proof.
  intros Hu. pose proof (digits_of_uint u) as H.
  destruct u; [congruence| | | | | | | | | |];
    simpl in *; eexists; eexists; (split; [reflexivity|split; [reflexivity|exact H]]).
Qed.

(** From the first integer digit on: the remaining integer digits and the
    fraction. *)
Lemma scan_number_tail (start : nat) (acc ds : string) (f : Decimal.uint)
    (pos : nat) (rest : string) :
  all_chars Py.is_digit ds = true ->
  delimited rest ->
  scan (NumInt start acc) pos (ds ++ fraction_text f ++ rest) =
  prepend [token NumberLiteral (acc ++ ds ++ fraction_text f) start]
    (scan Idle (pos + String.length (ds ++ fraction_text f)) rest).
Proof.
  intros Hds Hrest. rewrite scan_int_digits by exact Hds.
  destruct (Decimal.uint_eq_dec f Decimal.Nil) as [->|Hf].
  - cbn [fraction_text append]. rewrite !append_nil_r.
    now apply scan_flush.
  - destruct (first_digit_of_uint f Hf) as (c & r & Ef & Hc & Hr).
    assert (Etext : fraction_text f = String "." (String c r)).
    { destruct f; try congruence; simpl; now rewrite <- Ef. }
    rewrite Etext. cbn [append]. rewrite scan_cons, step_int_dot.
    rewrite prepend_nil, scan_cons. cbn [step]. rewrite Hc, prepend_nil.
    rewrite scan_frac_digits by exact Hr.
    erewrite scan_flush; [|reflexivity|exact Hrest].
    f_equal.
    + unfold snoc. now rewrite !append_assoc.
    + f_equal. rewrite length_append. cbn [String.length]. lia.
Qed.

Lemma string_of_decimal_eq (d : decimal) :
  string_of_decimal d =
  ((if negative d then "-" else EmptyString)
   ++ NilEmpty.string_of_uint (int_part d) ++ fraction_text (frac_part d))%string.
Proof. reflexivity. Qed.

Lemma lexes_number (d : decimal) :
  int_part d <> Decimal.Nil ->
  lexes (string_of_decimal d) [(NumberLiteral, string_of_decimal d)].
Proof.
  intros Hd pos rest Hrest.
  exists [token NumberLiteral (string_of_decimal d) pos].
  split; [reflexivity|].
  rewrite string_of_decimal_eq.
  destruct (first_digit_of_uint _ Hd) as (c & r & Ei & Hc & Hr).
  rewrite Ei. destruct (negative d).
  - cbn [append String.length]. rewrite scan_cons. cbn [step].
    rewrite start_minus, prepend_nil, scan_cons. cbn [step].
    rewrite Hc, prepend_nil.
    rewrite append_assoc, scan_number_tail by assumption.
    f_equal. f_equal. rewrite !length_append. lia.
  - cbn [append String.length]. rewrite scan_cons. cbn [step].
    rewrite (digit_begins_number pos c Hc), prepend_nil.
    rewrite append_assoc, scan_number_tail by assumption.
    f_equal. f_equal. rewrite !length_append. lia.
Qed.


Lemma lexes_then (s1 s2 : string) (k : TokenKind * string)
    (k2 : list (TokenKind * string)) :
  lexes s1 [k] -> lexes s2 k2 -> delimited s2 -> lexes (s1 ++ s2) (k :: k2).
Proof. intros H1 H2 Hd. exact (lexes_compose s1 s2 [k] k2 H1 H2 Hd). Qed.

Lemma lexes_literal (v : Literal.t) :
  literal_ok v -> lexes (pretty_literal v) [literal_shape v].
Proof.
  destruct v as [s|d|[]|]; simpl; intros H.
  - apply lexes_string.
  - now apply lexes_number.
  - now apply (lexes_word "true").
  - now apply (lexes_word "false").
  - now apply (lexes_word "null").
Qed.

Lemma lexes_path (fp : list string) :
  path_ok fp -> lexes (Py.join "/" fp) [(Identifier, Py.join "/" fp)].
Proof.
  intros (Hshape & Hkind & _). rewrite <- Hkind at 1. now apply lexes_word.
Qed.

Lemma lexes_comparison_op (o : ComparisonOp.t) :
  lexes (comparison_op_name o) [(Operator, comparison_op_name o)].
Proof. destruct o; now apply lexes_word. Qed.

Lemma lexes_logical_op (o : LogicalOp.t) :
  lexes (logical_op_name o) [(LogicalKeyword, logical_op_name o)].
Proof. destruct o; now apply lexes_word. Qed.

Lemma lexes_function_name (f : FunctionName.t) :
  lexes (function_name_text f) [(Function, function_name_text f)].
Proof. destruct f; now apply lexes_word. Qed.

Lemma lexes_parenthesize (x : FilterNode) :
  lexes (pretty x) (spell x) ->
  lexes (operand x) (parenthesize_tokens x (spell x)).
Proof.
  intros H. unfold operand.
  destruct x; cbn [parenthesize parenthesize_tokens]; try exact H;
    apply lexes_lparen;
    (apply lexes_compose; [exact H|apply lexes_rparen, lexes_nil|reflexivity]).
Qed.

(** The printed form of a tree is read as the tokens that spell it. *)
Lemma lexes_pretty (t : FilterNode) :
  well_formed t -> lexes (pretty t) (spell t).
Proof.
  induction t as [fp o v|o l IHl r IHr|o x IHx|f fp a]; cbn [well_formed].
  - intros [Hfp Hv]. cbn [pretty spell append].
    apply lexes_then; [now apply lexes_path| |reflexivity].
    apply lexes_space.
    apply lexes_then; [apply lexes_comparison_op| |reflexivity].
    apply lexes_space. now apply lexes_literal.
  - intros [Hl Hr]. cbn [pretty spell append].
    fold (operand l). fold (operand r).
    apply lexes_compose; [apply lexes_parenthesize; auto| |reflexivity].
    apply lexes_space.
    apply lexes_then; [apply lexes_logical_op| |reflexivity].
    apply lexes_space. apply lexes_parenthesize; auto.
  - intros Hx. cbn [pretty spell]. fold (operand x).
    change ("not " ++ operand x)%string
      with ("not" ++ String " " (operand x))%string.
    apply lexes_then; [now apply (lexes_word "not")| |reflexivity].
    apply lexes_space. apply lexes_parenthesize; auto.
  - intros [Hfp [s ->]]. cbn [pretty spell append].
    apply lexes_then; [apply lexes_function_name| |reflexivity].
    apply lexes_lparen.
    apply lexes_then; [now apply lexes_path| |reflexivity].
    apply lexes_comma.
    apply lexes_then; [now apply lexes_literal| |reflexivity].
    apply lexes_rparen, lexes_nil.
Qed.

Lemma tokenize_pretty (t : FilterNode) :
  well_formed t ->
  exists toks, tokenize (pretty t) = inr toks /\ map shape toks = spell t.
Proof.
  intros H. destruct (lexes_pretty t H 0 EmptyString I) as (toks & E & S1).
  exists toks. split; [|exact E].
  unfold tokenize. rewrite append_nil_r in S1. rewrite S1. simpl.
  now rewrite app_nil_r.
Qed.


(** ** Reading numerals back *)

Lemma split_digits (a : string) :
  all_chars Py.is_digit a = true -> Py.split "." a = [a].
Proof.
  induction a as [|c a IH]; [reflexivity|]. simpl. intros H.
  apply andb_true_iff in H as [Hc Ha].
  rewrite (digit_is_no_dot c Hc), (IH Ha). reflexivity.
Qed.

Lemma split_digits_dot (a b : string) :
  all_chars Py.is_digit a = true ->
  Py.split "." (a ++ String "." b) = a :: Py.split "." b.
Proof.
  induction a as [|c a IH]; [reflexivity|]. simpl. intros H.
  apply andb_true_iff in H as [Hc Ha].
  rewrite (digit_is_no_dot c Hc), (IH Ha). reflexivity.
Qed.

Lemma nonempty_digits_of_uint (u : Decimal.uint) :
  u <> Decimal.Nil -> nonempty_digits (NilEmpty.string_of_uint u) = Some u.
Proof.
  intros H. unfold nonempty_digits. rewrite NilEmpty.usu.
  destruct u; congruence.
Qed.

Lemma nonempty_digits_not_nil (s : string) (u : Decimal.uint) :
  nonempty_digits s = Some u -> u <> Decimal.Nil.
Proof.
  unfold nonempty_digits.
  destruct (NilEmpty.uint_of_string s) as [[]|]; congruence.
Qed.

Lemma unsigned_digit (c : ascii) (r : string) :
  Py.is_digit c = true ->
  match String c r with
  | String "-" r0 => (true, r0)
  | _ => (false, String c r)
  end = (false, String c r).
Proof. by_cases_on_char c. Qed.

Lemma decimal_of_string_of_decimal (d : decimal) :
  int_part d <> Decimal.Nil ->
  decimal_of_string (string_of_decimal d) = Some d.
Proof.
  intros Hd. rewrite string_of_decimal_eq. unfold decimal_of_string.
  destruct (first_digit_of_uint _ Hd) as (c & r & Ei & Hc & Hr).
  assert (Hbody :
    match Py.split "." (NilEmpty.string_of_uint (int_part d)
                        ++ fraction_text (frac_part d)) with
    | [i] =>
        match nonempty_digits i with
        | Some u => Some {| negative := negative d; int_part := u;
                            frac_part := Decimal.Nil |}
        | None => None
        end
    | [i; f] =>
        match nonempty_digits i, nonempty_digits f with
        | Some u, Some e => Some {| negative := negative d; int_part := u;
                                    frac_part := e |}
        | _, _ => None
        end
    | _ => None
    end = Some d).
  { destruct (Decimal.uint_eq_dec (frac_part d) Decimal.Nil) as [Ef|Hf].
    - rewrite Ef. cbn [fraction_text]. rewrite append_nil_r.
      rewrite split_digits by apply digits_of_uint.
      rewrite nonempty_digits_of_uint by exact Hd.
      destruct d; simpl in *; now subst.
    - assert (Etext : fraction_text (frac_part d)
                      = String "." (NilEmpty.string_of_uint (frac_part d))).
      { destruct (frac_part d); try congruence; reflexivity. }
      rewrite Etext, split_digits_dot by apply digits_of_uint.
      rewrite split_digits by apply digits_of_uint.
      rewrite !nonempty_digits_of_uint by assumption.
      now destruct d. }
  destruct (negative d) eqn:Eneg.
  - cbn [append]. exact Hbody.
  - cbn [append]. rewrite Ei in *. cbn [append] in *.
    rewrite (unsigned_digit c _ Hc). exact Hbody.
Qed.

(** ** Parsing the tokens that spell a tree *)

Lemma shape_eq (t : Token) (k : TokenKind) (s : string) :
  shape t = (k, s) -> kind t = k /\ text t = s.
Proof. unfold shape. now intros [= -> ->]. Qed.

Lemma literal_of_shape (l : Token) (v : Literal.t) :
  shape l = literal_shape v -> literal_ok v -> literal_of l = Some v.
Proof.
  intros Hs Hv. unfold literal_of.
  destruct v as [s|d|[]|]; apply shape_eq in Hs as [Hk Ht];
    rewrite Hk; try rewrite Ht; try reflexivity.
  simpl in Hv. now rewrite decimal_of_string_of_decimal.
Qed.

Lemma comparison_op_of_name (o : ComparisonOp.t) :
  comparison_op (comparison_op_name o) = Some o.
Proof. now destruct o. Qed.

Lemma function_name_of_text (f : FunctionName.t) :
  function_name (function_name_text f) = Some f.
Proof. now destruct f. Qed.

Lemma field_path_of_join (i : Token) (fp : list string) :
  text i = Py.join "/" fp -> path_ok fp -> field_path_of i = inr fp.
Proof.
  intros Ht (_ & _ & Hsplit & Hne). unfold field_path_of.
  now rewrite Ht, Hsplit, Hne.
Qed.

Lemma expect_kind (k : TokenKind) (message : string) (t : Token)
    (rest : list Token) :
  kind t = k ->
  k = LParen \/ k = Identifier \/ k = Comma \/ k = StringLiteral
  \/ k = RParen ->
  expect k message (t :: rest) = inr (t, rest).
Proof.
  intros Hk H. unfold expect. rewrite Hk.
  now destruct H as [->|[->|[->|[->| ->]]]].
Qed.

Lemma parse_comparison_spelled (fp : list string) (o : ComparisonOp.t)
    (v : Literal.t) (ts rest : list Token) (fuel : nat) :
  map shape ts = spell (Comparison fp o v) ->
  path_ok fp -> literal_ok v ->
  parse_unary (S fuel) (ts ++ rest) = Some (inr (Comparison fp o v, rest)).
Proof.
  intros Hs Hfp Hv. cbn [spell] in Hs.
  apply map_eq_cons in Hs. destruct Hs as (i & ts1 & -> & Hi & Hs).
  apply map_eq_cons in Hs. destruct Hs as (op & ts2 & -> & Ho & Hs).
  apply map_eq_cons in Hs. destruct Hs as (l & ts3 & -> & Hl & Hs).
  apply map_eq_nil in Hs. subst ts3.
  apply shape_eq in Hi as [Hik Hit]. apply shape_eq in Ho as [Hok Hot].
  cbn [app parse_unary]. rewrite Hik. cbn [parse_comparison].
  rewrite Hok, Hot, comparison_op_of_name.
  rewrite (field_path_of_join i fp Hit Hfp). cbn [parse_literal].
  now rewrite (literal_of_shape l v Hl Hv).
Qed.

Lemma parse_function_call_spelled (f : FunctionName.t) (fp : list string)
    (s : string) (ts rest : list Token) (fuel : nat) :
  map shape ts = spell (FunctionCall f fp (Literal.String s)) ->
  path_ok fp ->
  parse_unary (S fuel) (ts ++ rest)
  = Some (inr (FunctionCall f fp (Literal.String s), rest)).
Proof.
  intros Hs Hfp. cbn [spell literal_shape] in Hs.
  apply map_eq_cons in Hs. destruct Hs as (fn & ts1 & -> & Hfn & Hs).
  apply map_eq_cons in Hs. destruct Hs as (lp & ts2 & -> & Hlp & Hs).
  apply map_eq_cons in Hs. destruct Hs as (i & ts3 & -> & Hi & Hs).
  apply map_eq_cons in Hs. destruct Hs as (cm & ts4 & -> & Hcm & Hs).
  apply map_eq_cons in Hs. destruct Hs as (a & ts5 & -> & Ha & Hs).
  apply map_eq_cons in Hs. destruct Hs as (rp & ts6 & -> & Hrp & Hs).
  apply map_eq_nil in Hs. subst ts6.
  apply shape_eq in Hfn as [Hfnk Hfnt]. apply shape_eq in Hlp as [Hlpk _].
  apply shape_eq in Hi as [Hik Hit]. apply shape_eq in Hcm as [Hcmk _].
  apply shape_eq in Ha as [Hak Hat]. apply shape_eq in Hrp as [Hrpk _].
  cbn [app parse_unary]. rewrite Hfnk. unfold parse_function_call.
  rewrite Hfnt, function_name_of_text.
  rewrite (expect_kind LParen) by tauto. cbv beta iota.
  rewrite (expect_kind Identifier) by tauto. cbv beta iota.
  rewrite (expect_kind Comma) by tauto. cbv beta iota.
  rewrite (expect_kind StringLiteral) by tauto. cbv beta iota.
  rewrite (expect_kind RParen) by tauto. cbv beta iota.
  now rewrite (field_path_of_join i fp Hit Hfp), Hat.
Qed.

Lemma and_loop_stops (pu : list Token -> Parsed) (n : nat) (x : FilterNode)
    (rest : list Token) :
  stops rest -> and_loop pu n x rest = Some (inr (x, rest)).
Proof.
  destruct rest as [|t rest]; [destruct n; reflexivity|]. simpl. intros H.
  destruct n; cbn [and_loop]; unfold is_keyword; now rewrite H.
Qed.

Lemma or_loop_stops (pu : list Token -> Parsed) (n : nat) (x : FilterNode)
    (rest : list Token) :
  stops rest -> or_loop pu n x rest = Some (inr (x, rest)).
Proof.
  destruct rest as [|t rest]; [destruct n; reflexivity|]. simpl. intros H.
  destruct n; cbn [or_loop]; unfold is_keyword; now rewrite H.
Qed.

Lemma is_keyword_shape (word w : string) (t : Token) :
  shape t = (LogicalKeyword, w) ->
  is_keyword word t = String.eqb (Py.lower w) word.
Proof. intros H. apply shape_eq in H as [Hk Ht]. unfold is_keyword. now rewrite Hk, Ht. Qed.


(** The tokens that spell a tree parse to the tree: as an expression up
    to a stop, and, written as an operand, as a unary expression in any
    context. *)
Lemma parse_spelled (x : FilterNode) :
  well_formed x ->
  (forall ts rest fuel,
      map shape ts = spell x -> stops rest ->
      length (ts ++ rest) < fuel ->
      parse_or (parse_unary fuel) fuel (ts ++ rest) = Some (inr (x, rest)))
  /\ (forall ts rest fuel,
         map shape ts = parenthesize_tokens x (spell x) ->
         length (ts ++ rest) < fuel ->
         parse_unary fuel (ts ++ rest) = Some (inr (x, rest))).
Proof.
  induction x as [fp o v|o l IHl r IHr|o x IHx|f fp a]; cbn [well_formed].
  - (* comparison *)
    intros [Hfp Hv].
    assert (A : forall ts rest fuel,
               map shape ts = spell (Comparison fp o v) ->
               length (ts ++ rest) < fuel ->
               parse_unary fuel (ts ++ rest)
               = Some (inr (Comparison fp o v, rest))).
    { intros ts rest [|fuel] Hs Hlen; [lia|].
      now apply parse_comparison_spelled. }
    split; [|exact A].
    intros ts rest fuel Hs Hstop Hlen. unfold parse_or, parse_and.
    rewrite (A ts rest fuel Hs Hlen).
    cbv beta iota. rewrite and_loop_stops by exact Hstop. cbv beta iota.
        now rewrite or_loop_stops.
  - (* and, or *)
    intros [Hl Hr]. destruct (IHl Hl) as [_ Al]. destruct (IHr Hr) as [_ Ar].
    clear IHl IHr.
    assert (B : forall ts rest fuel,
               map shape ts = spell (Logical o l r) -> stops rest ->
               length (ts ++ rest) < fuel ->
               parse_or (parse_unary fuel) fuel (ts ++ rest)
               = Some (inr (Logical o l r, rest))).
    { intros ts rest fuel Hs Hstop Hlen. cbn [spell] in Hs.
      apply map_eq_app in Hs. destruct Hs as (tl & ts' & -> & Htl & Hs).
      apply map_eq_cons in Hs. destruct Hs as (k & tr & -> & Hk & Htr).
      rewrite <- app_assoc, <- app_comm_cons in *.
      rewrite length_app in Hlen. cbn [length] in Hlen.
      destruct fuel as [|n]; [lia|].
      unfold parse_or, parse_and.
      rewrite (Al tl (k :: tr ++ rest) (S n) Htl)
        by (rewrite length_app; cbn [length]; lia).
      destruct o; cbn [logical_op_name] in Hk.
      - cbn [and_loop]. rewrite (is_keyword_shape "and" "and" k Hk).
        change (Py.lower "and" =? "and")%string with true.
        cbv iota.
        rewrite (Ar tr rest (S n) Htr) by lia.
        cbv beta iota. rewrite and_loop_stops by exact Hstop. cbv beta iota.
        now rewrite or_loop_stops.
      - cbn [and_loop]. rewrite (is_keyword_shape "and" "or" k Hk).
        change (Py.lower "or" =? "and")%string with false. cbv iota.
        cbn [or_loop]. rewrite (is_keyword_shape "or" "or" k Hk).
        change (Py.lower "or" =? "or")%string with true. cbv iota.
        unfold parse_and.
        rewrite (Ar tr rest (S n) Htr) by lia.
        cbv beta iota. rewrite and_loop_stops by exact Hstop. cbv beta iota.
        now rewrite or_loop_stops. }
    split; [exact B|].
    intros ts rest fuel Hs Hlen. cbn [parenthesize_tokens] in Hs.
    apply map_eq_cons in Hs. destruct Hs as (lp & ts' & -> & Hlp & Hs).
    apply map_eq_app in Hs. destruct Hs as (tm & te & -> & Htm & Hs).
    apply map_eq_cons in Hs. destruct Hs as (rp & te' & -> & Hrp & Hs).
    apply map_eq_nil in Hs. subst te'.
    apply shape_eq in Hlp as [Hlpk _]. apply shape_eq in Hrp as [Hrpk _].
    destruct fuel as [|n]; [lia|].
    rewrite <- app_comm_cons, <- app_assoc in *. cbn [app] in *.
    cbn [parse_unary]. rewrite Hlpk.
    rewrite (B tm (rp :: rest) n Htm) by (auto; cbn [length] in Hlen; lia).
    now rewrite (expect_kind RParen) by tauto.
  - (* not *)
    intros Hx. destruct (IHx Hx) as [_ Ax]. clear IHx.
    assert (U : forall ts rest fuel,
               map shape ts = spell (Unary o x) ->
               length (ts ++ rest) < fuel ->
               parse_unary fuel (ts ++ rest)
               = Some (inr (Unary o x, rest))).
    { intros ts rest fuel Hs Hlen. cbn [spell] in Hs.
      apply map_eq_cons in Hs. destruct Hs as (k & tx & -> & Hk & Htx).
      destruct fuel as [|n]; [lia|].
      rewrite <- app_comm_cons in *. cbn [length] in Hlen.
      cbn [parse_unary]. rewrite (is_keyword_shape "not" "not" k Hk).
      apply shape_eq in Hk as [Hkk _]. rewrite Hkk.
      change (Py.lower "not" =? "not")%string with true. cbv iota.
      rewrite (Ax tx rest n Htx) by lia. now destruct o. }
    assert (B : forall ts rest fuel,
               map shape ts = spell (Unary o x) -> stops rest ->
               length (ts ++ rest) < fuel ->
               parse_or (parse_unary fuel) fuel (ts ++ rest)
               = Some (inr (Unary o x, rest))).
    { intros ts rest fuel Hs Hstop Hlen. unfold parse_or, parse_and.
      rewrite (U ts rest fuel Hs Hlen).
      cbv beta iota. rewrite and_loop_stops by exact Hstop. cbv beta iota.
        now rewrite or_loop_stops. }
    split; [exact B|].
    intros ts rest fuel Hs Hlen. cbn [parenthesize_tokens] in Hs.
    apply map_eq_cons in Hs. destruct Hs as (lp & ts' & -> & Hlp & Hs).
    apply map_eq_app in Hs. destruct Hs as (tm & te & -> & Htm & Hs).
    apply map_eq_cons in Hs. destruct Hs as (rp & te' & -> & Hrp & Hs).
    apply map_eq_nil in Hs. subst te'.
    apply shape_eq in Hlp as [Hlpk _]. apply shape_eq in Hrp as [Hrpk _].
    destruct fuel as [|n]; [lia|].
    rewrite <- app_comm_cons, <- app_assoc in *. cbn [app] in *.
    cbn [parse_unary]. rewrite Hlpk.
    rewrite (B tm (rp :: rest) n Htm) by (auto; cbn [length] in Hlen; lia).
    now rewrite (expect_kind RParen) by tauto.
  - (* function call *)
    intros [Hfp [s ->]].
    assert (A : forall ts rest fuel,
               map shape ts = spell (FunctionCall f fp (Literal.String s)) ->
               length (ts ++ rest) < fuel ->
               parse_unary fuel (ts ++ rest)
               = Some (inr (FunctionCall f fp (Literal.String s), rest))).
    { intros ts rest [|fuel] Hs Hlen; [lia|].
      now apply parse_function_call_spelled. }
    split; [|exact A].
    intros ts rest fuel Hs Hstop Hlen. unfold parse_or, parse_and.
    rewrite (A ts rest fuel Hs Hlen).
    cbv beta iota. rewrite and_loop_stops by exact Hstop. cbv beta iota.
        now rewrite or_loop_stops.
Qed.

Lemma parse_tokens_spelled (x : FilterNode) (ts : list Token) :
  well_formed x -> map shape ts = spell x -> parse_tokens ts = inr x.
Proof.
  intros Hx Hs. destruct (parse_spelled x Hx) as [B _].
  unfold parse_tokens, parse_expression.
  specialize (B ts [] (S (length ts)) Hs I).
  rewrite app_nil_r in B. rewrite B by lia. reflexivity.
Qed.

(** Every well-formed tree is read back from its printed form. *)
Lemma parse_pretty (x : FilterNode) :
  well_formed x -> parse (pretty x) = inr x.
Proof.
  intros Hx. destruct (tokenize_pretty x Hx) as (toks & Htok & Hs).
  unfold parse. rewrite Htok. now apply parse_tokens_spelled.
Qed.


(** ** What the tokenizer and the parser produce *)

Lemma all_chars_snoc (p : ascii -> bool) (s : string) (c : ascii) :
  all_chars p s = true -> p c = true -> all_chars p (snoc s c) = true.
Proof.
  intros Hs Hc. unfold snoc. induction s as [|d s IH]; simpl in *.
  - now rewrite Hc.
  - apply andb_true_iff in Hs as [Hd Hs]. now rewrite Hd, IH.
Qed.

Lemma word_shape_snoc (w : string) (c : ascii) :
  word_shape w = true -> is_word_char c = true ->
  word_shape (snoc w c) = true.
Proof.
  destruct w as [|d w]; [discriminate|]. simpl. intros H Hc.
  apply andb_true_iff in H as [Hd Hw].
  rewrite Hd. now apply all_chars_snoc.
Qed.

Lemma word_token_ok (w : string) (start : nat) :
  word_shape w = true -> token_ok (token (word_kind w) w start).
Proof. intros Hw Hk. simpl in *. auto. Qed.

Lemma other_token_ok (k : TokenKind) (s : string) (start : nat) :
  k <> Identifier -> token_ok (token k s start).
Proof. intros Hk H. simpl in H. congruence. Qed.

Lemma start_token_ok (pos : nat) (c : ascii) (toks : list Token)
    (st : LexState) :
  start_token pos c = inr (toks, st) -> Forall token_ok toks /\ state_ok st.
Proof.
  unfold start_token.
  repeat match goal with
         | |- context [if ?b then _ else _] => destruct b eqn:?
         end;
    intros [= <- <-]; simpl; repeat constructor;
    try (apply other_token_ok; discriminate).
  now rewrite andb_true_r.
Qed.

Lemma then_start_ok (pos : nat) (c : ascii) (done : Token)
    (toks : list Token) (st : LexState) :
  token_ok done ->
  match start_token pos c with
  | inr (toks0, st0) => inr (done :: toks0, st0)
  | inl e => inl e
  end = inr (toks, st) ->
  Forall token_ok toks /\ state_ok st.
Proof.
  intros Hdone.
  destruct (start_token pos c) as [e|[toks0 st0]] eqn:Estart; [discriminate|].
  intros [= <- <-]. apply start_token_ok in Estart as [Htoks Hst].
  split; [now constructor|exact Hst].
Qed.

Lemma step_ok (st : LexState) (pos : nat) (c : ascii) (toks : list Token)
    (st' : LexState) :
  state_ok st -> step st pos c = inr (toks, st') ->
  Forall token_ok toks /\ state_ok st'.
Proof.
  intros Hst. destruct st; cbn [step]; simpl in Hst.
  - apply start_token_ok.
  - destruct (is_word_char c) eqn:Hc.
    + intros [= <- <-]. split; [constructor|]. simpl.
      now apply word_shape_snoc.
    + apply then_start_ok. now apply word_token_ok.
  - destruct (Ascii.eqb c "'"); intros [= <- <-]; now split.
  - destruct (Ascii.eqb c "'"); [intros [= <- <-]; now split|].
    apply then_start_ok. apply other_token_ok. discriminate.
  - destruct (Py.is_digit c); [|discriminate]. intros [= <- <-]. now split.
  - destruct (Py.is_digit c); [intros [= <- <-]; now split|].
    destruct (Ascii.eqb c "."); [intros [= <- <-]; now split|].
    apply then_start_ok. apply other_token_ok. discriminate.
  - destruct (Py.is_digit c); [|discriminate]. intros [= <- <-]. now split.
  - destruct (Py.is_digit c); [intros [= <- <-]; now split|].
    apply then_start_ok. apply other_token_ok. discriminate.
Qed.

Lemma scan_ok (s : string) :
  forall st pos toks,
    state_ok st -> scan st pos s = inr toks -> Forall token_ok toks.
Proof.
  induction s as [|c s IH]; intros st pos toks Hst.
  - cbn [scan]. destruct st; simpl in *; intros [= <-]; repeat constructor;
      first [now apply word_token_ok | apply other_token_ok; discriminate].
  - rewrite scan_cons.
    destruct (step st pos c) as [e|[toks0 st']] eqn:Estep; [discriminate|].
    apply (step_ok st pos c toks0 st' Hst) in Estep as [H0 Hst'].
    destruct (scan st' (S pos) s) as [e|toks1] eqn:Escan; [discriminate|].
    simpl. intros [= <-]. apply Forall_app. split; [exact H0|].
    now apply (IH st' (S pos)).
Qed.

Lemma join_split (sep : ascii) (s : string) :
  Py.join sep (Py.split sep s) = s.
Proof.
  induction s as [|c s IH]; [reflexivity|]. cbn [Py.split].
  pose proof (PyFacts.split_nonempty sep s) as Hne.
  destruct (Ascii.eqb_spec c sep) as [->|Hc].
  - destruct (Py.split sep s) as [|h t]; [congruence|].
    cbn [Py.join append] in *. now rewrite IH.
  - destruct (Py.split sep s) as [|h t]; [congruence|].
    destruct t; cbn [Py.join append] in *; now rewrite IH.
Qed.

Lemma field_path_ok (i : Token) (fp : list string) :
  token_ok i -> kind i = Identifier -> field_path_of i = inr fp -> path_ok fp.
Proof.
  intros Hok Hk. destruct (Hok Hk) as [Hshape Hkind]. unfold field_path_of.
  destruct (existsb (String.eqb EmptyString) (Py.split "/" (text i))) eqn:E;
    [discriminate|].
  intros [= <-]. unfold path_ok. rewrite join_split. auto.
Qed.

Lemma decimal_of_string_ok (s : string) (d : decimal) :
  decimal_of_string s = Some d -> int_part d <> Decimal.Nil.
Proof.
  unfold decimal_of_string.
  destruct (match s with
            | String "-" r => (true, r)
            | _ => (false, s)
            end) as [neg body].
  destruct (Py.split "." body) as [|i [|f [|]]]; try discriminate.
  - destruct (nonempty_digits i) eqn:E; [|discriminate].
    intros [= <-]. simpl. now apply nonempty_digits_not_nil in E.
  - destruct (nonempty_digits i) eqn:E; [|discriminate].
    destruct (nonempty_digits f); [|discriminate].
    intros [= <-]. simpl. now apply nonempty_digits_not_nil in E.
Qed.

Lemma parse_literal_ok (ts : list Token) (v : Literal.t) (rest : list Token) :
  parse_literal ts = inr (v, rest) ->
  literal_ok v /\ exists t, ts = t :: rest.
Proof.
  destruct ts as [|t ts]; [discriminate|]. cbn [parse_literal].
  destruct (literal_of t) as [v'|] eqn:E; [|discriminate].
  intros [= <- <-]. split; [|now exists t].
  unfold literal_of in E. destruct (kind t); try discriminate;
    try (injection E as <-; exact I).
  destruct (decimal_of_string (text t)) eqn:Ed; [|discriminate].
  injection E as <-. simpl. now apply decimal_of_string_ok in Ed.
Qed.


Lemma expect_ok (k : TokenKind) (message : string) (ts : list Token)
    (t : Token) (rest : list Token) :
  expect k message ts = inr (t, rest) -> ts = t :: rest /\ kind t = k.
Proof.
  destruct ts as [|t0 ts]; [discriminate|]. cbn [expect].
  destruct (kind t0) eqn:Ek, k; try discriminate; intros [= <- <-]; auto.
Qed.

Lemma Forall_tail {A} (P : A -> Prop) (x : A) (l : list A) :
  Forall P (x :: l) -> Forall P l.
Proof. now inversion 1. Qed.

Lemma Forall_head {A} (P : A -> Prop) (x : A) (l : list A) :
  Forall P (x :: l) -> P x.
Proof. now inversion 1. Qed.

Lemma parse_comparison_ok (i : Token) (ts : list Token) (x : FilterNode)
    (rest : list Token) :
  token_ok i -> kind i = Identifier -> Forall token_ok ts ->
  parse_comparison i ts = inr (x, rest) ->
  well_formed x /\ Forall token_ok rest.
Proof.
  intros Hi Hk Hts. unfold parse_comparison.
  destruct ts as [|op ts]; [discriminate|].
  destruct (kind op); try discriminate.
  destruct (comparison_op (text op)) as [o|]; [|discriminate].
  destruct (field_path_of i) as [e|fp] eqn:Efp; [discriminate|].
  destruct (parse_literal ts) as [e|[v rest']] eqn:El; [discriminate|].
  intros [= <- <-]. apply parse_literal_ok in El as [Hv [t ->]].
  apply Forall_tail, Forall_tail in Hts.
  split; [|exact Hts]. split; [|exact Hv].
  now apply (field_path_ok i).
Qed.

Lemma parse_function_call_ok (fn : Token) (ts : list Token) (x : FilterNode)
    (rest : list Token) :
  Forall token_ok ts ->
  parse_function_call fn ts = inr (x, rest) ->
  well_formed x /\ Forall token_ok rest.
Proof.
  intros Hts. unfold parse_function_call.
  destruct (function_name (text fn)) as [name|]; [|discriminate].
  destruct (expect LParen _ ts) as [e|[t1 ts1]] eqn:E1; [discriminate|].
  destruct (expect Identifier _ ts1) as [e|[field ts2]] eqn:E2;
    [discriminate|].
  destruct (expect Comma _ ts2) as [e|[t3 ts3]] eqn:E3; [discriminate|].
  destruct (expect StringLiteral _ ts3) as [e|[arg ts4]] eqn:E4;
    [discriminate|].
  destruct (expect RParen _ ts4) as [e|[t5 ts5]] eqn:E5; [discriminate|].
  destruct (field_path_of field) as [e|fp] eqn:Efp; [discriminate|].
  intros [= <- <-].
  apply expect_ok in E1 as [-> _]. apply expect_ok in E2 as [-> Hfield].
  apply expect_ok in E3 as [-> _]. apply expect_ok in E4 as [-> _].
  apply expect_ok in E5 as [-> _].
  apply Forall_tail in Hts. pose proof (Forall_head _ _ _ Hts) as Hf.
  do 4 apply Forall_tail in Hts.
  split; [|exact Hts]. split; [|now exists (text arg)].
  now apply (field_path_ok field).
Qed.

Section LevelsSound.

Variable pu : list Token -> Parsed.
Hypothesis pu_sound : sound pu.

Lemma and_loop_ok (n : nat) :
  forall lhs ts x rest,
    well_formed lhs -> Forall token_ok ts ->
    and_loop pu n lhs ts = Some (inr (x, rest)) ->
    well_formed x /\ Forall token_ok rest.
Proof.
  induction n as [|n IH]; intros lhs ts x rest Hl Hts;
    (destruct ts as [|t ts]; cbn [and_loop]; [now intros [= <- <-]|]);
    (destruct (is_keyword "and" t); [|now intros [= <- <-]]).
  - discriminate.
  - destruct (pu ts) as [[e|[rhs rest']]|] eqn:E; try discriminate.
    apply pu_sound in E as [Hr Hrest]; [|now apply Forall_tail in Hts].
    apply IH; [now split|exact Hrest].
Qed.

Lemma parse_and_ok (n : nat) : sound (parse_and pu n).
Proof.
  intros ts x rest Hts. unfold parse_and.
  destruct (pu ts) as [[e|[lhs rest']]|] eqn:E; try discriminate.
  apply pu_sound in E as [Hl Hrest]; [|exact Hts].
  now apply and_loop_ok.
Qed.

Lemma or_loop_ok (n : nat) :
  forall lhs ts x rest,
    well_formed lhs -> Forall token_ok ts ->
    or_loop pu n lhs ts = Some (inr (x, rest)) ->
    well_formed x /\ Forall token_ok rest.
Proof.
  induction n as [|n IH]; intros lhs ts x rest Hl Hts;
    (destruct ts as [|t ts]; cbn [or_loop]; [now intros [= <- <-]|]);
    (destruct (is_keyword "or" t); [|now intros [= <- <-]]).
  - discriminate.
  - destruct (parse_and pu n ts) as [[e|[rhs rest']]|] eqn:E;
      try discriminate.
    apply parse_and_ok in E as [Hr Hrest]; [|now apply Forall_tail in Hts].
    apply IH; [now split|exact Hrest].
Qed.

Lemma parse_or_ok (n : nat) : sound (parse_or pu n).
Proof.
  intros ts x rest Hts. unfold parse_or.
  destruct (parse_and pu n ts) as [[e|[lhs rest']]|] eqn:E; try discriminate.
  apply parse_and_ok in E as [Hl Hrest]; [|exact Hts].
  now apply or_loop_ok.
Qed.

End LevelsSound.

Lemma parse_unary_ok (fuel : nat) : sound (parse_unary fuel).
Proof.
  induction fuel as [|fuel IH]; intros ts x rest Hts; [discriminate|].
  cbn [parse_unary]. destruct ts as [|t ts]; [discriminate|].
  pose proof (Forall_head _ _ _ Hts) as Ht. apply Forall_tail in Hts.
  destruct (kind t) eqn:Ek; try discriminate.
  - intros [= E]. now apply (parse_comparison_ok t ts).
  - destruct (is_keyword "not" t); [|discriminate].
    destruct (parse_unary fuel ts) as [[e|[y rest']]|] eqn:E;
      try discriminate.
    intros [= <- <-]. now apply IH in E.
  - intros [= E]. now apply (parse_function_call_ok t ts).
  - destruct (parse_or (parse_unary fuel) fuel ts) as [[e|[y rest']]|] eqn:E;
      try discriminate.
    apply (parse_or_ok _ IH) in E as [Hy Hrest]; [|exact Hts].
    destruct (expect RParen _ rest') as [e|[rp rest'']] eqn:Ep.
    + destruct e as [m p|m [p|]]; discriminate.
    + intros [= <- <-]. apply expect_ok in Ep as [-> _].
      split; [exact Hy|now apply Forall_tail in Hrest].
Qed.

Lemma parse_tokens_ok (ts : list Token) (x : FilterNode) :
  Forall token_ok ts -> parse_tokens ts = inr x -> well_formed x.
Proof.
  intros Hts. unfold parse_tokens, parse_expression.
  destruct (parse_or (parse_unary (S (length ts))) (S (length ts)) ts)
    as [[e|[y [|extra rest]]]|] eqn:E; try discriminate.
  intros [= <-].
  now apply (parse_or_ok _ (parse_unary_ok _)) in E as [Hy _].
Qed.

(** Every tree that [parse] returns is well formed. *)
Lemma parse_well_formed (s : string) (x : FilterNode) :
  parse s = inr x -> well_formed x.
Proof.
  unfold parse, tokenize.
  destruct (scan Idle 0 s) as [e|ts] eqn:E; [discriminate|].
  apply scan_ok in E; [|exact I]. now apply parse_tokens_ok.
Qed.


(** ** Errors are typed *)

Lemma start_token_error (pos : nat) (c : ascii) (e : Error) :
  start_token pos c = inl e -> is_lex_error e.
Proof.
  unfold start_token.
  repeat match goal with
         | |- context [if ?b then _ else _] => destruct b
         end; try discriminate.
  now intros [= <-].
Qed.

Lemma step_error (st : LexState) (pos : nat) (c : ascii) (e : Error) :
  step st pos c = inl e -> is_lex_error e.
Proof.
  destruct st; cbn [step];
    repeat match goal with
           | |- context [if ?b then _ else _] => destruct b
           end; try discriminate;
    try apply start_token_error;
    try (destruct (start_token pos c) as [e0|[? ?]] eqn:E; [|discriminate];
         intros [= <-]; now apply start_token_error in E);
    now intros [= <-].
Qed.

Lemma scan_error (s : string) :
  forall st pos e, scan st pos s = inl e -> is_lex_error e.
Proof.
  induction s as [|c s IH]; intros st pos e.
  - cbn [scan]. destruct st; simpl; try discriminate; now intros [= <-].
  - rewrite scan_cons.
    destruct (step st pos c) as [e0|[toks st']] eqn:Estep.
    + intros [= <-]. now apply step_error in Estep.
    + destruct (scan st' (S pos) s) as [e1|toks1] eqn:Escan; [|discriminate].
      simpl. intros [= <-]. now apply IH in Escan.
Qed.

Lemma expect_error (k : TokenKind) (message : string) (ts : list Token)
    (e : Error) :
  expect k message ts = inl e -> is_syntax_error e.
Proof.
  destruct ts as [|t ts]; cbn [expect]; [now intros [= <-]|].
  match goal with |- context [if ?b then _ else _] => destruct b end;
    [discriminate|now intros [= <-]].
Qed.

Lemma field_path_of_error (t : Token) (e : Error) :
  field_path_of t = inl e -> is_syntax_error e.
Proof.
  unfold field_path_of.
  destruct (existsb _ _); [now intros [= <-]|discriminate].
Qed.

Lemma parse_literal_error (ts : list Token) (e : Error) :
  parse_literal ts = inl e -> is_syntax_error e.
Proof.
  destruct ts as [|t ts]; cbn [parse_literal]; [now intros [= <-]|].
  destruct (literal_of t); [discriminate|now intros [= <-]].
Qed.

Lemma parse_comparison_error (i : Token) (ts : list Token) (e : Error) :
  parse_comparison i ts = inl e -> is_syntax_error e.
Proof.
  unfold parse_comparison. destruct ts as [|op ts]; [now intros [= <-]|].
  destruct (kind op); try now intros [= <-].
  destruct (comparison_op (text op)); [|now intros [= <-]].
  destruct (field_path_of i) eqn:Ef;
    [intros [= <-]; now apply field_path_of_error in Ef|].
  destruct (parse_literal ts) as [e0|[v rest]] eqn:El; [|discriminate].
  intros [= <-]. now apply parse_literal_error in El.
Qed.

Lemma parse_function_call_error (fn : Token) (ts : list Token) (e : Error) :
  parse_function_call fn ts = inl e -> is_syntax_error e.
Proof.
  unfold parse_function_call.
  destruct (function_name (text fn)); [|now intros [= <-]].
  repeat match goal with
         | |- context [match expect ?k ?m ?l with _ => _ end] =>
             let E := fresh "E" in
             destruct (expect k m l) as [?|[? ?]] eqn:E;
             [intros [= <-]; now apply expect_error in E|]
         end.
  destruct (field_path_of _) eqn:Ef; [|discriminate].
  intros [= <-]. now apply field_path_of_error in Ef.
Qed.

Section LevelsTyped.

Variable pu : list Token -> Parsed.
Hypothesis pu_typed : typed pu.

Lemma and_loop_error (n : nat) :
  forall lhs ts e, and_loop pu n lhs ts = Some (inl e) -> is_syntax_error e.
Proof.
  induction n as [|n IH]; intros lhs ts e;
    (destruct ts as [|t ts]; cbn [and_loop]; [discriminate|]);
    (destruct (is_keyword "and" t); [|discriminate]).
  - discriminate.
  - destruct (pu ts) as [[e0|[rhs rest']]|] eqn:E; try discriminate.
    + intros [= <-]. now apply pu_typed in E.
    + apply IH.
Qed.

Lemma parse_and_error (n : nat) : typed (parse_and pu n).
Proof.
  intros ts e. unfold parse_and.
  destruct (pu ts) as [[e0|[lhs rest']]|] eqn:E; try discriminate.
  - intros [= <-]. now apply pu_typed in E.
  - apply and_loop_error.
Qed.

Lemma or_loop_error (n : nat) :
  forall lhs ts e, or_loop pu n lhs ts = Some (inl e) -> is_syntax_error e.
Proof.
  induction n as [|n IH]; intros lhs ts e;
    (destruct ts as [|t ts]; cbn [or_loop]; [discriminate|]);
    (destruct (is_keyword "or" t); [|discriminate]).
  - discriminate.
  - destruct (parse_and pu n ts) as [[e0|[rhs rest']]|] eqn:E;
      try discriminate.
    + intros [= <-]. now apply parse_and_error in E.
    + apply IH.
Qed.

Lemma parse_or_error (n : nat) : typed (parse_or pu n).
Proof.
  intros ts e. unfold parse_or.
  destruct (parse_and pu n ts) as [[e0|[lhs rest']]|] eqn:E; try discriminate.
  - intros [= <-]. now apply parse_and_error in E.
  - apply or_loop_error.
Qed.

End LevelsTyped.

Lemma parse_unary_error (fuel : nat) : typed (parse_unary fuel).
Proof.
  induction fuel as [|fuel IH]; intros ts e; [discriminate|].
  cbn [parse_unary]. destruct ts as [|t ts]; [now intros [= <-]|].
  destruct (kind t); try now intros [= <-].
  - intros [= E]. now apply parse_comparison_error in E.
  - destruct (is_keyword "not" t); [|now intros [= <-]].
    destruct (parse_unary fuel ts) as [[e0|[y rest']]|] eqn:E;
      try discriminate.
    intros [= <-]. now apply IH in E.
  - intros [= E]. now apply parse_function_call_error in E.
  - destruct (parse_or (parse_unary fuel) fuel ts) as [[e0|[y rest']]|] eqn:E;
      try discriminate.
    + intros [= <-]. now apply (parse_or_error _ IH) in E.
    + destruct (expect RParen _ rest') as [e0|[rp rest'']] eqn:Ep;
        [|discriminate].
      apply expect_error in Ep.
      destruct e0 as [m p|m [p|]]; intros [= <-]; exact Ep.
Qed.

Lemma parse_tokens_error (ts : list Token) (e : Error) :
  parse_tokens ts = inl e -> is_syntax_error e.
Proof.
  unfold parse_tokens, parse_expression.
  destruct (parse_or (parse_unary (S (length ts))) (S (length ts)) ts)
    as [[e0|[y [|extra rest]]]|] eqn:E; try discriminate;
    try now intros [= <-].
  intros [= <-]. now apply (parse_or_error _ (parse_unary_error _)) in E.
Qed.


(** ** The recursion budget is enough *)

Lemma parse_comparison_consumes (i : Token) (ts : list Token)
    (x : FilterNode) (rest : list Token) :
  parse_comparison i ts = inr (x, rest) -> length rest < length ts.
Proof.
  unfold parse_comparison. destruct ts as [|op ts]; [discriminate|].
  destruct (kind op); try discriminate.
  destruct (comparison_op (text op)) as [o|]; [|discriminate].
  destruct (field_path_of i) as [e|fp]; [discriminate|].
  destruct (parse_literal ts) as [e|[v rest']] eqn:El; [discriminate|].
  intros [= <- <-]. apply parse_literal_ok in El as [_ [t ->]]. simpl. lia.
Qed.

Lemma parse_function_call_consumes (fn : Token) (ts : list Token)
    (x : FilterNode) (rest : list Token) :
  parse_function_call fn ts = inr (x, rest) -> length rest < length ts.
Proof.
  unfold parse_function_call.
  destruct (function_name (text fn)); [|discriminate].
  repeat match goal with
         | |- context [match expect ?k ?m ?l with _ => _ end] =>
             let E := fresh "E" in
             destruct (expect k m l) as [?|[? ?]] eqn:E; [discriminate|];
             apply expect_ok in E as [-> _]
         end.
  destruct (field_path_of _); [discriminate|].
  intros [= <- <-]. simpl. lia.
Qed.

Section LevelsTotal.

Variable pu : list Token -> Parsed.
Variable b : nat.
Hypothesis pu_total : total_below pu b.

Lemma and_loop_total (n : nat) :
  forall lhs ts,
    length ts < b -> length ts <= n ->
    exists r, and_loop pu n lhs ts = Some r
              /\ forall x rest, r = inr (x, rest) -> length rest <= length ts.
Proof.
  induction n as [|n IH]; intros lhs ts Hb Hn;
    (destruct ts as [|t ts]; cbn [and_loop];
     [eexists; split; [reflexivity|]; now intros x rest [= <- <-]|]);
    (destruct (is_keyword "and" t);
     [|eexists; split; [reflexivity|]; now intros x rest [= <- <-]]).
  - simpl in Hn. lia.
  - simpl in Hb, Hn.
    destruct (pu_total ts) as (r & -> & Hr); [lia|].
    destruct r as [e|[rhs rest']].
    + eexists. split; [reflexivity|]. discriminate.
    + specialize (Hr rhs rest' eq_refl).
      destruct (IH (Logical LogicalOp.and lhs rhs) rest') as (r & -> & Hr');
        [lia|lia|].
      eexists. split; [reflexivity|]. intros x rest E.
      specialize (Hr' x rest E). simpl. lia.
Qed.

Lemma parse_and_total (n : nat) (ts : list Token) :
  length ts < b -> length ts <= n ->
  exists r, parse_and pu n ts = Some r
            /\ forall x rest, r = inr (x, rest) -> length rest < length ts.
Proof.
  intros Hb Hn. unfold parse_and.
  destruct (pu_total ts Hb) as (r & -> & Hr).
  destruct r as [e|[lhs rest']].
  - eexists. split; [reflexivity|]. discriminate.
  - specialize (Hr lhs rest' eq_refl).
    destruct (and_loop_total n lhs rest') as (r & -> & Hr'); [lia|lia|].
    eexists. split; [reflexivity|]. intros x rest E.
    specialize (Hr' x rest E). lia.
Qed.

Lemma or_loop_total (n : nat) :
  forall lhs ts,
    length ts < b -> length ts <= n ->
    exists r, or_loop pu n lhs ts = Some r
              /\ forall x rest, r = inr (x, rest) -> length rest <= length ts.
Proof.
  induction n as [|n IH]; intros lhs ts Hb Hn;
    (destruct ts as [|t ts]; cbn [or_loop];
     [eexists; split; [reflexivity|]; now intros x rest [= <- <-]|]);
    (destruct (is_keyword "or" t);
     [|eexists; split; [reflexivity|]; now intros x rest [= <- <-]]).
  - simpl in Hn. lia.
  - simpl in Hb, Hn.
    destruct (parse_and_total n ts) as (r & -> & Hr); [lia|lia|].
    destruct r as [e|[rhs rest']].
    + eexists. split; [reflexivity|]. discriminate.
    + specialize (Hr rhs rest' eq_refl).
      destruct (IH (Logical LogicalOp.or lhs rhs) rest') as (r & -> & Hr');
        [lia|lia|].
      eexists. split; [reflexivity|]. intros x rest E.
      specialize (Hr' x rest E). simpl. lia.
Qed.

Lemma parse_or_total (n : nat) (ts : list Token) :
  length ts < b -> length ts <= n ->
  exists r, parse_or pu n ts = Some r
            /\ forall x rest, r = inr (x, rest) -> length rest < length ts.
Proof.
  intros Hb Hn. unfold parse_or.
  destruct (parse_and_total n ts Hb Hn) as (r & -> & Hr).
  destruct r as [e|[lhs rest']].
  - eexists. split; [reflexivity|]. discriminate.
  - specialize (Hr lhs rest' eq_refl).
    destruct (or_loop_total n lhs rest') as (r & -> & Hr'); [lia|lia|].
    eexists. split; [reflexivity|]. intros x rest E.
    specialize (Hr' x rest E). lia.
Qed.

End LevelsTotal.

Lemma parse_unary_total (fuel : nat) : total_below (parse_unary fuel) fuel.
Proof.
  induction fuel as [|fuel IH]; intros ts Hlen; [lia|].
  cbn [parse_unary]. destruct ts as [|t ts].
  { eexists. split; [reflexivity|]. discriminate. }
  simpl in Hlen.
  destruct (kind t);
    try (eexists; split; [reflexivity|]; discriminate).
  - eexists. split; [reflexivity|]. intros x rest [= E].
    apply parse_comparison_consumes in E. simpl. lia.
  - destruct (is_keyword "not" t);
      [|eexists; split; [reflexivity|]; discriminate].
    destruct (IH ts) as (r & -> & Hr); [lia|].
    destruct r as [e|[y rest']].
    + eexists. split; [reflexivity|]. discriminate.
    + eexists. split; [reflexivity|]. intros x rest [= <- <-].
      specialize (Hr y rest' eq_refl). simpl. lia.
  - eexists. split; [reflexivity|]. intros x rest [= E].
    apply parse_function_call_consumes in E. simpl. lia.
  - destruct (parse_or_total (parse_unary fuel) fuel IH fuel ts)
      as (r & -> & Hr); [lia|lia|].
    destruct r as [e|[y rest']].
    + eexists. split; [reflexivity|]. discriminate.
    + specialize (Hr y rest' eq_refl).
      destruct (expect RParen _ rest') as [e|[rp rest'']] eqn:Ep.
      * destruct e as [m p|m [p|]]; eexists; (split; [reflexivity|]);
          discriminate.
      * apply expect_ok in Ep as [-> _].
        eexists. split; [reflexivity|]. intros x rest [= <- <-].
        simpl in *. lia.
Qed.

(** [parse_tokens] never uses up its budget. *)
Lemma parse_tokens_budget (ts : list Token) :
  parse_expression (S (length ts)) ts <> None.
Proof.
  unfold parse_expression.
  destruct (parse_or_total (parse_unary (S (length ts))) (S (length ts))
              (parse_unary_total _) (S (length ts)) ts) as (r & -> & _);
    [lia|lia|discriminate].
Qed.


(** ** Precedence and associativity *)

Lemma parse_of_lexes (s : string) (ks : list (TokenKind * string))
    (r : Error + FilterNode) :
  lexes s ks ->
  (forall toks, map shape toks = ks -> parse_tokens toks = r) ->
  parse s = r.
Proof.
  intros Hl Hp. destruct (Hl 0 EmptyString I) as (toks & Hs & Hscan).
  unfold parse, tokenize. rewrite append_nil_r in Hscan. rewrite Hscan.
  simpl. rewrite app_nil_r. now apply Hp.
Qed.

Lemma lexes_operand (x : FilterNode) :
  well_formed x -> lexes (operand x) (parenthesize_tokens x (spell x)).
Proof. intros H. now apply lexes_parenthesize, lexes_pretty. Qed.

(** [a w b]: two phrases around a keyword. *)
Lemma lexes_infix (a w b : string) (ka kb : list (TokenKind * string)) :
  word_shape w = true -> lexes a ka -> lexes b kb ->
  lexes (a ++ String " " (w ++ String " " b)) (ka ++ (word_kind w, w) :: kb).
Proof.
  intros Hw Ha Hb. apply lexes_compose; [exact Ha| |reflexivity].
  apply lexes_space. apply lexes_then; [now apply lexes_word| |reflexivity].
  now apply lexes_space.
Qed.

Lemma parse_operand (x : FilterNode) (ts rest : list Token) (fuel : nat) :
  well_formed x ->
  map shape ts = parenthesize_tokens x (spell x) ->
  length (ts ++ rest) < fuel ->
  parse_unary fuel (ts ++ rest) = Some (inr (x, rest)).
Proof. intros Hx. destruct (parse_spelled x Hx) as [_ A]. apply A. Qed.

Lemma and_loop_and (pu : list Token -> Parsed) (n : nat) (lhs : FilterNode)
    (k : Token) (ts : list Token) :
  shape k = (LogicalKeyword, "and") ->
  and_loop pu (S n) lhs (k :: ts) =
  match pu ts with
  | Some (inr (rhs, rest)) => and_loop pu n (Logical LogicalOp.and lhs rhs) rest
  | other => other
  end.
Proof. intros Hk. cbn [and_loop]. now rewrite (is_keyword_shape _ _ k Hk). Qed.

Lemma and_loop_or (pu : list Token -> Parsed) (n : nat) (lhs : FilterNode)
    (k : Token) (ts : list Token) :
  shape k = (LogicalKeyword, "or") ->
  and_loop pu n lhs (k :: ts) = Some (inr (lhs, k :: ts)).
Proof.
  intros Hk. destruct n; cbn [and_loop];
    now rewrite (is_keyword_shape _ _ k Hk).
Qed.

Lemma or_loop_or (pu : list Token -> Parsed) (n : nat) (lhs : FilterNode)
    (k : Token) (ts : list Token) :
  shape k = (LogicalKeyword, "or") ->
  or_loop pu (S n) lhs (k :: ts) =
  match parse_and pu n ts with
  | Some (inr (rhs, rest)) => or_loop pu n (Logical LogicalOp.or lhs rhs) rest
  | other => other
  end.
Proof. intros Hk. cbn [or_loop]. now rewrite (is_keyword_shape _ _ k Hk). Qed.

Lemma parse_unary_not (fuel : nat) (k : Token) (ts : list Token) :
  shape k = (LogicalKeyword, "not") ->
  parse_unary (S fuel) (k :: ts) =
  match parse_unary fuel ts with
  | Some (inr (x, rest)) => Some (inr (Unary UnaryOp.not x, rest))
  | other => other
  end.
Proof.
  intros Hk. cbn [parse_unary]. rewrite (is_keyword_shape _ _ k Hk).
  apply shape_eq in Hk as [-> _]. reflexivity.
Qed.

Ltac lengths :=
  repeat (rewrite length_app in * || cbn [length] in * ); lia.

Lemma parse_tokens_of_expression (toks : list Token) (x : FilterNode) :
  (forall fuel n,
      length toks < fuel -> 2 <= n ->
      parse_or (parse_unary fuel) n (toks ++ []) = Some (inr (x, []))) ->
  2 <= length toks ->
  parse_tokens toks = inr x.
Proof.
  intros H Hlen. unfold parse_tokens, parse_expression.
  specialize (H (S (length toks)) (S (length toks))).
  rewrite app_nil_r in H. rewrite H by lia. reflexivity.
Qed.

Section ThreeOperands.

Variables x y z : FilterNode.
Hypothesis Hx : well_formed x.
Hypothesis Hy : well_formed y.
Hypothesis Hz : well_formed z.

Variables tx ty tz : list Token.
Hypothesis Htx : map shape tx = parenthesize_tokens x (spell x).
Hypothesis Hty : map shape ty = parenthesize_tokens y (spell y).
Hypothesis Htz : map shape tz = parenthesize_tokens z (spell z).

Variables kor kor' kand kand' knot : Token.
Hypothesis Hkor : shape kor = (LogicalKeyword, "or").
Hypothesis Hkor' : shape kor' = (LogicalKeyword, "or").
Hypothesis Hkand : shape kand = (LogicalKeyword, "and").
Hypothesis Hkand' : shape kand' = (LogicalKeyword, "and").
Hypothesis Hknot : shape knot = (LogicalKeyword, "not").

Variables (fuel n : nat) (rest : list Token).
Hypothesis Hstop : stops rest.
Hypothesis Hn : 2 <= n.

Lemma tokens_or_and :
  length (tx ++ kor :: ty ++ kand :: tz ++ rest) < fuel ->
  parse_or (parse_unary fuel) n (tx ++ kor :: ty ++ kand :: tz ++ rest)
  = Some (inr (Logical LogicalOp.or x (Logical LogicalOp.and y z), rest)).
Proof.
  intros Hlen. destruct n as [|[|m]]; try lia.
  assert (Ly : length (ty ++ kand :: tz ++ rest) < fuel) by lengths.
  assert (Lz : length (tz ++ rest) < fuel) by lengths.
  unfold parse_or, parse_and.
  rewrite (parse_operand x tx _ _ Hx Htx Hlen). cbv beta iota.
  rewrite (and_loop_or _ _ _ kor _ Hkor). cbv beta iota.
  rewrite (or_loop_or _ _ _ kor _ Hkor). unfold parse_and.
  rewrite (parse_operand y ty _ _ Hy Hty Ly). cbv beta iota.
  rewrite (and_loop_and _ _ _ kand _ Hkand).
  rewrite (parse_operand z tz _ _ Hz Htz Lz). cbv beta iota.
  rewrite and_loop_stops by exact Hstop. cbv beta iota.
  now rewrite or_loop_stops.
Qed.

Lemma tokens_and_or :
  length (tx ++ kand :: ty ++ kor :: tz ++ rest) < fuel ->
  parse_or (parse_unary fuel) n (tx ++ kand :: ty ++ kor :: tz ++ rest)
  = Some (inr (Logical LogicalOp.or (Logical LogicalOp.and x y) z, rest)).
Proof.
  intros Hlen. destruct n as [|[|m]]; try lia.
  assert (Ly : length (ty ++ kor :: tz ++ rest) < fuel) by lengths.
  assert (Lz : length (tz ++ rest) < fuel) by lengths.
  unfold parse_or, parse_and.
  rewrite (parse_operand x tx _ _ Hx Htx Hlen). cbv beta iota.
  rewrite (and_loop_and _ _ _ kand _ Hkand).
  rewrite (parse_operand y ty _ _ Hy Hty Ly). cbv beta iota.
  rewrite (and_loop_or _ _ _ kor _ Hkor). cbv beta iota.
  rewrite (or_loop_or _ _ _ kor _ Hkor). unfold parse_and.
  rewrite (parse_operand z tz _ _ Hz Htz Lz). cbv beta iota.
  rewrite and_loop_stops by exact Hstop. cbv beta iota.
  now rewrite or_loop_stops.
Qed.

Lemma tokens_or_or :
  length (tx ++ kor :: ty ++ kor' :: tz ++ rest) < fuel ->
  parse_or (parse_unary fuel) n (tx ++ kor :: ty ++ kor' :: tz ++ rest)
  = Some (inr (Logical LogicalOp.or (Logical LogicalOp.or x y) z, rest)).
Proof.
  intros Hlen. destruct n as [|[|m]]; try lia.
  assert (Ly : length (ty ++ kor' :: tz ++ rest) < fuel) by lengths.
  assert (Lz : length (tz ++ rest) < fuel) by lengths.
  unfold parse_or, parse_and.
  rewrite (parse_operand x tx _ _ Hx Htx Hlen). cbv beta iota.
  rewrite (and_loop_or _ _ _ kor _ Hkor). cbv beta iota.
  rewrite (or_loop_or _ _ _ kor _ Hkor). unfold parse_and.
  rewrite (parse_operand y ty _ _ Hy Hty Ly). cbv beta iota.
  rewrite (and_loop_or _ _ _ kor' _ Hkor'). cbv beta iota.
  rewrite (or_loop_or _ _ _ kor' _ Hkor'). unfold parse_and.
  rewrite (parse_operand z tz _ _ Hz Htz Lz). cbv beta iota.
  rewrite and_loop_stops by exact Hstop. cbv beta iota.
  now rewrite or_loop_stops.
Qed.

Lemma tokens_and_and :
  length (tx ++ kand :: ty ++ kand' :: tz ++ rest) < fuel ->
  parse_or (parse_unary fuel) n (tx ++ kand :: ty ++ kand' :: tz ++ rest)
  = Some (inr (Logical LogicalOp.and (Logical LogicalOp.and x y) z, rest)).
Proof.
  intros Hlen. destruct n as [|[|m]]; try lia.
  assert (Ly : length (ty ++ kand' :: tz ++ rest) < fuel) by lengths.
  assert (Lz : length (tz ++ rest) < fuel) by lengths.
  unfold parse_or, parse_and.
  rewrite (parse_operand x tx _ _ Hx Htx Hlen). cbv beta iota.
  rewrite (and_loop_and _ _ _ kand _ Hkand).
  rewrite (parse_operand y ty _ _ Hy Hty Ly). cbv beta iota.
  rewrite (and_loop_and _ _ _ kand' _ Hkand').
  rewrite (parse_operand z tz _ _ Hz Htz Lz). cbv beta iota.
  rewrite and_loop_stops by exact Hstop. cbv beta iota.
  now rewrite or_loop_stops.
Qed.

Lemma tokens_not_and :
  length (knot :: tx ++ kand :: ty ++ rest) < fuel ->
  parse_or (parse_unary fuel) n (knot :: tx ++ kand :: ty ++ rest)
  = Some (inr (Logical LogicalOp.and (Unary UnaryOp.not x) y, rest)).
Proof.
  intros Hlen. destruct n as [|[|m]]; try lia.
  destruct fuel as [|f]; [lia|].
  assert (Lx : length (tx ++ kand :: ty ++ rest) < f) by lengths.
  assert (Ly : length (ty ++ rest) < S f) by lengths.
  unfold parse_or, parse_and.
  rewrite (parse_unary_not _ knot _ Hknot).
  rewrite (parse_operand x tx _ _ Hx Htx Lx). cbv beta iota.
  rewrite (and_loop_and _ _ _ kand _ Hkand).
  rewrite (parse_operand y ty _ _ Hy Hty Ly). cbv beta iota.
  rewrite and_loop_stops by exact Hstop. cbv beta iota.
  now rewrite or_loop_stops.
Qed.

End ThreeOperands.


(** ** Text after a complete input *)

Lemma finish_flush (st : LexState) (pos : nat) (toks : list Token)
    (rest : string) (pos' : nat) :
  finish st pos = inr toks -> delimited rest ->
  scan st pos' rest = prepend toks (scan Idle pos' rest).
Proof.
  intros Hf Hd. destruct st; simpl in Hf; try discriminate;
    injection Hf as <-;
    first [ now rewrite prepend_nil
          | now apply scan_flush ].
Qed.

Lemma scan_append (s : string) :
  forall st pos toks rest,
    scan st pos s = inr toks -> delimited rest ->
    scan st pos (s ++ rest)
    = prepend toks (scan Idle (pos + String.length s) rest).
Proof.
  induction s as [|c s IH]; intros st pos toks rest Hs Hd.
  - cbn [scan] in Hs. cbn [append String.length]. rewrite Nat.add_0_r.
    now apply (finish_flush st pos).
  - cbn [append String.length]. rewrite scan_cons in *.
    destruct (step st pos c) as [e|[t0 st']]; [discriminate|].
    destruct (scan st' (S pos) s) as [e|t1] eqn:E; [discriminate|].
    simpl in Hs. injection Hs as <-.
    rewrite (IH st' (S pos) t1 rest E Hd), prepend_app, Nat.add_succ_r.
    reflexivity.
Qed.

Lemma open_literal_fails (pos : nat) (body : string) :
  scan Idle pos (String " " (String "'" (escape body)))
  = inl (LexError "unterminated string literal" (Some (S pos))).
Proof.
  rewrite scan_cons. cbn [step].
  rewrite start_space, prepend_nil, scan_cons. cbn [step].
  rewrite start_quote, prepend_nil.
  rewrite <- (append_nil_r (escape body)), scan_string_body.
  reflexivity.
Qed.

(** ** Properties of the filter core *)

(** C4. The example of the specification, and the rule behind it: for
    operands written as the printer writes them (a comparison, a function
    call, or a parenthesized expression), [and] binds tighter than [or],
    [not] binds tighter than [and], and both [or] and [and] group to the
    left. *)
Theorem and_binds_tighter_than_or :
  parse "a eq 1 or b eq 2 and c eq 3"
  = inr (Logical LogicalOp.or
           (Comparison ["a"] ComparisonOp.eq (integer 1))
           (Logical LogicalOp.and
              (Comparison ["b"] ComparisonOp.eq (integer 2))
              (Comparison ["c"] ComparisonOp.eq (integer 3))))
  /\ forall x y z,
       well_formed x -> well_formed y -> well_formed z ->
       parse (operand x ++ " or " ++ operand y ++ " and " ++ operand z)
       = inr (Logical LogicalOp.or x (Logical LogicalOp.and y z))
       /\ parse (operand x ++ " and " ++ operand y ++ " or " ++ operand z)
          = inr (Logical LogicalOp.or (Logical LogicalOp.and x y) z)
       /\ parse ("not " ++ operand x ++ " and " ++ operand y)
          = inr (Logical LogicalOp.and (Unary UnaryOp.not x) y)
       /\ parse (operand x ++ " or " ++ operand y ++ " or " ++ operand z)
          = inr (Logical LogicalOp.or (Logical LogicalOp.or x y) z)
       /\ parse (operand x ++ " and " ++ operand y ++ " and " ++ operand z)
          = inr (Logical LogicalOp.and (Logical LogicalOp.and x y) z).
Proof.
  split; [reflexivity|]. intros x y z Hx Hy Hz.
  pose proof (lexes_operand x Hx) as Lx.
  pose proof (lexes_operand y Hy) as Ly.
  pose proof (lexes_operand z Hz) as Lz.
  assert (Hsplit : forall (k1 k2 : TokenKind * string) toks,
             map shape toks
             = parenthesize_tokens x (spell x)
               ++ k1 :: (parenthesize_tokens y (spell y)
                         ++ k2 :: parenthesize_tokens z (spell z)) ->
             exists tx c1 ty c2 tz,
               toks = tx ++ c1 :: ty ++ c2 :: tz ++ []
               /\ map shape tx = parenthesize_tokens x (spell x)
               /\ shape c1 = k1
               /\ map shape ty = parenthesize_tokens y (spell y)
               /\ shape c2 = k2
               /\ map shape tz = parenthesize_tokens z (spell z)).
  { intros k1 k2 toks H.
    apply map_eq_app in H. destruct H as (tx & t1 & -> & Htx & H).
    apply map_eq_cons in H. destruct H as (c1 & t2 & -> & Hc1 & H).
    apply map_eq_app in H. destruct H as (ty & t3 & -> & Hty & H).
    apply map_eq_cons in H. destruct H as (c2 & tz & -> & Hc2 & Htz).
    exists tx, c1, ty, c2, tz. rewrite app_nil_r. auto 10. }
  repeat split.
  - apply parse_of_lexes with
      (ks := parenthesize_tokens x (spell x)
             ++ (LogicalKeyword, "or")
             :: (parenthesize_tokens y (spell y)
                 ++ (LogicalKeyword, "and")
                 :: parenthesize_tokens z (spell z))).
    + apply (lexes_infix _ "or"); [reflexivity|exact Lx|].
      now apply (lexes_infix _ "and").
    + intros toks H.
      destruct (Hsplit _ _ _ H) as (tx & c1 & ty & c2 & tz & E & ? & ? & ? & ? & ?).
      apply parse_tokens_of_expression; [|subst toks; lengths].
      intros fuel n Hlen Hn. rewrite app_nil_r. rewrite E in *.
      now apply tokens_or_and.
  - apply parse_of_lexes with
      (ks := parenthesize_tokens x (spell x)
             ++ (LogicalKeyword, "and")
             :: (parenthesize_tokens y (spell y)
                 ++ (LogicalKeyword, "or")
                 :: parenthesize_tokens z (spell z))).
    + apply (lexes_infix _ "and"); [reflexivity|exact Lx|].
      now apply (lexes_infix _ "or").
    + intros toks H.
      destruct (Hsplit _ _ _ H) as (tx & c1 & ty & c2 & tz & E & ? & ? & ? & ? & ?).
      apply parse_tokens_of_expression; [|subst toks; lengths].
      intros fuel n Hlen Hn. rewrite app_nil_r. rewrite E in *.
      now apply tokens_and_or.
  - apply parse_of_lexes with
      (ks := (LogicalKeyword, "not")
             :: (parenthesize_tokens x (spell x)
                 ++ (LogicalKeyword, "and")
                 :: parenthesize_tokens y (spell y))).
    + change ("not " ++ operand x ++ " and " ++ operand y)%string
        with ("not" ++ String " " (operand x ++ " and " ++ operand y))%string.
      apply lexes_then; [now apply (lexes_word "not")| |reflexivity].
      apply lexes_space. now apply (lexes_infix _ "and").
    + intros toks H.
      apply map_eq_cons in H. destruct H as (c0 & t1 & -> & Hc0 & H).
      apply map_eq_app in H. destruct H as (tx & t2 & -> & Htx & H).
      apply map_eq_cons in H. destruct H as (c1 & ty & -> & Hc1 & Hty).
      apply parse_tokens_of_expression; [|lengths].
      intros fuel n Hlen Hn.
      rewrite <- app_comm_cons, <- app_assoc, <- app_comm_cons in *.
      apply tokens_not_and; auto; [exact I|].
      now rewrite app_nil_r.
  - apply parse_of_lexes with
      (ks := parenthesize_tokens x (spell x)
             ++ (LogicalKeyword, "or")
             :: (parenthesize_tokens y (spell y)
                 ++ (LogicalKeyword, "or")
                 :: parenthesize_tokens z (spell z))).
    + apply (lexes_infix _ "or"); [reflexivity|exact Lx|].
      now apply (lexes_infix _ "or").
    + intros toks H.
      destruct (Hsplit _ _ _ H) as (tx & c1 & ty & c2 & tz & E & ? & ? & ? & ? & ?).
      apply parse_tokens_of_expression; [|subst toks; lengths].
      intros fuel n Hlen Hn. rewrite app_nil_r. rewrite E in *.
      now apply tokens_or_or.
  - apply parse_of_lexes with
      (ks := parenthesize_tokens x (spell x)
             ++ (LogicalKeyword, "and")
             :: (parenthesize_tokens y (spell y)
                 ++ (LogicalKeyword, "and")
                 :: parenthesize_tokens z (spell z))).
    + apply (lexes_infix _ "and"); [reflexivity|exact Lx|].
      now apply (lexes_infix _ "and").
    + intros toks H.
      destruct (Hsplit _ _ _ H) as (tx & c1 & ty & c2 & tz & E & ? & ? & ? & ? & ?).
      apply parse_tokens_of_expression; [|subst toks; lengths].
      intros fuel n Hlen Hn. rewrite app_nil_r. rewrite E in *.
      now apply tokens_and_and.
Qed.

(** C5. The example of the specification; in general a literal written
    with every quote of its body doubled is read as that body; and text
    that ends inside a literal, after any input that is complete on its
    own, is a lex error. *)
Theorem doubled_quote_is_one_quote :
  parse "Name eq 'O''Brien'"
  = inr (Comparison ["Name"] ComparisonOp.eq (Literal.String "O'Brien"))
  /\ (forall fp o body,
         path_ok fp ->
         parse (Py.join "/" fp ++ " " ++ comparison_op_name o ++ " '"
                ++ escape body ++ "'")
         = inr (Comparison fp o (Literal.String body)))
  /\ (forall pre toks body,
         tokenize pre = inr toks ->
         parse (pre ++ " '" ++ escape body)
         = inl (LexError "unterminated string literal"
                  (Some (S (String.length pre))))).
Proof.
  split; [reflexivity|]. split.
  - intros fp o body Hfp.
    apply (parse_pretty (Comparison fp o (Literal.String body))).
    now split.
  - intros pre toks body Hpre. unfold parse, tokenize in *.
    change (pre ++ " '" ++ escape body)%string
      with (pre ++ String " " (String "'" (escape body)))%string.
    rewrite (scan_append pre Idle 0 toks _ Hpre) by reflexivity.
    now rewrite open_literal_fails.
Qed.


(** C7. Whenever a string parses to a tree, the printed form of the tree
    parses to the same tree; so the printed form and the string denote
    the same filter. *)
Theorem parse_pretty_roundtrip (s : string) (t : FilterNode) :
  parse s = inr t ->
  parse (pretty t) = inr t /\ parse (pretty t) = parse s.
Proof.
  intros H. assert (Hp : parse (pretty t) = inr t).
  { apply parse_pretty. now apply (parse_well_formed s). }
  split; [exact Hp|]. now rewrite Hp, H.
Qed.

End FilterCoreFacts.











(* ===================================================================== *)
(** * Facts about query_parser.py *)
(* ===================================================================== *)

Section QueryParserFacts.

Variable FilterNode : Type.
Variable FilterError : Type.
Variable filter_parse : string -> FilterError + FilterNode.
Variable int : string -> option Z.

Local Abbreviation World := (World FilterNode).
Local Abbreviation exn := (exn FilterError).
Local Abbreviation M := (M FilterNode FilterError).
Local Abbreviation with_options := (with_options FilterNode).
Local Abbreviation raises := (raises FilterNode FilterError).
Local Abbreviation returns := (returns FilterNode FilterError).
Local Abbreviation parse_skip := (_parse_skip FilterNode FilterError int).
Local Abbreviation parse_top := (_parse_top FilterNode FilterError int).
Local Abbreviation parse_format := (_parse_format FilterNode FilterError).
Local Abbreviation parse_orderby := (_parse_orderby FilterNode FilterError).

Ltac run_handler :=
  unfold raises, returns, _parse_skip, _parse_top, _parse_format,
    _parse_count, _parse_expand, _parse_filter, _parse_orderby,
    _parse_search, _parse_select, try_except, bind, call_int,
    call_filter_parse, assign, read, assert_non_negative, py_assert,
    no_positive_integer, raise, ret, with_options; simpl.

Lemma parse_skip_run (value : string) (w : World) :
  parse_skip value w =
  match int value with
  | Some n =>
      (if (0 <=? n)%Z then inr tt
       else inl (NoPositiveIntegerValue "$skip" value),
       with_options (set_skip FilterNode (Some n)) w)
  | None => (inl (NoPositiveIntegerValue "$skip" value), w)
  end.
Proof.
  run_handler. destruct (int value) as [n|]; simpl; [|reflexivity].
  destruct (0 <=? n)%Z; reflexivity.
Qed.

Lemma parse_top_run (value : string) (w : World) :
  parse_top value w =
  match int value with
  | Some n =>
      (if (0 <=? n)%Z then inr tt
       else inl (NoPositiveIntegerValue "$top" value),
       with_options (set_top FilterNode (Some n)) w)
  | None => (inl (NoPositiveIntegerValue "$top" value), w)
  end.
Proof.
  run_handler. destruct (int value) as [n|]; simpl; [|reflexivity].
  destruct (0 <=? n)%Z; reflexivity.
Qed.

(** What a run of the shape computed by [parse_skip_run] amounts to. *)
Lemma integer_handler_outcome (c : M unit) (w : World) (value param : string)
    (set : option Z -> ODataQueryOptions FilterNode -> ODataQueryOptions FilterNode)
    (get : ODataQueryOptions FilterNode -> option Z) :
  (forall v o, get (set v o) = v) ->
  c w =
    match int value with
    | Some n =>
        (if (0 <=? n)%Z then inr tt
         else inl (NoPositiveIntegerValue param value),
         with_options (set (Some n)) w)
    | None => (inl (NoPositiveIntegerValue param value), w)
    end ->
  (raises c w (NoPositiveIntegerValue param value)
   <-> (int value = None \/ exists n, int value = Some n /\ (n < 0)%Z))
  /\ (forall n, returns c w (with_options (set (Some n)) w)
                <-> (int value = Some n /\ (0 <= n)%Z))
  /\ (raises c w (NoPositiveIntegerValue param value)
      \/ exists w', returns c w w').
Proof.
  intros Hget Hrun. unfold raises, returns. rewrite Hrun. clear Hrun.
  destruct (int value) as [n|]; simpl.
  - destruct (Z.leb_spec 0 n) as [Hn|Hn]; simpl.
    + split; [|split].
      * split; [discriminate|].
        intros [H|[m [H Hm]]]; [discriminate|]. injection H as <-. lia.
      * intros m. split.
        -- intros [x H].
           assert (E : get (options _ (with_options (set (Some n)) w))
                       = get (options _ (with_options (set (Some m)) w)))
             by congruence.
           simpl in E. rewrite !Hget in E. injection E as <-. now split.
        -- intros [H _]. injection H as <-. now exists tt.
      * right. eexists. now exists tt.
    + split; [|split].
      * split; [|reflexivity]. intros _. right. exists n. now split.
      * intros m. split; [intros [x H]; discriminate|].
        intros [H Hm]. injection H as <-. lia.
      * now left.
  - split; [|split].
    + split; [|reflexivity]. intros _. now left.
    + intros m. split; [intros [x H]; discriminate|intros [H _]; discriminate].
    + now left.
Qed.

(** C2. [_parse_skip] raises [NoPositiveIntegerValue] exactly when the
    value does not convert to an integer or converts to a negative one;
    otherwise it returns normally with [options.skip] set to the
    non-negative integer; and [_parse_top] does the same for
    [options.top]. *)
Theorem parse_skip_top_raise_exactly (value : string) (w : World) :
  ((raises (parse_skip value) w (NoPositiveIntegerValue "$skip" value)
    <-> (int value = None \/ exists n, int value = Some n /\ (n < 0)%Z))
   /\ (forall n, returns (parse_skip value) w
                   (with_options (set_skip FilterNode (Some n)) w)
                 <-> (int value = Some n /\ (0 <= n)%Z))
   /\ (raises (parse_skip value) w (NoPositiveIntegerValue "$skip" value)
       \/ exists w', returns (parse_skip value) w w'))
  /\
  ((raises (parse_top value) w (NoPositiveIntegerValue "$top" value)
    <-> (int value = None \/ exists n, int value = Some n /\ (n < 0)%Z))
   /\ (forall n, returns (parse_top value) w
                   (with_options (set_top FilterNode (Some n)) w)
                 <-> (int value = Some n /\ (0 <= n)%Z))
   /\ (raises (parse_top value) w (NoPositiveIntegerValue "$top" value)
       \/ exists w', returns (parse_top value) w w')).
Proof.
  split.
  - apply integer_handler_outcome with (get := skip FilterNode).
    + reflexivity.
    + apply parse_skip_run.
  - apply integer_handler_outcome with (get := top FilterNode).
    + reflexivity.
    + apply parse_top_run.
Qed.


Local Abbreviation parse_params := (parse_params FilterNode FilterError filter_parse int).
Local Abbreviation parse_param := (parse_param FilterNode FilterError filter_parse int).
Local Abbreviation supported_options := (supported_options FilterNode FilterError filter_parse int).
Local Abbreviation supported := (supported FilterNode FilterError filter_parse int).
Local Abbreviation effective := (effective FilterNode FilterError filter_parse int).
Local Abbreviation parse_query_params := (parse_query_params FilterNode FilterError filter_parse int).
Local Abbreviation parse_query_string := (parse_query_string FilterNode FilterError filter_parse int).
Local Abbreviation parse_url := (parse_url FilterNode FilterError filter_parse int).
Local Abbreviation fresh_world := (fresh_world FilterNode).
Local Abbreviation same_field := (same_field FilterNode).
Local Abbreviation at_default := (at_default FilterNode).

Lemma mem_iff_In (value : string) (l : list string) :
  existsb (String.eqb value) l = true <-> In value l.
Proof.
  rewrite existsb_exists. split.
  - intros (x & Hx & Heq). apply String.eqb_eq in Heq. now subst.
  - intros H. exists value. split; [exact H|apply String.eqb_refl].
Qed.

Lemma parse_format_run (value : string) (w : World) :
  parse_format value w =
  if existsb (String.eqb value) ["json"; "xml"; "csv"; "tsv"]
  then (inr tt, with_options (set_format_ FilterNode (Some value)) w)
  else (inl (UnsupportedFormat value), w).
Proof.
  unfold _parse_format.
  destruct (existsb (String.eqb value) ["json"; "xml"; "csv"; "tsv"]);
    reflexivity.
Qed.

(** C3. [_parse_format] raises [UnsupportedFormat] exactly when the value
    is not one of the four strings json, xml, csv, tsv, compared as they
    are written; otherwise it returns normally with [options.format_] set
    to the value. *)
Theorem parse_format_raise_exactly (value : string) (w : World) :
  (raises (parse_format value) w (UnsupportedFormat value)
   <-> ~ In value ["json"; "xml"; "csv"; "tsv"])
  /\ (returns (parse_format value) w
        (with_options (set_format_ FilterNode (Some value)) w)
      <-> In value ["json"; "xml"; "csv"; "tsv"])
  /\ (raises (parse_format value) w (UnsupportedFormat value)
      \/ exists w', returns (parse_format value) w w').
Proof.
  unfold raises, returns. rewrite parse_format_run.
  pose proof (mem_iff_In value ["json"; "xml"; "csv"; "tsv"]) as Hmem.
  destruct (existsb (String.eqb value) ["json"; "xml"; "csv"; "tsv"]).
  - assert (Hin : In value ["json"; "xml"; "csv"; "tsv"]) by now apply Hmem.
    split; [|split].
    + split; [discriminate|]. intros H. now destruct H.
    + split; [auto|]. intros _. now exists tt.
    + right. eexists. now exists tt.
  - assert (Hnot : ~ In value ["json"; "xml"; "csv"; "tsv"]).
    { intros Hin. apply Hmem in Hin. discriminate. }
    split; [|split].
    + split; auto.
    + split; [intros [x H]; discriminate|]. intros H. now destruct Hnot.
    + now left.
Qed.

Lemma orderby_entry_shape (item : string) :
  keys (orderby_entry item) = ["field"; "direction"]
  /\ exists direction,
       lookup "direction" (orderby_entry item) = Some direction
       /\ (direction = "asc" \/ direction = "desc")
       /\ (~ Py.ends_with_ignoring_case (Py.strip item) " asc" ->
           ~ Py.ends_with_ignoring_case (Py.strip item) " desc" ->
           direction = "asc").
Proof.
  unfold orderby_entry.
  destruct (Py.endswith (Py.lower (Py.strip item)) " asc") eqn:Easc.
  - simpl. split; [reflexivity|]. exists "asc". auto.
  - destruct (Py.endswith (Py.lower (Py.strip item)) " desc") eqn:Edesc.
    + simpl. split; [reflexivity|]. exists "desc". repeat split; auto.
      intros _ Hn. exfalso. apply Hn.
      apply PyFacts.endswith_lower; [reflexivity|exact Edesc].
    + simpl. split; [reflexivity|]. exists "asc". auto.
Qed.

(** C8. On a non-empty value [_parse_orderby] returns normally with
    [options.orderby] set to a list that has one entry per comma-separated
    item; every entry is a dict with exactly the keys field and direction;
    its direction is asc or desc, and it is asc whenever the trimmed item
    ends in neither " asc" nor " desc" up to case. *)
Theorem parse_orderby_entries (value : string) (w : World) :
  value <> EmptyString ->
  exists entries,
    returns (parse_orderby value) w
      (with_options (set_orderby FilterNode (Some entries)) w)
    /\ orderby _ (options _ (snd (parse_orderby value w))) = Some entries
    /\ length entries = length (Py.split "," value)
    /\ Forall2
         (fun item entry =>
            keys entry = ["field"; "direction"]
            /\ exists direction,
                 lookup "direction" entry = Some direction
                 /\ (direction = "asc" \/ direction = "desc")
                 /\ (~ Py.ends_with_ignoring_case (Py.strip item) " asc" ->
                     ~ Py.ends_with_ignoring_case (Py.strip item) " desc" ->
                     direction = "asc"))
         (Py.split "," value) entries.
Proof.
  intros Hne. exists (map orderby_entry (Py.split "," value)).
  assert (Htruthy : truthy value = true) by (destruct value; [congruence|reflexivity]).
  run_handler. rewrite Htruthy. simpl.
  split; [now exists tt|]. split; [reflexivity|]. split; [apply length_map|].
  induction (Py.split "," value) as [|item items IH]; simpl; constructor.
  - apply orderby_entry_shape.
  - exact IH.
Qed.

(** C9. Whenever [urlparse] accepts the URL, [parse_url] returns or raises
    exactly what [parse_query_string] does on the query component, and
    makes the same calls to the filter parser. *)
Theorem parse_url_is_parse_query_string
    (urlparse : string -> option ParseResult)
    (parse_qs : string -> QueryParams)
    (url : string) (parsed : ParseResult) :
  urlparse url = Some parsed ->
  parse_url urlparse parse_qs url = parse_query_string parse_qs (query parsed).
Proof.
  intros H. unfold parse_url. now rewrite H.
Qed.

(** ** The loop of [parse_query_params] *)

Lemma lookup_supported (param : string) (h : string -> M unit) :
  lookup param supported_options = Some h ->
  (param = "$count" /\ h = _parse_count FilterNode FilterError)
  \/ (param = "$expand" /\ h = _parse_expand FilterNode FilterError)
  \/ (param = "$filter" /\ h = _parse_filter FilterNode FilterError filter_parse)
  \/ (param = "$format" /\ h = parse_format)
  \/ (param = "$orderby" /\ h = parse_orderby)
  \/ (param = "$search" /\ h = _parse_search FilterNode FilterError)
  \/ (param = "$select" /\ h = _parse_select FilterNode FilterError)
  \/ (param = "$skip" /\ h = parse_skip)
  \/ (param = "$top" /\ h = parse_top).
Proof.
  unfold supported_options. cbn [lookup].
  repeat match goal with
         | |- context [String.eqb ?k param] =>
             destruct (String.eqb_spec k param) as [<-|_];
             [intros H; injection H as <-; tauto|]
         end.
  discriminate.
Qed.

Lemma supported_iff (param : string) :
  supported param = true
  <-> In param ["$count"; "$expand"; "$filter"; "$format"; "$orderby";
                "$search"; "$select"; "$skip"; "$top"].
Proof.
  unfold supported. split.
  - destruct (lookup param supported_options) as [h|] eqn:E; [|discriminate].
    intros _. apply lookup_supported in E. simpl.
    repeat destruct E as [[-> _]|E]; try tauto. destruct E as [-> _]. tauto.
  - simpl. intros H.
    repeat destruct H as [<-|H]; try reflexivity. destruct H.
Qed.

Ltac destruct_innermost t :=
  lazymatch t with
  | context [match ?x with _ => _ end] => destruct_innermost x
  | _ => destruct t
  end.

Ltac split_handler :=
  run_handler;
  repeat match goal with
         | |- context [match ?x with _ => _ end] =>
             destruct_innermost x; simpl
         end.

(** A handler writes the field of its own key only. *)
Lemma handler_frame (f : OptionField) (param : string) (h : string -> M unit)
    (value : string) (w : World) :
  lookup param supported_options = Some h ->
  param <> key_of f ->
  same_field f (options _ (snd (h value w))) (options _ w).
Proof.
  intros Hh Hkey. apply lookup_supported in Hh.
  repeat destruct Hh as [[-> ->]|Hh]; try destruct Hh as [-> ->];
    destruct f; simpl in Hkey; try congruence;
    split_handler; reflexivity.
Qed.

(** Only the handler of [$filter] calls the filter parser. *)
Lemma handler_calls (param : string) (h : string -> M unit)
    (value : string) (w : World) :
  lookup param supported_options = Some h ->
  param <> "$filter" ->
  parse_calls _ (snd (h value w)) = parse_calls _ w.
Proof.
  intros Hh Hkey. apply lookup_supported in Hh.
  repeat destruct Hh as [[-> ->]|Hh]; try destruct Hh as [-> ->];
    try congruence; split_handler; reflexivity.
Qed.

Lemma same_field_refl (f : OptionField) (o : ODataQueryOptions FilterNode) :
  same_field f o o.
Proof. destruct f; reflexivity. Qed.

Lemma same_field_trans (f : OptionField) (a b c : ODataQueryOptions FilterNode) :
  same_field f a b -> same_field f b c -> same_field f a c.
Proof. destruct f; simpl; congruence. Qed.

Lemma parse_param_frame (f : OptionField) (param : string)
    (values : list (option string)) (w : World) :
  (param = key_of f -> first_value values = None) ->
  same_field f (options _ (snd (parse_param param values w))) (options _ w).
Proof.
  intros H. unfold parse_param.
  destruct (lookup param supported_options) as [h|] eqn:Eh;
    [|apply same_field_refl].
  destruct (first_value values) as [value|] eqn:Ev; [|apply same_field_refl].
  apply handler_frame with (param := param); [exact Eh|].
  intros Hp. specialize (H Hp). discriminate.
Qed.

Lemma parse_param_calls (param : string) (values : list (option string))
    (w : World) :
  param <> "$filter" ->
  parse_calls _ (snd (parse_param param values w)) = parse_calls _ w.
Proof.
  intros H. unfold parse_param.
  destruct (lookup param supported_options) as [h|] eqn:Eh; [|reflexivity].
  destruct (first_value values) as [value|]; [|reflexivity].
  now apply handler_calls with (param := param).
Qed.

Lemma parse_params_cons (param : string) (values : list (option string))
    (rest : QueryParams) (w : World) :
  parse_params ((param, values) :: rest) w =
  match parse_param param values w with
  | (inr _, w') => parse_params rest w'
  | (inl e, w') => (inl e, w')
  end.
Proof. reflexivity. Qed.

Lemma parse_params_frame (f : OptionField) (m : QueryParams) (w : World) :
  (forall values, In (key_of f, values) m -> first_value values = None) ->
  same_field f (options _ (snd (parse_params m w))) (options _ w).
Proof.
  revert w. induction m as [|[param values] rest IH]; intros w H.
  - apply same_field_refl.
  - rewrite parse_params_cons.
    assert (Hstep := parse_param_frame f param values w).
    destruct (parse_param param values w) as [[e|x] w'] eqn:E; simpl in *.
    + apply Hstep. intros ->. apply H. now left.
    + eapply same_field_trans.
      * apply IH. intros vs Hin. apply H. now right.
      * apply Hstep. intros ->. apply H. now left.
Qed.

Lemma parse_params_calls (m : QueryParams) (w : World) :
  ~ In "$filter" (keys m) ->
  parse_calls _ (snd (parse_params m w)) = parse_calls _ w.
Proof.
  revert w. induction m as [|[param values] rest IH]; intros w H.
  - reflexivity.
  - rewrite parse_params_cons.
    assert (Hstep := parse_param_calls param values w).
    simpl in H.
    destruct (parse_param param values w) as [[e|x] w'] eqn:E; simpl in *.
    + apply Hstep. tauto.
    + rewrite IH by tauto. apply Hstep. tauto.
Qed.

Lemma parse_param_not_effective (param : string)
    (values : list (option string)) (w : World) :
  effective (param, values) = false ->
  parse_param param values w = (inr tt, w).
Proof.
  unfold effective, supported, parse_param.
  cbn [fst snd]. destruct (lookup param supported_options); [|reflexivity].
  destruct (first_value values); [discriminate|reflexivity].
Qed.

Lemma parse_params_effective (m : QueryParams) (w : World) :
  parse_params m w = parse_params (filter effective m) w.
Proof.
  revert w. induction m as [|[param values] rest IH]; intros w.
  - reflexivity.
  - simpl filter. destruct (effective (param, values)) eqn:E.
    + rewrite !parse_params_cons.
      destruct (parse_param param values w) as [[e|x] w']; [reflexivity|].
      apply IH.
    + rewrite parse_params_cons, parse_param_not_effective by exact E.
      apply IH.
Qed.

Lemma first_value_firstn (values : list (option string)) :
  first_value (firstn 1 values) = first_value values.
Proof. destruct values; reflexivity. Qed.

Lemma parse_params_first_values (m : QueryParams) (w : World) :
  parse_params m w =
  parse_params (map (fun item => (fst item, firstn 1 (snd item))) m) w.
Proof.
  revert w. induction m as [|[param values] rest IH]; intros w.
  - reflexivity.
  - cbn [map fst snd]. rewrite !parse_params_cons.
    unfold parse_param at 2. rewrite first_value_firstn.
    fold (parse_param param values).
    destruct (parse_param param values w) as [[e|x] w']; [reflexivity|].
    apply IH.
Qed.

Lemma parse_query_params_options (m : QueryParams)
    (o : ODataQueryOptions FilterNode) :
  fst (parse_query_params m) = inr o ->
  o = options _ (snd (parse_params m fresh_world)).
Proof.
  unfold parse_query_params.
  destruct (parse_params m fresh_world) as [[e|x] w]; simpl.
  - discriminate.
  - now intros [= <-].
Qed.

(** C10. A field of the returned record differs from its default only if
    the mapping has the field's key with a first value that is a string;
    unsupported keys, keys with an empty value list and keys whose first
    value is None can be dropped from the mapping without changing what
    is returned, raised or asked of the filter parser; so can every value
    after the first; and the supported keys are the nine listed. *)
Theorem parse_query_params_frame (m : QueryParams) :
  (forall f o,
      fst (parse_query_params m) = inr o ->
      (forall values, In (key_of f, values) m -> first_value values = None) ->
      at_default f o)
  /\ parse_query_params m = parse_query_params (filter effective m)
  /\ parse_query_params m =
     parse_query_params (map (fun item => (fst item, firstn 1 (snd item))) m)
  /\ (forall param,
         supported param = true
         <-> In param ["$count"; "$expand"; "$filter"; "$format"; "$orderby";
                       "$search"; "$select"; "$skip"; "$top"]).
Proof.
  split; [|split; [|split]].
  - intros f o Ho Hm. apply parse_query_params_options in Ho. subst o.
    unfold at_default.
    apply (parse_params_frame f m fresh_world Hm).
  - unfold parse_query_params.
    now rewrite <- parse_params_effective.
  - unfold parse_query_params.
    now rewrite <- parse_params_first_values.
  - apply supported_iff.
Qed.


(** ** The call to the filter parser *)

Lemma parse_params_app (a b : QueryParams) (w : World) :
  parse_params (a ++ b) w =
  match parse_params a w with
  | (inr _, w') => parse_params b w'
  | (inl e, w') => (inl e, w')
  end.
Proof.
  revert w. induction a as [|[param values] rest IH]; intros w.
  - reflexivity.
  - rewrite <- app_comm_cons, !parse_params_cons.
    destruct (parse_param param values w) as [[e|x] w']; [reflexivity|].
    apply IH.
Qed.

Lemma parse_filter_run (value : string) (w : World) :
  _parse_filter FilterNode FilterError filter_parse value w =
  let called := {| options := options _ w;
                   parse_calls := parse_calls _ w ++ [value] |} in
  match filter_parse value with
  | inr node =>
      (inr tt, with_options (set_filter_ FilterNode (Some node)) called)
  | inl e => (inl (FilterParserError e), called)
  end.
Proof.
  run_handler. destruct (filter_parse value); reflexivity.
Qed.

Lemma parse_param_filter (value : string) (values : list (option string))
    (w : World) :
  parse_param "$filter" (Some value :: values) w =
  _parse_filter FilterNode FilterError filter_parse value w.
Proof. reflexivity. Qed.

Lemma key_of_item {A : Type} (k : string) (v : A) (d : list (string * A)) :
  In (k, v) d -> In k (keys d).
Proof. intros H. apply (in_map fst) in H. exact H. Qed.

(** C1, as the code has it. In a mapping that has the key [$filter] with
    first value [value]: if the handlers of the keys iterated before it
    return normally, then the filter parser is called exactly once, with
    [value]; an error it raises is what [parse_query_params] raises; and
    a tree it returns is the [filter_] field of the record that
    [parse_query_params] returns, unless the handler of a later key
    raises. If the handler of an earlier key raises, that error is what
    [parse_query_params] raises, and the filter parser is not called. *)
Theorem parse_query_params_filter_once (before after : QueryParams)
    (value : string) (values : list (option string)) :
  NoDup (keys (before ++ ("$filter", Some value :: values) :: after)) ->
  let result :=
    parse_query_params
      (before ++ ("$filter", Some value :: values) :: after) in
  (forall w1,
      returns (parse_params before) fresh_world w1 ->
      snd result = [value]
      /\ match filter_parse value with
         | inl e => fst result = inl (FilterParserError e)
         | inr node =>
             match fst result with
             | inr o => filter_ _ o = Some node
             | inl e =>
                 raises (parse_params after)
                   {| options := set_filter_ _ (Some node) (options _ w1);
                      parse_calls := [value] |} e
             end
         end)
  /\ (forall e,
         raises (parse_params before) fresh_world e ->
         result = (inl e, [])).
Proof.
  intros Hdup result. subst result.
  unfold keys in Hdup. rewrite map_app in Hdup. cbn [map fst] in Hdup.
  pose proof (NoDup_remove_2 _ _ _ Hdup) as Hnot.
  rewrite in_app_iff in Hnot.
  pose proof (parse_params_calls before fresh_world) as Hcalls0.
  split.
  - intros w1 [x Hbefore].
    assert (Hcalls1 : parse_calls _ w1 = []).
    { rewrite Hbefore in Hcalls0. apply Hcalls0. tauto. }
    unfold parse_query_params.
    rewrite parse_params_app, Hbefore, parse_params_cons, parse_param_filter,
      parse_filter_run.
    cbv zeta. rewrite Hcalls1. cbn [app].
    destruct (filter_parse value) as [e|node].
    + split; reflexivity.
    + unfold with_options. cbn [options parse_calls].
      set (w2 := {| options := set_filter_ _ (Some node) (options _ w1);
                    parse_calls := [value] |}).
      pose proof (parse_params_calls after w2) as Hcalls.
      pose proof (parse_params_frame Filter_ after w2) as Hframe.
      unfold raises.
      destruct (parse_params after w2) as [[e|y] w3]; cbn [fst snd] in *.
      * split; [|reflexivity]. apply Hcalls. tauto.
      * split; [apply Hcalls; tauto|].
        rewrite Hframe; [reflexivity|].
        intros vs Hin. exfalso. apply Hnot. right.
        now apply key_of_item in Hin.
  - intros e Hraise. unfold raises in Hraise.
    unfold parse_query_params. rewrite parse_params_app.
    destruct (parse_params before fresh_world) as [[e0|x] w1];
      cbn [fst snd] in *; [|discriminate].
    injection Hraise as ->. f_equal. apply Hcalls0. tauto.
Qed.

End QueryParserFacts.




(* ===================================================================== *)
(** * Concrete runs *)
(* ===================================================================== *)

Module Runs.
Import FilterCore Run.

Local Abbreviation N := FilterCore.FilterNode.
Local Abbreviation E := FilterCore.Error.

Lemma a_eq_1_well_formed : well_formed a_eq_1.
Proof. repeat split. discriminate. Defined.

Lemma name_has_foo_well_formed : well_formed name_has_foo.
Proof. repeat split. now exists "foo". Defined.

Lemma b_or_c_well_formed : well_formed b_or_c.
Proof. repeat split. Defined.

(** C1: the filter parser is not called when the handler of an earlier key
    raises. *)
Lemma parse_not_called_after_failing_key :
  lookup "$filter" [("$top", [Some "x"]); ("$filter", [Some "a eq 1"])]
  = Some [Some "a eq 1"]
  /\ "a eq 1" <> EmptyString
  /\ Run.parse_query_params
       [("$top", [Some "x"]); ("$filter", [Some "a eq 1"])]
     = (inl (NoPositiveIntegerValue "$top" "x"), [])
  /\ snd (Run.parse_query_params
            [("$top", [Some "x"]); ("$filter", [Some "a eq 1"])])
     <> ["a eq 1"].
Proof. repeat split; discriminate. Qed.

Lemma parse_query_params_filter_once_witness :
  NoDup (keys ([("$top", [Some "5"])]
               ++ ("$filter", [Some "a eq 1"; Some "b eq 2"])
               :: [("$skip", [Some "2"])]))
  /\ returns N E (parse_params N E FilterCore.parse Py.int [("$top", [Some "5"])])
       Run.fresh_world
       {| options := set_top N (Some 5%Z) (default_options N);
          parse_calls := [] |}
  /\ snd (Run.parse_query_params
            [("$top", [Some "5"]);
             ("$filter", [Some "a eq 1"; Some "b eq 2"]);
             ("$skip", [Some "2"])])
     = ["a eq 1"]
  /\ NoDup (keys ([("$top", [Some "x"])]
                  ++ ("$filter", [Some "a eq 1"]) :: []))
  /\ raises N E (parse_params N E FilterCore.parse Py.int [("$top", [Some "x"])])
       Run.fresh_world (NoPositiveIntegerValue "$top" "x")
  /\ Run.parse_query_params
       [("$top", [Some "x"]); ("$filter", [Some "a eq 1"])]
     = (inl (NoPositiveIntegerValue "$top" "x"), []).
Proof.
  assert (Hdup : NoDup (keys ([("$top", [Some "5"])]
                              ++ ("$filter", [Some "a eq 1"; Some "b eq 2"])
                              :: [("$skip", [Some "2"])]))).
  { repeat constructor; simpl; intuition discriminate. }
  assert (Hret : returns N E (parse_params N E FilterCore.parse Py.int
                            [("$top", [Some "5"])])
                   Run.fresh_world
                   {| options := set_top N (Some 5%Z) (default_options N);
                      parse_calls := [] |}).
  { exists tt. reflexivity. }
  assert (Hdup' : NoDup (keys ([("$top", [Some "x"])]
                               ++ ("$filter", [Some "a eq 1"]) :: []))).
  { repeat constructor; simpl; intuition discriminate. }
  assert (Hraise : raises N E (parse_params N E FilterCore.parse Py.int
                                 [("$top", [Some "x"])])
                     Run.fresh_world (NoPositiveIntegerValue "$top" "x"))
    by reflexivity.
  split; [exact Hdup|]. split; [exact Hret|].
  split.
  - exact (proj1 (proj1 (parse_query_params_filter_once
                           N E FilterCore.parse Py.int
                           [("$top", [Some "5"])] [("$skip", [Some "2"])]
                           "a eq 1" [Some "b eq 2"] Hdup) _ Hret)).
  - split; [exact Hdup'|]. split; [exact Hraise|].
    exact (proj2 (parse_query_params_filter_once
                    N E FilterCore.parse Py.int
                    [("$top", [Some "x"])] [] "a eq 1" [] Hdup') _ Hraise).
Defined.

Lemma parse_skip_top_raise_exactly_witness :
  raises N E (_parse_skip N E Py.int "-1") Run.fresh_world
    (NoPositiveIntegerValue "$skip" "-1")
  /\ returns N E (_parse_top N E Py.int " 10 ") Run.fresh_world
       (with_options N (set_top N (Some 10%Z)) Run.fresh_world).
Proof.
  split.
  - destruct (parse_skip_top_raise_exactly N E Py.int "-1" Run.fresh_world)
      as [[H _] _].
    apply H. right. exists (-1)%Z. split; [reflexivity|lia].
  - destruct (parse_skip_top_raise_exactly N E Py.int " 10 " Run.fresh_world)
      as [_ [_ [H _]]].
    apply H. split; [reflexivity|lia].
Defined.

Lemma parse_format_raise_exactly_witness :
  raises N E (_parse_format N E "JSON") Run.fresh_world (UnsupportedFormat "JSON")
  /\ returns N E (_parse_format N E "json") Run.fresh_world
       (with_options N (set_format_ N (Some "json")) Run.fresh_world).
Proof.
  split.
  - destruct (parse_format_raise_exactly N E "JSON" Run.fresh_world)
      as [H _].
    apply H. simpl. intuition discriminate.
  - destruct (parse_format_raise_exactly N E "json" Run.fresh_world)
      as [_ [H _]].
    apply H. simpl. auto.
Defined.

Lemma parse_orderby_entries_witness :
  "name DESC, age" <> EmptyString
  /\ exists entries,
       orderby N (options N (snd (_parse_orderby N E "name DESC, age"
                                    Run.fresh_world)))
       = Some entries
       /\ length entries = 2.
Proof.
  assert (H : "name DESC, age" <> EmptyString) by discriminate.
  split; [exact H|].
  destruct (parse_orderby_entries N E "name DESC, age" Run.fresh_world H)
    as (entries & _ & Hset & Hlen & _).
  exists entries. split; [exact Hset|exact Hlen].
Defined.

Lemma parse_url_is_parse_query_string_witness :
  Urllib.urlparse "/Products?$top=5&$filter=a+eq+1#first"
  = Some {| scheme := EmptyString; netloc := EmptyString; path := "/Products"; params := EmptyString;
            query := "$top=5&$filter=a+eq+1"; fragment := "first" |}
  /\ Run.parse_url "/Products?$top=5&$filter=a+eq+1#first"
     = Run.parse_query_string "$top=5&$filter=a+eq+1".
Proof.
  split; [reflexivity|].
  exact (parse_url_is_parse_query_string N E FilterCore.parse Py.int
           Urllib.urlparse Urllib.parse_qs
           "/Products?$top=5&$filter=a+eq+1#first" _ eq_refl).
Defined.

Lemma parse_query_params_frame_witness :
  fst (Run.parse_query_params
         [("$top", [Some "5"; Some "x"]); ("custom", [Some "1"]);
          ("$skip", []); ("$count", [None; Some "true"])])
  = inr (set_top N (Some 5%Z) (default_options N))
  /\ at_default N Skip (set_top N (Some 5%Z) (default_options N))
  /\ at_default N Count (set_top N (Some 5%Z) (default_options N)).
Proof.
  assert (Hrun : fst (Run.parse_query_params
                        [("$top", [Some "5"; Some "x"]); ("custom", [Some "1"]);
                         ("$skip", []); ("$count", [None; Some "true"])])
                 = inr (set_top N (Some 5%Z) (default_options N)))
    by reflexivity.
  split; [exact Hrun|].
  destruct (parse_query_params_frame N E FilterCore.parse Py.int
              [("$top", [Some "5"; Some "x"]); ("custom", [Some "1"]);
               ("$skip", []); ("$count", [None; Some "true"])])
    as [H _].
  split.
  - apply (H Skip _ Hrun). intros values Hin. simpl in Hin.
    destruct Hin as [Hin|[Hin|[Hin|[Hin|[]]]]]; try discriminate;
      now injection Hin as <-.
  - apply (H Count _ Hrun). intros values Hin. simpl in Hin.
    destruct Hin as [Hin|[Hin|[Hin|[Hin|[]]]]]; try discriminate;
      now injection Hin as <-.
Defined.

Lemma and_binds_tighter_than_or_witness :
  well_formed a_eq_1 /\ well_formed name_has_foo /\ well_formed b_or_c
  /\ parse "a eq 1 or contains(Name,'foo') and (b ne null or Address/City eq 'Oslo')"
     = inr (Logical LogicalOp.or a_eq_1
              (Logical LogicalOp.and name_has_foo b_or_c)).
Proof.
  split; [exact a_eq_1_well_formed|].
  split; [exact name_has_foo_well_formed|].
  split; [exact b_or_c_well_formed|].
  destruct FilterCoreFacts.and_binds_tighter_than_or as [_ H].
  exact (proj1 (H a_eq_1 name_has_foo b_or_c a_eq_1_well_formed
                  name_has_foo_well_formed b_or_c_well_formed)).
Defined.

Lemma doubled_quote_is_one_quote_witness :
  path_ok ["Address"; "City"]
  /\ parse "Address/City ne 'it''s ''here'''"
     = inr (Comparison ["Address"; "City"] ComparisonOp.ne
              (Literal.String "it's 'here'"))
  /\ tokenize "a eq 1 and b eq"
     = inr [token Identifier "a" 0; token Operator "eq" 2;
            token NumberLiteral "1" 5; token LogicalKeyword "and" 7;
            token Identifier "b" 11; token Operator "eq" 13]
  /\ parse "a eq 1 and b eq 'it''s"
     = inl (LexError "unterminated string literal" (Some 16)).
Proof.
  assert (Hp : path_ok ["Address"; "City"]) by (repeat split).
  destruct FilterCoreFacts.doubled_quote_is_one_quote as [_ [H1 H2]].
  split; [exact Hp|].
  split; [exact (H1 ["Address"; "City"] ComparisonOp.ne "it's 'here'" Hp)|].
  split; [reflexivity|].
  exact (H2 "a eq 1 and b eq" _ "it's" eq_refl).
Defined.

Lemma parse_pretty_roundtrip_witness :
  parse "NOT (a eq 1   OR contains(Name,'foo'))"
  = inr (Unary UnaryOp.not (Logical LogicalOp.or a_eq_1 name_has_foo))
  /\ parse "not (a eq 1 or contains(Name,'foo'))"
     = inr (Unary UnaryOp.not (Logical LogicalOp.or a_eq_1 name_has_foo)).
Proof.
  assert (H : parse "NOT (a eq 1   OR contains(Name,'foo'))"
              = inr (Unary UnaryOp.not (Logical LogicalOp.or a_eq_1 name_has_foo)))
    by reflexivity.
  split; [exact H|].
  exact (proj1 (FilterCoreFacts.parse_pretty_roundtrip _ _ H)).
Defined.

(** The other examples of section 8 of the specification. *)
Example parse_left_associative :
  parse "a eq 1 and b eq 2 and c eq 3"
  = inr (Logical LogicalOp.and (Logical LogicalOp.and a_eq_1 b_eq_2) c_eq_3).
Proof. reflexivity. Qed.

Example parse_grouping :
  parse "(a eq 1 or b eq 2) and c eq 3"
  = inr (Logical LogicalOp.and (Logical LogicalOp.or a_eq_1 b_eq_2) c_eq_3).
Proof. reflexivity. Qed.

Example parse_negation_scope :
  parse "not a eq 1 and b eq 2"
  = inr (Logical LogicalOp.and (Unary UnaryOp.not a_eq_1) b_eq_2).
Proof. reflexivity. Qed.

Example parse_function_call_contains :
  parse "contains(Name,'foo')" = inr name_has_foo.
Proof. reflexivity. Qed.

(** Why the printer writes parentheses: the tree of a grouped expression
    is printed with its group, and the same text without the parentheses
    is another tree. *)
Example pretty_keeps_groups :
  pretty (Logical LogicalOp.and (Logical LogicalOp.or a_eq_1 b_eq_2) c_eq_3)
  = "(a eq 1 or b eq 2) and c eq 3"
  /\ parse "a eq 1 or b eq 2 and c eq 3"
     <> inr (Logical LogicalOp.and (Logical LogicalOp.or a_eq_1 b_eq_2)
               c_eq_3).
Proof. split; [reflexivity|discriminate]. Qed.

(** A whole URL. *)
Example parse_url_products :
  Run.parse_url "/Products?$count=TRUE&$top=5&$orderby=name desc,age&$select=a, b&x=1"
  = (inr {| count := true; expand := None; filter_ := None; format_ := None;
            orderby := Some [[("field", "name"); ("direction", "desc")];
                             [("field", "age"); ("direction", "asc")]];
            search := None; select := Some ["a"; "b"]; skip := None;
            top := Some 5%Z |}, []).
Proof. reflexivity. Qed.

(** A negative [$skip] is written to the options object before the
    assertion fails. *)
Example parse_skip_negative :
  _parse_skip N E Py.int "-3" Run.fresh_world
  = (inl (NoPositiveIntegerValue "$skip" "-3"),
     with_options N (set_skip N (Some (-3)%Z)) Run.fresh_world).
Proof. reflexivity. Qed.

End Runs.

(* ===================================================================== *)
(** * More facts about the string built-ins *)
(* ===================================================================== *)

Module PyMoreFacts.
Import Py StringFacts.

Ltac on_every_char c :=
  destruct c as [[] [] [] [] [] [] [] []]; try reflexivity; try discriminate.

(** ** Stripping *)

Lemma rstrip_cons (c : ascii) (s : string) :
  rstrip (String c s) =
  match rstrip s with
  | EmptyString => if isspace c then EmptyString else String c EmptyString
  | r => String c r
  end.
Proof. reflexivity. Qed.

Lemma rstrip_idempotent (s : string) : rstrip (rstrip s) = rstrip s.
Proof.
  induction s as [|c s IH]; [reflexivity|]. rewrite rstrip_cons.
  destruct (rstrip s) as [|d r] eqn:E.
  - destruct (isspace c) eqn:Hc; [reflexivity|].
    rewrite rstrip_cons. cbn [rstrip]. now rewrite Hc.
  - rewrite rstrip_cons, IH. reflexivity.
Qed.

Lemma lstrip_head (s : string) :
  match lstrip s with
  | EmptyString => True
  | String c _ => isspace c = false
  end.
Proof.
  induction s as [|c s IH]; [exact I|]. cbn [lstrip].
  destruct (isspace c) eqn:Hc; [exact IH|exact Hc].
Qed.

Lemma lstrip_fixed (c : ascii) (s : string) :
  isspace c = false -> lstrip (String c s) = String c s.
Proof. intros H. cbn [lstrip]. now rewrite H. Qed.

Lemma rstrip_keeps_head (c : ascii) (s : string) :
  isspace c = false -> exists r, rstrip (String c s) = String c r.
Proof.
  intros H. rewrite rstrip_cons. destruct (rstrip s) as [|d r].
  - rewrite H. now exists EmptyString.
  - now exists (String d r).
Qed.

(** [s.strip()] has nothing left to strip. *)
Lemma strip_trimmed (s : string) : trimmed (strip s).
Proof.
  unfold trimmed, strip. pose proof (lstrip_head s) as H.
  destruct (lstrip s) as [|c t]; [reflexivity|].
  destruct (rstrip_keeps_head c t H) as [r E]. rewrite E.
  rewrite (lstrip_fixed c r H), <- E. apply rstrip_idempotent.
Qed.

Lemma rstrip_snoc (s : string) (c : ascii) :
  isspace c = false ->
  rstrip (s ++ String c EmptyString) = (s ++ String c EmptyString)%string.
Proof.
  intros H. induction s as [|d s IH].
  - cbn [append]. rewrite rstrip_cons. cbn [rstrip]. now rewrite H.
  - cbn [append]. rewrite rstrip_cons, IH. now destruct s.
Qed.

Lemma lstrip_all_whitespace (s : string) :
  all_whitespace s = true -> lstrip s = EmptyString.
Proof.
  induction s as [|c s IH]; [reflexivity|]. cbn [all_whitespace lstrip].
  intros H. apply andb_true_iff in H as [Hc Hs]. now rewrite Hc, IH.
Qed.

Lemma strip_all_whitespace (s : string) :
  all_whitespace s = true -> strip s = EmptyString.
Proof. intros H. unfold strip. now rewrite lstrip_all_whitespace. Qed.

Lemma lstrip_pad (a s : string) :
  all_whitespace a = true -> lstrip (a ++ s) = lstrip s.
Proof.
  induction a as [|c a IH]; [reflexivity|]. cbn [all_whitespace append lstrip].
  intros H. apply andb_true_iff in H as [Hc Ha]. now rewrite Hc, IH.
Qed.

Lemma rstrip_all_whitespace (s : string) :
  all_whitespace s = true -> rstrip s = EmptyString.
Proof.
  induction s as [|c s IH]; [reflexivity|]. cbn [all_whitespace].
  intros H. apply andb_true_iff in H as [Hc Hs].
  now rewrite rstrip_cons, IH, Hc.
Qed.

Lemma rstrip_pad (s b : string) :
  all_whitespace b = true -> rstrip (s ++ b) = rstrip s.
Proof.
  intros Hb. induction s as [|c s IH].
  - cbn [append]. now rewrite rstrip_all_whitespace.
  - cbn [append]. now rewrite !rstrip_cons, IH.
Qed.

Lemma lstrip_append (s b : string) :
  all_whitespace b = true ->
  lstrip (s ++ b) = (lstrip s ++ b)%string
  \/ (lstrip (s ++ b) = EmptyString /\ lstrip s = EmptyString).
Proof.
  intros Hb. induction s as [|c s IH].
  - right. split; [|reflexivity]. cbn [append].
    now apply lstrip_all_whitespace.
  - cbn [append lstrip]. destruct (isspace c); [exact IH|now left].
Qed.

(** Whitespace around a text does not change what [strip] gives. *)
Lemma strip_pad (a s b : string) :
  all_whitespace a = true -> all_whitespace b = true ->
  strip (a ++ s ++ b) = strip s.
Proof.
  intros Ha Hb. unfold strip. rewrite lstrip_pad by exact Ha.
  destruct (lstrip_append s b Hb) as [E|[E1 E2]].
  - rewrite E. now apply rstrip_pad.
  - now rewrite E1, E2.
Qed.

(** ** Characters of a text *)

Lemma has_char_append (c : ascii) (a b : string) :
  has_char c (a ++ b) = has_char c a || has_char c b.
Proof.
  induction a as [|d a IH]; [reflexivity|]. cbn [append has_char].
  now rewrite IH, orb_assoc.
Qed.

Lemma has_char_lstrip (c : ascii) (s : string) :
  has_char c s = false -> has_char c (lstrip s) = false.
Proof.
  induction s as [|d s IH]; [reflexivity|]. cbn [lstrip].
  destruct (isspace d); [|auto]. cbn [has_char]. intros H.
  apply orb_false_iff in H as [_ H]. auto.
Qed.

Lemma has_char_rstrip (c : ascii) (s : string) :
  has_char c s = false -> has_char c (rstrip s) = false.
Proof.
  induction s as [|d s IH]; [reflexivity|]. cbn [has_char]. intros H.
  apply orb_false_iff in H as [Hd Hs]. rewrite rstrip_cons.
  specialize (IH Hs). destruct (rstrip s) as [|e r].
  - destruct (isspace d); [reflexivity|]. cbn [has_char]. now rewrite Hd.
  - cbn [has_char] in *. now rewrite Hd, IH.
Qed.

Lemma has_char_strip (c : ascii) (s : string) :
  has_char c s = false -> has_char c (strip s) = false.
Proof. intros H. unfold strip. now apply has_char_rstrip, has_char_lstrip. Qed.

Lemma no_whitespace_append (a b : string) :
  no_whitespace (a ++ b) = no_whitespace a && no_whitespace b.
Proof.
  induction a as [|c a IH]; [reflexivity|]. cbn [append no_whitespace].
  now rewrite IH, andb_assoc.
Qed.

Lemma isspace_lower_char (c : ascii) : isspace (lower_char c) = isspace c.
Proof. on_every_char c. Qed.

Lemma no_whitespace_lower (s : string) :
  no_whitespace (lower s) = no_whitespace s.
Proof.
  induction s as [|c s IH]; [reflexivity|]. cbn [lower no_whitespace].
  now rewrite isspace_lower_char, IH.
Qed.

Lemma no_whitespace_no_space (s : string) :
  no_whitespace s = true -> has_char " " s = false.
Proof.
  induction s as [|c s IH]; [reflexivity|]. cbn [no_whitespace has_char].
  intros H. apply andb_true_iff in H as [Hc Hs]. rewrite (IH Hs).
  destruct (Ascii.eqb_spec c " ") as [->|]; [discriminate|reflexivity].
Qed.

Lemma no_whitespace_trimmed (s : string) :
  no_whitespace s = true -> trimmed s.
Proof.
  unfold trimmed, strip. destruct s as [|c s]; [reflexivity|].
  cbn [no_whitespace]. intros H. apply andb_true_iff in H as [Hc Hs].
  apply negb_true_iff in Hc. rewrite (lstrip_fixed c s Hc).
  revert c Hc. induction s as [|d s IH]; intros c Hc.
  - rewrite rstrip_cons. cbn [rstrip]. now rewrite Hc.
  - cbn [no_whitespace] in Hs. apply andb_true_iff in Hs as [Hd Hs].
    apply negb_true_iff in Hd. rewrite rstrip_cons, (IH Hs d Hd).
    reflexivity.
Qed.

Lemma length_lower (s : string) : String.length (lower s) = String.length s.
Proof. induction s as [|c s IH]; [reflexivity|]. cbn. now rewrite IH. Qed.

(** ** Splitting and joining *)

Lemma split_items_clean (sep : ascii) (s : string) :
  Forall (fun item => has_char sep item = false) (split sep s).
Proof.
  induction s as [|c s IH]; [now repeat constructor|]. cbn [split].
  destruct (Ascii.eqb c sep) eqn:Hc.
  - constructor; [reflexivity|exact IH].
  - destruct (split sep s) as [|h t]; [now repeat constructor; cbn; rewrite Hc|].
    inversion IH as [|? ? Hh Ht]; subst. constructor; [|exact Ht].
    cbn [has_char]. now rewrite Hc, Hh.
Qed.

Lemma split_clean (sep : ascii) (s : string) :
  has_char sep s = false -> split sep s = [s].
Proof.
  induction s as [|c s IH]; [reflexivity|]. cbn [has_char split]. intros H.
  apply orb_false_iff in H as [Hc Hs]. now rewrite Hc, (IH Hs).
Qed.

Lemma split_append_sep (sep : ascii) (a b : string) :
  has_char sep a = false ->
  split sep (a ++ String sep b) = a :: split sep b.
Proof.
  induction a as [|c a IH].
  - intros _. cbn [append split]. now rewrite Ascii.eqb_refl.
  - cbn [has_char append split]. intros H.
    apply orb_false_iff in H as [Hc Ha]. now rewrite Hc, (IH Ha).
Qed.

(** Joining and splitting again gives the items back. *)
Lemma split_join (sep : ascii) (items : list string) :
  items <> [] ->
  Forall (fun item => has_char sep item = false) items ->
  split sep (join sep items) = items.
Proof.
  induction items as [|x rest IH]; [congruence|]. intros _ H.
  inversion H as [|? ? Hx Hrest]; subst.
  destruct rest as [|y rest].
  - cbn [join]. now apply split_clean.
  - change (join sep (x :: y :: rest))
      with (x ++ String sep (join sep (y :: rest)))%string.
    rewrite split_append_sep by exact Hx. f_equal. apply IH; [discriminate|].
    exact Hrest.
Qed.

Lemma join_empty (sep : ascii) (items : list string) :
  join sep items = EmptyString ->
  items = [] \/ items = [EmptyString].
Proof.
  destruct items as [|x [|y rest]]; [now left| |].
  - cbn [join]. intros ->. now right.
  - change (join sep (x :: y :: rest))
      with (x ++ String sep (join sep (y :: rest)))%string.
    destruct x; discriminate.
Qed.

Lemma length_split (sep : ascii) (s : string) :
  1 <= length (split sep s).
Proof.
  pose proof (PyFacts.split_nonempty sep s).
  destruct (split sep s); [congruence|simpl; lia].
Qed.

(** ** Replacing *)

Lemma startswith_append (p t : string) : startswith (p ++ t) p = true.
Proof.
  induction p as [|c p IH]; [now destruct t|]. cbn [append startswith].
  now rewrite Ascii.eqb_refl, IH.
Qed.

Lemma replace_from_skip (old new r t : string) :
  replace_from old new (String.length r) (r ++ t) = replace_from old new 0 t.
Proof.
  induction r as [|c r IH]; [reflexivity|].
  cbn [String.length append replace_from]. exact IH.
Qed.

Lemma replace_from_match (c : ascii) (r new t : string) :
  replace_from (String c r) new 0 (String c r ++ t)
  = (new ++ replace_from (String c r) new 0 t)%string.
Proof.
  cbn [append]. cbn [replace_from].
  change (String c (r ++ t)) with (String c r ++ t)%string.
  rewrite startswith_append. cbn [String.length Nat.sub].
  now rewrite Nat.sub_0_r, replace_from_skip.
Qed.

Lemma replace_from_other (c : ascii) (r new f t : string) :
  has_char c f = false ->
  replace_from (String c r) new 0 (f ++ t)
  = (f ++ replace_from (String c r) new 0 t)%string.
Proof.
  induction f as [|d f IH]; [reflexivity|]. cbn [has_char]. intros H.
  apply orb_false_iff in H as [Hd Hf].
  cbn [append replace_from startswith].
  rewrite Ascii.eqb_sym, Hd. cbn [andb]. now rewrite (IH Hf).
Qed.

Lemma replace_from_end (old new : string) :
  replace_from old new 0 EmptyString = EmptyString.
Proof. reflexivity. Qed.

(** ** Suffixes *)

Lemma append_suffix_eq (a b x y : string) :
  (a ++ x)%string = (b ++ y)%string ->
  String.length x = String.length y -> a = b /\ x = y.
Proof.
  revert b. induction a as [|c a IH]; intros b H Hlen.
  - destruct b as [|d b]; [auto|]. cbn [append] in H. subst x.
    cbn [String.length] in Hlen. rewrite length_append in Hlen. lia.
  - destruct b as [|d b].
    + cbn [append] in H. subst y. cbn [String.length] in Hlen.
      rewrite length_append in Hlen. lia.
    + cbn [append] in H. injection H as -> H.
      destruct (IH b H Hlen) as [-> ->]. auto.
Qed.


(** ** Letter case *)

Lemma lower_char_space (c : ascii) : lower_char c = " "%char -> c = " "%char.
Proof.
  intros H. destruct c as [[] [] [] [] [] [] [] []];
    vm_compute in H; try discriminate H; reflexivity.
Qed.

Lemma lower_char_letter (c l u : ascii) :
  lower_char l = l -> lower_char u = l -> l <> u ->
  (forall d, lower_char d = l -> d = l \/ d = u) ->
  lower_char c = l <-> (c = l \/ c = u).
Proof.
  intros Hl Hu _ Hall. split; [apply Hall|]. now intros [->| ->].
Qed.

Lemma lower_char_t (c : ascii) :
  lower_char c = "t"%char <-> (c = "t" \/ c = "T")%char.
Proof.
  split.
  - intros H. destruct c as [[] [] [] [] [] [] [] []];
      vm_compute in H; try discriminate H; auto.
  - now intros [->| ->].
Qed.

Lemma lower_char_r (c : ascii) :
  lower_char c = "r"%char <-> (c = "r" \/ c = "R")%char.
Proof.
  split.
  - intros H. destruct c as [[] [] [] [] [] [] [] []];
      vm_compute in H; try discriminate H; auto.
  - now intros [->| ->].
Qed.

Lemma lower_char_u (c : ascii) :
  lower_char c = "u"%char <-> (c = "u" \/ c = "U")%char.
Proof.
  split.
  - intros H. destruct c as [[] [] [] [] [] [] [] []];
      vm_compute in H; try discriminate H; auto.
  - now intros [->| ->].
Qed.

Lemma lower_char_e (c : ascii) :
  lower_char c = "e"%char <-> (c = "e" \/ c = "E")%char.
Proof.
  split.
  - intros H. destruct c as [[] [] [] [] [] [] [] []];
      vm_compute in H; try discriminate H; auto.
  - now intros [->| ->].
Qed.

(** [value.lower() == 'true'], letter by letter. *)
Lemma lower_is_true (value : string) :
  lower value = "true"
  <-> exists c1 c2 c3 c4 : ascii,
        value = String c1 (String c2 (String c3 (String c4 EmptyString)))
        /\ (c1 = "t" \/ c1 = "T")%char /\ (c2 = "r" \/ c2 = "R")%char
        /\ (c3 = "u" \/ c3 = "U")%char /\ (c4 = "e" \/ c4 = "E")%char.
Proof.
  split.
  - destruct value as [|c1 [|c2 [|c3 [|c4 [|c5 rest]]]]]; try discriminate.
    cbn [lower]. intros [= H1 H2 H3 H4].
    exists c1, c2, c3, c4. split; [reflexivity|].
    now rewrite <- lower_char_t, <- lower_char_r, <- lower_char_u,
      <- lower_char_e.
  - intros (c1 & c2 & c3 & c4 & -> & H1 & H2 & H3 & H4). cbn [lower].
    apply lower_char_t in H1. apply lower_char_r in H2.
    apply lower_char_u in H3. apply lower_char_e in H4.
    now rewrite H1, H2, H3, H4.
Qed.

Lemma lower_space_head (s t : string) :
  lower s = String " " t ->
  exists rest, s = String " " rest /\ lower rest = t.
Proof.
  destruct s as [|c rest]; [discriminate|]. cbn [lower].
  intros [= Hc Ht]. apply lower_char_space in Hc. subst c. now exists rest.
Qed.

(** ** Texts that stripping leaves alone *)

Lemma rstrip_append_fixed (a b : string) :
  b <> EmptyString -> rstrip b = b -> rstrip (a ++ b) = (a ++ b)%string.
Proof.
  intros Hb Hfix. induction a as [|c a IH]; [exact Hfix|].
  cbn [append]. rewrite rstrip_cons, IH.
  destruct (a ++ b)%string eqn:E; [|reflexivity].
  destruct a; [cbn in E; congruence|discriminate].
Qed.

Lemma no_whitespace_rstrip (s : string) :
  no_whitespace s = true -> rstrip s = s.
Proof.
  intros H. pose proof (no_whitespace_trimmed s H) as Ht.
  unfold trimmed, strip in Ht. destruct s as [|c s]; [reflexivity|].
  cbn [no_whitespace] in H. apply andb_true_iff in H as [Hc _].
  apply negb_true_iff in Hc. now rewrite (lstrip_fixed c s Hc) in Ht.
Qed.

(** A name without whitespace, a space, a word without whitespace. *)
Lemma strip_two_words (f rest : string) :
  f <> EmptyString -> no_whitespace f = true ->
  rest <> EmptyString -> no_whitespace rest = true ->
  strip (f ++ String " " rest) = (f ++ String " " rest)%string.
Proof.
  intros Hf Hfw Hr Hrw. unfold strip.
  destruct f as [|c f]; [congruence|]. cbn [no_whitespace] in Hfw.
  apply andb_true_iff in Hfw as [Hc _]. apply negb_true_iff in Hc.
  cbn [append]. rewrite (lstrip_fixed c _ Hc).
  change (String c (f ++ String " " rest))
    with (String c f ++ String " " rest)%string.
  replace (String c f ++ String " " rest)%string
    with ((String c f ++ " ") ++ rest)%string
    by (now rewrite append_assoc).
  apply rstrip_append_fixed; [exact Hr|now apply no_whitespace_rstrip].
Qed.

(** ** Suffix tests on two words *)

Lemma endswith_false (s x : string) :
  (forall pre : string, s <> (pre ++ x)%string) -> endswith s x = false.
Proof.
  intros H. destruct (endswith s x) eqn:E; [|reflexivity].
  apply PyFacts.endswith_spec in E as [pre E]. now destruct (H pre).
Qed.

Lemma endswith_append (pre x : string) : endswith (pre ++ x) x = true.
Proof. apply PyFacts.endswith_spec. now exists pre. Qed.

Lemma no_whitespace_not_suffix (s pre x : string) :
  no_whitespace s = true -> no_whitespace x = false ->
  s <> (pre ++ x)%string.
Proof.
  intros Hs Hx ->. rewrite no_whitespace_append, Hx, andb_false_r in Hs.
  discriminate.
Qed.

Lemma desc_not_asc (p pre : string) :
  (p ++ " desc")%string <> (pre ++ " asc")%string.
Proof.
  intros H.
  replace (p ++ " desc")%string with ((p ++ " ") ++ "desc")%string in H
    by (now rewrite append_assoc).
  apply append_suffix_eq in H as [_ H]; [discriminate|reflexivity].
Qed.

(** ** Replacing the sort direction *)

Lemma startswith_same_length (s p : string) :
  String.length s = String.length p ->
  startswith s p = String.eqb p s.
Proof.
  revert s. induction p as [|a p IH]; intros [|b s] H; try discriminate;
    [reflexivity|].
  cbn [startswith String.eqb]. cbn [String.length] in H.
  rewrite (IH s) by lia. now destruct (Ascii.eqb a b).
Qed.

(** Removing every [" " + d] from [f + " " + rest], when neither [f] nor
    [rest] has a space and [rest] is as long as [d]. *)
Lemma replace_direction (f rest d : string) :
  has_char " " f = false -> has_char " " rest = false ->
  String.length rest = String.length d ->
  replace (f ++ String " " rest) (String " " d) EmptyString
  = if String.eqb d rest then f else (f ++ String " " rest)%string.
Proof.
  intros Hf Hr Hlen. unfold replace.
  rewrite (replace_from_other " " d EmptyString f _ Hf).
  destruct (String.eqb_spec d rest) as [->|Hne].
  - rewrite <- (append_nil_r (String " " rest)) at 2.
    rewrite replace_from_match. cbn [append replace_from].
    now rewrite append_nil_r.
  - f_equal. cbn [replace_from startswith].
    rewrite Ascii.eqb_refl, (startswith_same_length rest d Hlen).
    destruct (String.eqb_spec d rest) as [E|_]; [congruence|].
    cbn [andb]. f_equal.
    rewrite <- (append_nil_r rest) at 1.
    rewrite (replace_from_other " " d EmptyString rest _ Hr).
    cbn [replace_from]. now rewrite append_nil_r.
Qed.

Lemma join_not_empty (sep : ascii) (items : list string) :
  items <> [] -> Forall (fun i => i <> EmptyString) items ->
  join sep items <> EmptyString.
Proof.
  intros Hne H Hj. apply join_empty in Hj as [->| ->]; [congruence|].
  inversion H; subst. congruence.
Qed.

Lemma all_whitespace_no_comma (a : string) :
  all_whitespace a = true -> has_char "," a = false.
Proof.
  induction a as [|c a IH]; [reflexivity|]. cbn [all_whitespace has_char].
  intros H. apply andb_true_iff in H as [Hc Ha]. rewrite (IH Ha).
  destruct (Ascii.eqb_spec c ",") as [->|]; [discriminate|reflexivity].
Qed.


Lemma lower_char_comma (c : ascii) :
  Ascii.eqb (lower_char c) "," = Ascii.eqb c ",".
Proof. on_every_char c. Qed.

Lemma has_comma_lower (s : string) :
  has_char "," (lower s) = has_char "," s.
Proof.
  induction s as [|c s IH]; [reflexivity|]. cbn [lower has_char].
  now rewrite lower_char_comma, IH.
Qed.

End PyMoreFacts.

(* ===================================================================== *)
(** * The loop and the handlers of query_parser.py as a whole *)
(* ===================================================================== *)

Section QueryParserMore.

Variable FilterNode : Type.
Variable FilterError : Type.
Variable filter_parse : string -> FilterError + FilterNode.
Variable int : string -> option Z.

Local Abbreviation World := (World FilterNode).
Local Abbreviation Options := (ODataQueryOptions FilterNode).
Local Abbreviation exn := (exn FilterError).
Local Abbreviation M := (M FilterNode FilterError).
Local Abbreviation with_options := (with_options FilterNode).
Local Abbreviation raises := (raises FilterNode FilterError).
Local Abbreviation returns := (returns FilterNode FilterError).
Local Abbreviation parse_count := (_parse_count FilterNode FilterError).
Local Abbreviation parse_expand := (_parse_expand FilterNode FilterError).
Local Abbreviation parse_filter :=
  (_parse_filter FilterNode FilterError filter_parse).
Local Abbreviation parse_format := (_parse_format FilterNode FilterError).
Local Abbreviation parse_orderby := (_parse_orderby FilterNode FilterError).
Local Abbreviation parse_search := (_parse_search FilterNode FilterError).
Local Abbreviation parse_select := (_parse_select FilterNode FilterError).
Local Abbreviation parse_skip := (_parse_skip FilterNode FilterError int).
Local Abbreviation parse_top := (_parse_top FilterNode FilterError int).
Local Abbreviation parse_params :=
  (parse_params FilterNode FilterError filter_parse int).
Local Abbreviation parse_param :=
  (parse_param FilterNode FilterError filter_parse int).
Local Abbreviation supported_options :=
  (supported_options FilterNode FilterError filter_parse int).
Local Abbreviation parse_query_params :=
  (parse_query_params FilterNode FilterError filter_parse int).
Local Abbreviation parse_query_string :=
  (parse_query_string FilterNode FilterError filter_parse int).
Local Abbreviation parse_url :=
  (parse_url FilterNode FilterError filter_parse int).
Local Abbreviation fresh_world := (fresh_world FilterNode).
Local Abbreviation default_options := (default_options FilterNode).
Local Abbreviation same_field := (same_field FilterNode).
Local Abbreviation accepts := (accepts FilterNode FilterError filter_parse int).
Local Abbreviation all_accepted :=
  (all_accepted FilterNode FilterError filter_parse int).
Local Abbreviation rejects := (rejects FilterNode FilterError filter_parse int).
Local Abbreviation options_of :=
  (options_of FilterNode FilterError filter_parse int).
Local Abbreviation valid_options := (valid_options FilterNode).
Local Abbreviation is_parser_error := (is_parser_error FilterError).

(** ** What each handler does *)

Lemma parse_count_run (value : string) (w : World) :
  parse_count value w =
  (inr tt,
   with_options (set_count _ (String.eqb (Py.lower value) "true")) w).
Proof. reflexivity. Qed.

Lemma parse_expand_run (value : string) (w : World) :
  parse_expand value w =
  (inr tt,
   match comma_list value with
   | Some items => with_options (set_expand _ (Some items)) w
   | None => w
   end).
Proof. unfold _parse_expand, comma_list. now destruct (truthy value). Qed.

Lemma parse_select_run (value : string) (w : World) :
  parse_select value w =
  (inr tt,
   match comma_list value with
   | Some items => with_options (set_select _ (Some items)) w
   | None => w
   end).
Proof. unfold _parse_select, comma_list. now destruct (truthy value). Qed.

Lemma parse_search_run (value : string) (w : World) :
  parse_search value w =
  (inr tt, with_options (set_search _ (Some (Py.strip value))) w).
Proof. reflexivity. Qed.

Lemma parse_orderby_run (value : string) (w : World) :
  parse_orderby value w =
  (inr tt,
   if truthy value
   then with_options
          (set_orderby _ (Some (map orderby_entry (Py.split "," value)))) w
   else w).
Proof. unfold _parse_orderby. now destruct (truthy value). Qed.

(** The nine handlers, by key. *)
Lemma handler_cases (param : string) (h : string -> M unit)
    (P : string -> (string -> M unit) -> Prop) :
  lookup param supported_options = Some h ->
  P "$count" parse_count -> P "$expand" parse_expand ->
  P "$filter" parse_filter -> P "$format" parse_format ->
  P "$orderby" parse_orderby -> P "$search" parse_search ->
  P "$select" parse_select -> P "$skip" parse_skip -> P "$top" parse_top ->
  P param h.
Proof.
  intros H. apply lookup_supported in H.
  repeat destruct H as [[-> ->]|H]; try destruct H as [-> ->]; auto.
Qed.


Lemma handler_returns_iff (param : string) (h : string -> M unit)
    (value : string) (w : World) :
  lookup param supported_options = Some h ->
  (exists w', h value w = (inr tt, w')) <-> accepts param value = true.
Proof.
  intros H.
  apply (handler_cases param h
           (fun k h => (exists w', h value w = (inr tt, w'))
                       <-> accepts k value = true) H);
    unfold accepts; cbn [String.eqb Ascii.eqb Bool.eqb orb].
  - rewrite parse_count_run. split; [reflexivity|]. intros _. eauto.
  - rewrite parse_expand_run. split; [reflexivity|]. intros _. eauto.
  - rewrite parse_filter_run. cbv zeta.
    destruct (filter_parse value); split; try discriminate; eauto.
    intros [w' E]. discriminate.
  - rewrite parse_format_run.
    destruct (existsb _ _); split; try discriminate; eauto.
    intros [w' E]. discriminate.
  - rewrite parse_orderby_run. split; [reflexivity|]. intros _. eauto.
  - rewrite parse_search_run. split; [reflexivity|]. intros _. eauto.
  - rewrite parse_select_run. split; [reflexivity|]. intros _. eauto.
  - rewrite parse_skip_run. destruct (int value) as [n|].
    + destruct (0 <=? n)%Z; split; try discriminate; eauto.
      intros [w' E]. discriminate.
    + split; [intros [w' E]|]; discriminate.
  - rewrite parse_top_run. destruct (int value) as [n|].
    + destruct (0 <=? n)%Z; split; try discriminate; eauto.
      intros [w' E]. discriminate.
    + split; [intros [w' E]|]; discriminate.
Qed.

Ltac no_rejection :=
  let H := fresh in
  intros [[[H|H] _]|[[H _]|[H _]]]; discriminate H.

Lemma integer_rejection (param value : string) (e : exn)
    (c : M unit) (w : World)
    (set : option Z -> Options -> Options) :
  param = "$skip" \/ param = "$top" ->
  c w =
    match int value with
    | Some n =>
        (if (0 <=? n)%Z then inr tt
         else inl (NoPositiveIntegerValue param value),
         with_options (set (Some n)) w)
    | None => (inl (NoPositiveIntegerValue param value), w)
    end ->
  fst (c w) = inl e <-> rejects param value e.
Proof.
  intros Hp ->. unfold rejects. destruct (int value) as [n|]; cbn [fst].
  - destruct (Z.leb_spec 0 n) as [Hn|Hn]; split.
    + discriminate.
    + intros [(_ & _ & [H|(k & H & Hk)])|[(-> & _)|(-> & _)]];
        try discriminate; try (destruct Hp; discriminate).
      injection H as <-. lia.
    + intros [= <-]. left. split; [exact Hp|]. split; [reflexivity|].
      right. now exists n.
    + intros [(_ & -> & _)|[(-> & _)|(-> & _)]];
        try reflexivity; destruct Hp; discriminate.
  - split.
    + intros [= <-]. left. auto.
    + intros [(_ & -> & _)|[(-> & _)|(-> & _)]];
        try reflexivity; destruct Hp; discriminate.
Qed.

Lemma handler_raises_iff (param : string) (h : string -> M unit)
    (value : string) (w : World) (e : exn) :
  lookup param supported_options = Some h ->
  fst (h value w) = inl e <-> rejects param value e.
Proof.
  intros H.
  apply (handler_cases param h
           (fun k h => fst (h value w) = inl e <-> rejects k value e) H).
  - rewrite parse_count_run. split; [discriminate|no_rejection].
  - rewrite parse_expand_run. split; [discriminate|no_rejection].
  - rewrite parse_filter_run. cbv zeta. unfold rejects.
    destruct (filter_parse value) as [fe|node]; cbn [fst]; split.
    + intros [= <-]. right. right. split; [reflexivity|]. now exists fe.
    + intros [[[H1|H1] _]|[[H1 _]|[_ (fe' & [= <-] & ->)]]];
        try discriminate H1. reflexivity.
    + discriminate.
    + intros [[[H1|H1] _]|[[H1 _]|[_ (fe' & H1 & _)]]]; discriminate H1.
  - rewrite parse_format_run. unfold rejects.
    pose proof (mem_iff_In value ["json"; "xml"; "csv"; "tsv"]) as Hmem.
    destruct (existsb _ _); cbn [fst]; split.
    + discriminate.
    + intros [[[H1|H1] _]|[[_ [_ H1]]|[H1 _]]]; try discriminate H1.
      exfalso. apply H1. now apply Hmem.
    + intros [= <-]. right. left. split; [reflexivity|].
      split; [reflexivity|]. intros Hin. apply Hmem in Hin. discriminate.
    + intros [[[H1|H1] _]|[[_ [-> _]]|[H1 _]]]; try discriminate H1.
      reflexivity.
  - rewrite parse_orderby_run. split; [discriminate|no_rejection].
  - rewrite parse_search_run. split; [discriminate|no_rejection].
  - rewrite parse_select_run. split; [discriminate|no_rejection].
  - apply (integer_rejection "$skip" value e (parse_skip value) w
             (set_skip _)); [now left|apply parse_skip_run].
  - apply (integer_rejection "$top" value e (parse_top value) w
             (set_top _)); [now right|apply parse_top_run].
Qed.

Lemma accepts_unsupported (param value : string) :
  lookup param supported_options = None -> accepts param value = true.
Proof.
  intros H. unfold accepts.
  destruct (String.eqb_spec param "$skip") as [->|_]; [discriminate|].
  destruct (String.eqb_spec param "$top") as [->|_]; [discriminate|].
  destruct (String.eqb_spec param "$format") as [->|_]; [discriminate|].
  destruct (String.eqb_spec param "$filter") as [->|_]; [discriminate|].
  reflexivity.
Qed.

Lemma rejects_supported (param value : string) (e : exn) :
  rejects param value e ->
  exists h, lookup param supported_options = Some h.
Proof.
  intros [[[->| ->] _]|[[-> _]|[-> _]]]; eexists; reflexivity.
Qed.

Lemma parse_param_returns_iff (param : string)
    (values : list (option string)) (w : World) :
  (exists w', parse_param param values w = (inr tt, w'))
  <-> match first_value values with
      | Some value => accepts param value = true
      | None => True
      end.
Proof.
  unfold parse_param.
  destruct (lookup param supported_options) as [h|] eqn:Eh.
  - destruct (first_value values) as [value|].
    + now apply handler_returns_iff.
    + split; [auto|]. intros _. now exists w.
  - destruct (first_value values) as [value|].
    + rewrite accepts_unsupported by exact Eh.
      split; [auto|]. intros _. now exists w.
    + split; [auto|]. intros _. now exists w.
Qed.

Lemma parse_param_raises_iff (param : string)
    (values : list (option string)) (w : World) (e : exn) :
  fst (parse_param param values w) = inl e
  <-> exists value, first_value values = Some value
                    /\ rejects param value e.
Proof.
  unfold parse_param.
  destruct (lookup param supported_options) as [h|] eqn:Eh.
  - destruct (first_value values) as [value|].
    + rewrite (handler_raises_iff param h value w e Eh). split.
      * intros H. now exists value.
      * now intros (v & [= <-] & H).
    + split; [discriminate|]. now intros (v & H & _).
  - split; [destruct (first_value values); discriminate|].
    intros (v & _ & H). apply rejects_supported in H as [h H]. congruence.
Qed.

Lemma parse_param_unit (param : string) (values : list (option string))
    (w : World) (x : unit) (w' : World) :
  parse_param param values w = (inr x, w') ->
  parse_param param values w = (inr tt, w').
Proof. now destruct x. Qed.

(** The loop returns normally exactly when every entry is accepted. *)
Lemma parse_params_returns_iff (m : QueryParams) :
  forall w,
    (exists w', parse_params m w = (inr tt, w')) <-> all_accepted m = true.
Proof.
  induction m as [|[param values] rest IH]; intros w.
  - split; [reflexivity|]. intros _. now exists w.
  - rewrite parse_params_cons. unfold all_accepted.
    cbn [forallb fst snd]. rewrite andb_true_iff.
    fold (all_accepted rest).
    pose proof (parse_param_returns_iff param values w) as Hstep.
    destruct (parse_param param values w) as [[e|[]] w1].
    + split; [intros [w' E]; discriminate|]. intros [H _].
      destruct (first_value values) as [value|].
      * apply Hstep in H as [w' E]. discriminate.
      * destruct (proj2 Hstep I) as [w' E]. discriminate.
    + rewrite IH. split.
      * intros H. split; [|exact H].
        destruct (first_value values); [|reflexivity].
        apply Hstep. now exists w1.
      * now intros [_ H].
Qed.

(** The loop raises exactly the error of the first entry that is not
    accepted. *)
Lemma parse_params_raises_iff (m : QueryParams) (e : exn) :
  forall w,
    fst (parse_params m w) = inl e
    <-> exists before param values value after,
          m = before ++ (param, values) :: after
          /\ all_accepted before = true
          /\ first_value values = Some value
          /\ rejects param value e.
Proof.
  induction m as [|[param values] rest IH]; intros w.
  - split; [discriminate|].
    intros (before & p & vs & v & after & H & _). now destruct before.
  - rewrite parse_params_cons.
    pose proof (parse_param_raises_iff param values w e) as Hraise.
    pose proof (parse_param_returns_iff param values w) as Hret.
    destruct (parse_param param values w) as [[e1|[]] w1]; cbn [fst] in *.
    + split.
      * intros [= ->]. destruct (proj1 Hraise eq_refl) as (v & Hv & Hr).
        exists [], param, values, v, rest. auto.
      * intros (before & p & vs & v & after & Hm & Hacc & Hv & Hr).
        destruct before as [|[p0 vs0] before].
        -- injection Hm as <- <- <-. apply Hraise. now exists v.
        -- injection Hm as <- <- ->. exfalso.
           unfold all_accepted in Hacc. cbn [forallb fst snd] in Hacc.
           apply andb_true_iff in Hacc as [Hacc _].
           assert (Hok : match first_value values with
                         | Some value => accepts param value = true
                         | None => True
                         end)
             by (destruct (first_value values); auto).
           apply Hret in Hok as [w' E]. discriminate.
    + rewrite IH. split.
      * intros (before & p & vs & v & after & -> & Hacc & Hv & Hr).
        exists ((param, values) :: before), p, vs, v, after.
        split; [reflexivity|]. split; [|auto].
        unfold all_accepted. cbn [forallb fst snd].
        apply andb_true_iff. split; [|exact Hacc].
        destruct (first_value values); [|reflexivity].
        apply Hret. now exists w1.
      * intros (before & p & vs & v & after & Hm & Hacc & Hv & Hr).
        destruct before as [|[p0 vs0] before].
        -- injection Hm as <- <- <-. exfalso.
           assert (Hbad : fst (@inr exn unit tt, w1) = inl e)
             by (apply Hraise; now exists v).
           discriminate.
        -- injection Hm as <- <- ->.
           exists before, p, vs, v, after. split; [reflexivity|].
           unfold all_accepted in Hacc. cbn [forallb fst snd] in Hacc.
           apply andb_true_iff in Hacc as [_ Hacc]. auto.
Qed.


(** ** The record as a function of the mapping *)

Lemma lookup_In {A : Type} (k : string) (v : A) (d : list (string * A)) :
  lookup k d = Some v -> In (k, v) d.
Proof.
  induction d as [|[k0 v0] d IH]; [discriminate|]. cbn [lookup].
  destruct (String.eqb_spec k0 k) as [->|_].
  - intros [= ->]. now left.
  - intros H. right. auto.
Qed.

Lemma lookup_None {A : Type} (k : string) (d : list (string * A)) :
  lookup k d = None -> ~ In k (keys d).
Proof.
  induction d as [|[k0 v0] d IH]; [auto|]. cbn [lookup].
  destruct (String.eqb_spec k0 k) as [->|Hk]; [discriminate|].
  intros H [E|Hin]; [now apply Hk|now apply IH].
Qed.

Lemma In_lookup {A : Type} (k : string) (v : A) (d : list (string * A)) :
  NoDup (keys d) -> In (k, v) d -> lookup k d = Some v.
Proof.
  induction d as [|[k0 v0] d IH]; [now intros _ []|].
  cbn [keys map fst]. intros Hd [E|Hin].
  - injection E as -> ->. cbn [lookup]. now rewrite String.eqb_refl.
  - cbn [lookup]. inversion Hd as [|? ? Hnot Hd']; subst.
    destruct (String.eqb_spec k0 k) as [->|_].
    + exfalso. apply Hnot. now apply (key_of_item k v).
    + now apply IH.
Qed.

Lemma same_all_fields (o o' : Options) :
  (forall f, same_field f o o') -> o = o'.
Proof.
  intros H. destruct o, o'.
  pose proof (H Count). pose proof (H Expand). pose proof (H Filter_).
  pose proof (H Format_). pose proof (H Orderby). pose proof (H Search).
  pose proof (H Select). pose proof (H Skip). pose proof (H Top).
  simpl in *. congruence.
Qed.

Lemma same_field_sym (f : OptionField) (a b : Options) :
  same_field f a b -> same_field f b a.
Proof. destruct f; simpl; congruence. Qed.

(** A field of [options_of] depends on the first value of its key only. *)
Lemma options_of_field (f : OptionField) (m m' : QueryParams) :
  first_of m (key_of f) = first_of m' (key_of f) ->
  same_field f (options_of m) (options_of m').
Proof. destruct f; simpl; intros ->; reflexivity. Qed.

Lemma options_of_default (f : OptionField) (m : QueryParams) :
  first_of m (key_of f) = None ->
  same_field f (options_of m) default_options.
Proof. destruct f; simpl; intros ->; reflexivity. Qed.

Lemma first_of_single (k v : string) :
  first_of [(k, [Some v])] k = Some v.
Proof. unfold first_of. cbn [lookup]. now rewrite String.eqb_refl. Qed.

Lemma lookup_key_of (f : OptionField) :
  exists h, lookup (key_of f) supported_options = Some h.
Proof. destruct f; eexists; reflexivity. Qed.

(** What the handler of a key leaves in the field of that key, when the
    field held its default before. *)
Lemma handler_field (f : OptionField) (h : string -> M unit)
    (value : string) (w w' : World) :
  lookup (key_of f) supported_options = Some h ->
  same_field f (options _ w) default_options ->
  h value w = (inr tt, w') ->
  same_field f (options _ w') (options_of [(key_of f, [Some value])]).
Proof.
  intros Hh Hdef.
  destruct f; cbn [key_of] in Hh; injection Hh as <-;
    cbn [same_field key_of] in *; unfold options_of;
    cbn [count expand filter_ format_ orderby search select skip top];
    rewrite first_of_single.
  - rewrite parse_count_run. now intros [= <-].
  - rewrite parse_expand_run. intros [= <-].
    unfold comma_list. now destruct (truthy value).
  - rewrite parse_filter_run. cbv zeta.
    destruct (filter_parse value); [discriminate|]. now intros [= <-].
  - rewrite parse_format_run. destruct (existsb _ _); [|discriminate].
    now intros [= <-].
  - rewrite parse_orderby_run. intros [= <-]. now destruct (truthy value).
  - rewrite parse_search_run. now intros [= <-].
  - rewrite parse_select_run. intros [= <-].
    unfold comma_list. now destruct (truthy value).
  - rewrite parse_skip_run. destruct (int value) as [n|]; [|discriminate].
    destruct (0 <=? n)%Z; [|discriminate]. now intros [= <-].
  - rewrite parse_top_run. destruct (int value) as [n|]; [|discriminate].
    destruct (0 <=? n)%Z; [|discriminate]. now intros [= <-].
Qed.

Lemma parse_params_unit (m : QueryParams) (w : World) (x : unit)
    (w' : World) :
  parse_params m w = (inr x, w') -> parse_params m w = (inr tt, w').
Proof. now destruct x. Qed.

Lemma not_in_keys_first (k : string) (m : QueryParams) :
  ~ In k (keys m) ->
  forall values, In (k, values) m -> first_value values = None.
Proof. intros Hk values Hin. exfalso. apply Hk. now apply (key_of_item k values). Qed.

(** After a loop that returns normally over distinct keys, every field
    is the one [options_of] reads off the mapping. *)
Lemma parse_params_field (f : OptionField) (m : QueryParams) (w' : World) :
  NoDup (keys m) ->
  parse_params m fresh_world = (inr tt, w') ->
  same_field f (options _ w') (options_of m).
Proof.
  intros Hdup Hrun.
  destruct (first_of m (key_of f)) as [v|] eqn:Efirst.
  - unfold first_of in Efirst.
    destruct (lookup (key_of f) m) as [vs|] eqn:El; [|discriminate].
    apply lookup_In in El. destruct (in_split _ _ El) as (before & after & ->).
    unfold keys in Hdup. rewrite map_app in Hdup. cbn [map fst] in Hdup.
    pose proof (NoDup_remove_2 _ _ _ Hdup) as Hnot.
    rewrite in_app_iff in Hnot.
    rewrite parse_params_app in Hrun.
    pose proof (parse_params_frame _ _ filter_parse int f before fresh_world)
      as Hbefore.
    destruct (parse_params before fresh_world) as [[e|[]] w1]; [discriminate|].
    cbn [snd] in Hbefore.
    assert (Hdef : same_field f (options _ w1) default_options)
      by (apply Hbefore; apply not_in_keys_first; tauto).
    rewrite parse_params_cons in Hrun.
    destruct (parse_param (key_of f) vs w1) as [[e|[]] w2] eqn:Estep;
      [discriminate|].
    assert (Hafter : same_field f (options _ w') (options _ w2)).
    { pose proof (parse_params_frame _ _ filter_parse int f after w2) as H.
      rewrite Hrun in H. apply H. apply not_in_keys_first. tauto. }
    eapply same_field_trans; [exact Hafter|].
    destruct (lookup_key_of f) as [h Hh].
    unfold parse_param in Estep. rewrite Hh, Efirst in Estep.
    eapply same_field_trans;
      [exact (handler_field f h v w1 w2 Hh Hdef Estep)|].
    apply options_of_field. rewrite first_of_single.
    unfold first_of.
    rewrite (In_lookup (key_of f) vs (before ++ (key_of f, vs) :: after)).
    + now rewrite Efirst.
    + unfold keys. rewrite map_app. exact Hdup.
    + apply in_or_app. right. now left.
  - apply same_field_trans with (b := default_options).
    + pose proof (parse_params_frame _ _ filter_parse int f m fresh_world) as H.
      rewrite Hrun in H. apply H. intros values Hin.
      apply (In_lookup _ _ _ Hdup) in Hin. unfold first_of in Efirst.
      now rewrite Hin in Efirst.
    + apply same_field_sym. now apply options_of_default.
Qed.

Lemma parse_params_options (m : QueryParams) (w' : World) :
  NoDup (keys m) ->
  parse_params m fresh_world = (inr tt, w') ->
  options _ w' = options_of m.
Proof.
  intros Hdup Hrun. apply same_all_fields. intros f.
  now apply parse_params_field.
Qed.

(** The calls made by a loop over distinct keys, however it ends. *)
Lemma parse_params_calls_of (m : QueryParams) (w : World)
    (r : exn + unit) (w' : World) :
  NoDup (keys m) ->
  parse_params m w = (r, w') ->
  (parse_calls _ w' = parse_calls _ w
   \/ exists v, first_of m "$filter" = Some v
                /\ parse_calls _ w' = parse_calls _ w ++ [v])
  /\ (forall x, r = inr x ->
                parse_calls _ w' = parse_calls _ w ++ calls_of m).
Proof.
  intros Hdup Hrun. unfold calls_of.
  destruct (lookup "$filter" m) as [vs|] eqn:El.
  - pose proof (lookup_In _ _ _ El) as Hin.
    destruct (in_split _ _ Hin) as (before & after & ->).
    assert (Hfirst : first_of (before ++ ("$filter", vs) :: after) "$filter"
                     = first_value vs)
      by (unfold first_of; now rewrite El).
    rewrite Hfirst.
    unfold keys in Hdup. rewrite map_app in Hdup. cbn [map fst] in Hdup.
    pose proof (NoDup_remove_2 _ _ _ Hdup) as Hnot.
    rewrite in_app_iff in Hnot.
    rewrite parse_params_app in Hrun.
    pose proof (parse_params_calls _ _ filter_parse int before w) as Hb.
    destruct (parse_params before w) as [[e|[]] w1]; cbn [snd] in Hb.
    { injection Hrun as Hr Hw; subst r w'. split; [left; apply Hb; tauto|discriminate]. }
    rewrite parse_params_cons in Hrun.
    unfold parse_param in Hrun.
    change (lookup "$filter" supported_options) with (Some parse_filter) in Hrun.
    cbv beta iota in Hrun.
    pose proof (parse_params_calls _ _ filter_parse int after) as Ha.
    destruct (first_value vs) as [v|].
    + rewrite parse_filter_run in Hrun. cbv zeta in Hrun.
      destruct (filter_parse v) as [fe|node].
      * injection Hrun as Hr Hw; subst r w'. cbn [parse_calls].
        rewrite Hb by tauto. split; [right; now exists v|discriminate].
      * specialize (Ha (with_options (set_filter_ _ (Some node))
                          {| options := options _ w1;
                             parse_calls := parse_calls _ w1 ++ [v] |})).
        rewrite Hrun in Ha. cbn [snd parse_calls with_options] in Ha.
        rewrite Ha, Hb by tauto. split; [right; now exists v|auto].
    + unfold ret in Hrun. specialize (Ha w1). rewrite Hrun in Ha.
      cbn [snd] in Ha. rewrite Ha, Hb by tauto.
      split; [now left|]. intros x _. now rewrite app_nil_r.
  - apply lookup_None in El.
    pose proof (parse_params_calls _ _ filter_parse int m w El) as H.
    rewrite Hrun in H. cbn [snd] in H. rewrite H.
    assert (Hfirst : first_of m "$filter" = None).
    { unfold first_of. destruct (lookup "$filter" m) as [vs|] eqn:E;
        [|reflexivity].
      exfalso. apply El. apply lookup_In in E.
      now apply (key_of_item "$filter" vs). }
    rewrite Hfirst. split; [now left|]. intros x _. now rewrite app_nil_r.
Qed.


(** ** What a returned record never holds *)

Lemma valid_default : valid_options default_options.
Proof. repeat split; simpl; intros; discriminate. Qed.

Lemma orderby_entry_ok (item : string) : orderby_dict_ok (orderby_entry item).
Proof.
  unfold orderby_entry, orderby_dict_ok.
  destruct (Py.endswith (Py.lower (Py.strip item)) " asc").
  - eexists. eexists. split; [reflexivity|].
    split; [apply PyMoreFacts.strip_trimmed|now left].
  - destruct (Py.endswith (Py.lower (Py.strip item)) " desc").
    + eexists. eexists. split; [reflexivity|].
      split; [apply PyMoreFacts.strip_trimmed|now right].
    + eexists. eexists. split; [reflexivity|].
      split; [apply PyMoreFacts.strip_trimmed|now left].
Qed.

Lemma comma_list_ok (value : string) (items : list string) :
  comma_list value = Some items ->
  items <> [] /\ Forall Py.trimmed items.
Proof.
  unfold comma_list. destruct (truthy value); [|discriminate].
  intros [= <-]. pose proof (PyFacts.split_nonempty "," value) as Hne.
  split.
  - destruct (Py.split "," value); [congruence|discriminate].
  - apply Forall_map, Forall_forall. intros x _.
    apply PyMoreFacts.strip_trimmed.
Qed.

Ltac keep_valid H :=
  destruct H as (H1 & H2 & H3 & H4 & H5 & H6 & H7);
  unfold valid_options;
  cbn [options with_options skip top format_ expand select search orderby
       set_count set_expand set_filter_ set_format_
       set_orderby set_search set_select set_skip set_top];
  (split; [|split; [|split; [|split; [|split; [|split]]]]]);
  try assumption.

(** A handler that returns normally keeps the record valid. *)
Lemma handler_valid (param : string) (h : string -> M unit)
    (value : string) (w w' : World) :
  lookup param supported_options = Some h ->
  h value w = (inr tt, w') ->
  valid_options (options _ w) -> valid_options (options _ w').
Proof.
  intros Hh.
  apply (handler_cases param h
           (fun _ h => h value w = (inr tt, w') ->
                       valid_options (options _ w) ->
                       valid_options (options _ w')) Hh).
  - rewrite parse_count_run. intros [= <-] H. keep_valid H.
  - rewrite parse_expand_run. intros [= <-] H.
    destruct (comma_list value) as [items|] eqn:E; [|exact H].
    apply comma_list_ok in E as [Hne Htrim].
    keep_valid H. intros items' [= <-]. now split.
  - rewrite parse_filter_run. cbv zeta.
    destruct (filter_parse value); [discriminate|].
    intros [= <-] H. keep_valid H.
  - rewrite parse_format_run.
    pose proof (mem_iff_In value ["json"; "xml"; "csv"; "tsv"]) as Hmem.
    destruct (existsb _ _); [|discriminate]. intros [= <-] H.
    keep_valid H. intros f [= <-]. now apply Hmem.
  - rewrite parse_orderby_run. intros [= <-] H.
    destruct (truthy value); [|exact H].
    pose proof (PyFacts.split_nonempty "," value) as Hne.
    keep_valid H. intros entries [= <-]. split.
    + destruct (Py.split "," value); [congruence|discriminate].
    + apply Forall_map, Forall_forall. intros x _. apply orderby_entry_ok.
  - rewrite parse_search_run. intros [= <-] H. keep_valid H.
    intros s [= <-]. apply PyMoreFacts.strip_trimmed.
  - rewrite parse_select_run. intros [= <-] H.
    destruct (comma_list value) as [items|] eqn:E; [|exact H].
    apply comma_list_ok in E as [Hne Htrim].
    keep_valid H. intros items' [= <-]. now split.
  - rewrite parse_skip_run. destruct (int value) as [n|]; [|discriminate].
    destruct (Z.leb_spec 0 n) as [Hn|Hn]; [|discriminate]. intros [= <-] H.
    keep_valid H. now intros k [= <-].
  - rewrite parse_top_run. destruct (int value) as [n|]; [|discriminate].
    destruct (Z.leb_spec 0 n) as [Hn|Hn]; [|discriminate]. intros [= <-] H.
    keep_valid H. now intros k [= <-].
Qed.

Lemma parse_params_valid (m : QueryParams) :
  forall w w',
    parse_params m w = (inr tt, w') ->
    valid_options (options _ w) -> valid_options (options _ w').
Proof.
  induction m as [|[param values] rest IH]; intros w w'.
  - now intros [= <-].
  - rewrite parse_params_cons.
    destruct (parse_param param values w) as [[e|[]] w1] eqn:E;
      [discriminate|].
    intros Hrest Hw. apply (IH w1 w' Hrest).
    unfold parse_param in E.
    destruct (lookup param supported_options) as [h|] eqn:Eh.
    + destruct (first_value values) as [value|].
      * now apply (handler_valid param h value w w1).
      * now injection E as <-.
    + now injection E as <-.
Qed.

Lemma parse_query_params_result (m : QueryParams) :
  parse_query_params m =
  (match fst (parse_params m fresh_world) with
   | inr _ => inr (options _ (snd (parse_params m fresh_world)))
   | inl e => inl e
   end,
   parse_calls _ (snd (parse_params m fresh_world))).
Proof.
  unfold parse_query_params.
  now destruct (parse_params m fresh_world) as [[e|x] w].
Qed.

Lemma parse_query_params_returns (m : QueryParams) (o : Options) :
  fst (parse_query_params m) = inr o ->
  exists w, parse_params m fresh_world = (inr tt, w) /\ o = options _ w.
Proof.
  rewrite parse_query_params_result. cbn [fst].
  destruct (parse_params m fresh_world) as [[e|[]] w]; cbn [fst snd];
    [discriminate|].
  intros [= <-]. now exists w.
Qed.

Lemma parse_query_params_raises (m : QueryParams) (e : exn) :
  fst (parse_query_params m) = inl e
  <-> fst (parse_params m fresh_world) = inl e.
Proof.
  rewrite parse_query_params_result. cbn [fst].
  destruct (parse_params m fresh_world) as [[e0|[]] w]; cbn [fst];
    split; congruence.
Qed.

Lemma rejects_parser_error (param value : string) (e : exn) :
  rejects param value e -> is_parser_error e.
Proof.
  intros [(_ & -> & _)|[(_ & -> & _)|(_ & fe & _ & ->)]]; exact I.
Qed.

Lemma parse_query_params_error (m : QueryParams) (e : exn) :
  fst (parse_query_params m) = inl e -> is_parser_error e.
Proof.
  intros H. apply parse_query_params_raises in H.
  apply parse_params_raises_iff in H
    as (before & p & vs & v & after & _ & _ & _ & H).
  now apply rejects_parser_error in H.
Qed.

Lemma parse_query_params_valid (m : QueryParams) (o : Options) :
  fst (parse_query_params m) = inr o -> valid_options o.
Proof.
  intros H. apply parse_query_params_returns in H as (w & Hrun & ->).
  apply (parse_params_valid m _ w Hrun). apply valid_default.
Qed.

(** ** The order of the keys *)

Lemma all_accepted_permutation (m m' : QueryParams) :
  Permutation m m' -> all_accepted m = all_accepted m'.
Proof.
  unfold all_accepted. induction 1 as [|x l l' _ IH|x y l|l l' l'' _ IH1 _ IH2];
    cbn [forallb].
  - reflexivity.
  - now rewrite IH.
  - now rewrite !andb_assoc, (andb_comm (match first_value (snd y) with
                                          | Some v => accepts (fst y) v
                                          | None => true
                                          end)).
  - congruence.
Qed.

Lemma not_in_lookup {A : Type} (k : string) (d : list (string * A)) :
  ~ In k (keys d) -> lookup k d = None.
Proof.
  intros H. destruct (lookup k d) as [v|] eqn:E; [|reflexivity].
  exfalso. apply H. apply lookup_In in E. now apply (key_of_item k v).
Qed.

Lemma keys_permutation {A : Type} (d d' : list (string * A)) :
  Permutation d d' -> Permutation (keys d) (keys d').
Proof. apply Permutation_map. Qed.

Lemma lookup_permutation {A : Type} (k : string) (d d' : list (string * A)) :
  NoDup (keys d) -> Permutation d d' -> lookup k d = lookup k d'.
Proof.
  intros Hd Hp. pose proof (keys_permutation d d' Hp) as Hk.
  assert (Hd' : NoDup (keys d')) by now apply (Permutation_NoDup Hk).
  destruct (lookup k d) as [v|] eqn:E.
  - symmetry. apply In_lookup; [exact Hd'|].
    apply (Permutation_in _ Hp). now apply lookup_In.
  - symmetry. apply not_in_lookup. intros Hin.
    apply (lookup_None k d E).
    apply (Permutation_in _ (Permutation_sym Hk) Hin).
Qed.

Lemma options_of_permutation (m m' : QueryParams) :
  NoDup (keys m) -> Permutation m m' ->
  options_of m = options_of m' /\ calls_of m = calls_of m'.
Proof.
  intros Hd Hp.
  assert (Hfirst : forall k, first_of m k = first_of m' k).
  { intros k. unfold first_of. now rewrite (lookup_permutation k m m'). }
  split.
  - apply same_all_fields. intros f. now apply options_of_field.
  - unfold calls_of. now rewrite Hfirst.
Qed.

Lemma parse_query_params_by_lookup (m : QueryParams) (o : Options) :
  NoDup (keys m) ->
  fst (parse_query_params m) = inr o ->
  parse_query_params m = (inr (options_of m), calls_of m).
Proof.
  intros Hd H. apply parse_query_params_returns in H as (w & Hrun & ->).
  rewrite parse_query_params_result, Hrun. cbn [fst snd].
  rewrite (parse_params_options m w Hd Hrun).
  destruct (parse_params_calls_of m fresh_world (inr tt) w Hd Hrun)
    as [_ Hcalls].
  now rewrite (Hcalls tt eq_refl).
Qed.

Lemma parse_query_params_accepts (m : QueryParams) :
  (exists o, fst (parse_query_params m) = inr o) <-> all_accepted m = true.
Proof.
  rewrite <- (parse_params_returns_iff m fresh_world). split.
  - intros [o H]. apply parse_query_params_returns in H as (w & Hrun & _).
    now exists w.
  - intros [w Hrun]. exists (options _ w).
    now rewrite parse_query_params_result, Hrun.
Qed.


(** ** The entry points *)

(** X1. [parse_query_params] returns a record exactly when every entry
    that reaches a handler is accepted by it: a [$skip] or [$top] whose
    first value converts to a non-negative integer, a [$format] that is
    one of the four names, a [$filter] that the filter parser accepts;
    nothing else can make it raise. *)
Theorem parse_query_params_returns_iff_all_accepted (m : QueryParams) :
  (exists o, fst (parse_query_params m) = inr o) <-> all_accepted m = true.
Proof. apply parse_query_params_accepts. Qed.

(** X2. [parse_query_params] raises [e] exactly when [e] is the error of
    the first entry, in iteration order, whose handler rejects its first
    value: the entries before it are all accepted, and the entries after
    it play no part. *)
Theorem parse_query_params_raises_first_rejection (m : QueryParams)
    (e : exn) :
  fst (parse_query_params m) = inl e
  <-> exists before param values value after,
        m = before ++ (param, values) :: after
        /\ all_accepted before = true
        /\ first_value values = Some value
        /\ rejects param value e.
Proof.
  rewrite parse_query_params_raises. apply parse_params_raises_iff.
Qed.

(** X3. On a dict (no key twice), when [parse_query_params] returns, the
    record is the one read off the mapping key by key, each field from
    the first value of its own key alone, and the filter parser was asked
    exactly for the first value of [$filter], if there is one. *)
Theorem parse_query_params_reads_by_key (m : QueryParams) (o : Options) :
  NoDup (keys m) ->
  fst (parse_query_params m) = inr o ->
  parse_query_params m = (inr (options_of m), calls_of m).
Proof. apply parse_query_params_by_lookup. Qed.

(** X4. The order of the keys of the mapping does not matter to success:
    a reordered mapping is parsed exactly when the original is; and on a
    dict the record returned and the calls made to the filter parser are
    the same. (Which error is raised does depend on the order.) *)
Theorem parse_query_params_order_independent (m m' : QueryParams) :
  Permutation m m' ->
  ((exists o, fst (parse_query_params m) = inr o)
   <-> (exists o, fst (parse_query_params m') = inr o))
  /\ (NoDup (keys m) ->
      forall o, fst (parse_query_params m) = inr o ->
                parse_query_params m' = parse_query_params m).
Proof.
  intros Hp. split.
  - now rewrite !parse_query_params_accepts, (all_accepted_permutation m m').
  - intros Hd o Ho.
    assert (Hd' : NoDup (keys m'))
      by (apply (Permutation_NoDup (keys_permutation m m' Hp) Hd)).
    assert (Hacc : all_accepted m' = true).
    { rewrite <- (all_accepted_permutation m m' Hp).
      apply parse_query_params_accepts. now exists o. }
    apply parse_query_params_accepts in Hacc as [o' Ho'].
    rewrite (parse_query_params_by_lookup m o Hd Ho),
      (parse_query_params_by_lookup m' o' Hd' Ho').
    now destruct (options_of_permutation m m' Hd Hp) as [-> ->].
Qed.

(** X5. A record returned by [parse_query_params], [parse_query_string]
    or [parse_url] never holds a negative [skip] or [top], a [format_]
    outside json, xml, csv and tsv, an empty [expand], [select] or
    [orderby] list, an item or a search text with surrounding whitespace,
    or an [orderby] entry that is not a field with a direction asc or
    desc. *)
Theorem returned_options_are_valid
    (urlparse : string -> option ParseResult)
    (parse_qs : string -> QueryParams) :
  (forall m o, fst (parse_query_params m) = inr o -> valid_options o)
  /\ (forall query_string o,
         fst (parse_query_string parse_qs query_string) = inr o ->
         valid_options o)
  /\ (forall url o,
         fst (parse_url urlparse parse_qs url) = inr o -> valid_options o).
Proof.
  split; [|split].
  - apply parse_query_params_valid.
  - intros qs o. apply parse_query_params_valid.
  - intros url o. unfold parse_url.
    destruct (urlparse url) as [parsed|]; [|discriminate].
    apply parse_query_params_valid.
Qed.

(** X6. However [parse_query_params] ends on a dict, the filter parser is
    called at most once, and only with the first value of [$filter]; with
    no such value it is not called at all. *)
Theorem filter_parser_called_at_most_once (m : QueryParams) :
  NoDup (keys m) ->
  (snd (parse_query_params m) = []
   \/ exists v, first_of m "$filter" = Some v
                /\ snd (parse_query_params m) = [v])
  /\ (first_of m "$filter" = None -> snd (parse_query_params m) = []).
Proof.
  intros Hd. rewrite parse_query_params_result. cbn [snd].
  destruct (parse_params m fresh_world) as [r w] eqn:Hrun. cbn [snd].
  destruct (parse_params_calls_of m fresh_world r w Hd Hrun) as [H _].
  cbn [parse_calls app] in H. split; [exact H|].
  intros Hnone. destruct H as [H|(v & Hv & _)]; [exact H|congruence].
Qed.

(** X14. The errors of the entry points. [parse_query_params] and
    [parse_query_string] raise nothing but [NoPositiveIntegerValue],
    [UnsupportedFormat] and the errors of the filter parser; the
    [AssertionError], [ValueError] and [TypeError] of the integer handlers
    never get out. [parse_url] raises in addition what [urlparse] raises,
    and only when [urlparse] does. *)
Theorem entry_points_error_classes
    (urlparse : string -> option ParseResult)
    (parse_qs : string -> QueryParams) :
  (forall m e, fst (parse_query_params m) = inl e -> is_parser_error e)
  /\ (forall query_string e,
         fst (parse_query_string parse_qs query_string) = inl e ->
         is_parser_error e)
  /\ (forall url e,
         fst (parse_url urlparse parse_qs url) = inl e ->
         is_parser_error e \/ (e = ValueError /\ urlparse url = None)).
Proof.
  split; [|split].
  - apply parse_query_params_error.
  - intros qs e. apply parse_query_params_error.
  - intros url e. unfold parse_url.
    destruct (urlparse url) as [parsed|].
    + intros H. left. now apply parse_query_params_error in H.
    + intros [= <-]. now right.
Qed.


(** ** One item of [$orderby] *)

(** A field name alone. *)
Lemma orderby_entry_bare (f : string) :
  Py.no_whitespace f = true ->
  orderby_entry f = [("field", f); ("direction", "asc")].
Proof.
  intros Hf. unfold orderby_entry.
  rewrite (PyMoreFacts.no_whitespace_trimmed f Hf).
  assert (Hl : Py.no_whitespace (Py.lower f) = true)
    by now rewrite PyMoreFacts.no_whitespace_lower.
  rewrite !PyMoreFacts.endswith_false; [reflexivity| |];
    intros pre; now apply PyMoreFacts.no_whitespace_not_suffix.
Qed.

(** A field name, a space, and a word that is [asc] or [desc] up to
    case: the word is removed from the field only when it is written in
    lower case. *)
Lemma orderby_entry_two_words (f rest d : string) :
  f <> EmptyString -> Py.no_whitespace f = true ->
  d = "asc" \/ d = "desc" ->
  Py.lower rest = d ->
  orderby_entry (f ++ String " " rest)
  = [("field", if String.eqb d rest then f
               else (f ++ String " " rest)%string);
     ("direction", d)].
Proof.
  intros Hne Hf Hd Hl.
  assert (Hrw : Py.no_whitespace rest = true).
  { rewrite <- PyMoreFacts.no_whitespace_lower, Hl. now destruct Hd as [->| ->]. }
  assert (Hrne : rest <> EmptyString).
  { intros ->. cbn in Hl. now destruct Hd as [E|E]; rewrite E in Hl. }
  assert (Hlen : String.length rest = String.length d)
    by now rewrite <- Hl, PyMoreFacts.length_lower.
  pose proof (PyMoreFacts.strip_two_words f rest Hne Hf Hrne Hrw) as Hstrip.
  pose proof (PyMoreFacts.replace_direction f rest d (PyMoreFacts.no_whitespace_no_space f Hf)
                (PyMoreFacts.no_whitespace_no_space rest Hrw) Hlen) as Hrep.
  assert (Hfield :
            Py.strip (if String.eqb d rest then f
                      else (f ++ String " " rest)%string)
            = if String.eqb d rest then f else (f ++ String " " rest)%string).
  { destruct (String.eqb d rest); [|exact Hstrip].
    now apply PyMoreFacts.no_whitespace_trimmed. }
  unfold orderby_entry. rewrite Hstrip, PyFacts.lower_app.
  cbn [Py.lower]. change (Py.lower_char " ") with " "%char. rewrite Hl.
  destruct Hd as [->| ->].
  - rewrite (PyMoreFacts.endswith_append (Py.lower f) " asc").
    now rewrite Hrep, Hfield.
  - rewrite (PyMoreFacts.endswith_false (Py.lower f ++ " desc") " asc")
      by (intros pre; apply PyMoreFacts.desc_not_asc).
    rewrite (PyMoreFacts.endswith_append (Py.lower f) " desc").
    now rewrite Hrep, Hfield.
Qed.

Lemma orderby_entry_item (key : string * option string) :
  plain_name (fst key) ->
  snd key = None \/ snd key = Some "asc" \/ snd key = Some "desc" ->
  orderby_entry (orderby_item key) = orderby_dict key
  /\ Py.has_char "," (orderby_item key) = false
  /\ orderby_item key <> EmptyString.
Proof.
  destruct key as [f d]. cbn [fst snd]. intros (Hne & Hw & Hc) Hd.
  unfold orderby_item, orderby_dict. cbn [fst snd].
  destruct Hd as [->|[-> | ->]].
  - split; [now apply orderby_entry_bare|]. now split.
  - change (" " ++ "asc")%string with " asc". split; [|split].
    + now rewrite (orderby_entry_two_words f "asc" "asc") by auto.
    + now rewrite PyMoreFacts.has_char_append, Hc.
    + destruct f; [congruence|discriminate].
  - change (" " ++ "desc")%string with " desc". split; [|split].
    + now rewrite (orderby_entry_two_words f "desc" "desc") by auto.
    + now rewrite PyMoreFacts.has_char_append, Hc.
    + destruct f; [congruence|discriminate].
Qed.

Lemma truthy_iff (s : string) : truthy s = true <-> s <> EmptyString.
Proof. destruct s; cbn [truthy]; split; congruence. Qed.

(** ** The handlers one by one *)

(** X7. A handler that raises leaves the options as they were, with one
    exception: [_parse_skip] and [_parse_top] assign before they check.
    So when the value converts to a negative integer they raise
    [NoPositiveIntegerValue] with the field holding that negative
    integer; and these are the only raises that change the options: in
    every other raise the handler is another one, or the value does not
    convert, and the options are untouched. *)
Theorem handler_exception_safety (param : string) (h : string -> M unit)
    (value : string) (w : World) :
  lookup param supported_options = Some h ->
  (forall n,
      int value = Some n -> (n < 0)%Z ->
      (param = "$skip" ->
       h value w = (inl (NoPositiveIntegerValue "$skip" value),
                    with_options (set_skip _ (Some n)) w))
      /\ (param = "$top" ->
          h value w = (inl (NoPositiveIntegerValue "$top" value),
                       with_options (set_top _ (Some n)) w)))
  /\ (forall e w',
         h value w = (inl e, w') ->
         (((param <> "$skip" /\ param <> "$top") \/ int value = None)
          /\ options _ w' = options _ w)
         \/ exists n,
              int value = Some n /\ (n < 0)%Z
              /\ ((param = "$skip"
                   /\ options _ w' = set_skip _ (Some n) (options _ w))
                  \/ (param = "$top"
                      /\ options _ w'
                         = set_top _ (Some n) (options _ w)))).
Proof.
  intros H.
  apply (handler_cases param h
           (fun k h =>
              (forall n,
                  int value = Some n -> (n < 0)%Z ->
                  (k = "$skip" ->
                   h value w = (inl (NoPositiveIntegerValue "$skip" value),
                                with_options (set_skip _ (Some n)) w))
                  /\ (k = "$top" ->
                      h value w = (inl (NoPositiveIntegerValue "$top" value),
                                   with_options (set_top _ (Some n)) w)))
              /\ (forall e w',
                     h value w = (inl e, w') ->
                     (((k <> "$skip" /\ k <> "$top") \/ int value = None)
                      /\ options _ w' = options _ w)
                     \/ exists n,
                          int value = Some n /\ (n < 0)%Z
                          /\ ((k = "$skip"
                               /\ options _ w'
                                  = set_skip _ (Some n) (options _ w))
                              \/ (k = "$top"
                                  /\ options _ w'
                                     = set_top _ (Some n) (options _ w)))))
           H).
  - split; [now split|]. intros e w'. rewrite parse_count_run. discriminate.
  - split; [now split|]. intros e w'. rewrite parse_expand_run. discriminate.
  - split; [now split|]. intros e w'. rewrite parse_filter_run. cbv zeta.
    destruct (filter_parse value); [|discriminate].
    intros [= _ <-]. left. split; [left; split; discriminate|reflexivity].
  - split; [now split|]. intros e w'. rewrite parse_format_run.
    destruct (existsb _ _); [discriminate|].
    intros [= _ <-]. left. split; [left; split; discriminate|reflexivity].
  - split; [now split|]. intros e w'. rewrite parse_orderby_run. discriminate.
  - split; [now split|]. intros e w'. rewrite parse_search_run. discriminate.
  - split; [now split|]. intros e w'. rewrite parse_select_run. discriminate.
  - rewrite parse_skip_run. split.
    + intros n Hn Hneg. rewrite Hn. split; [|discriminate]. intros _.
      destruct (Z.leb_spec 0 n) as [Hle|_]; [lia|reflexivity].
    + intros e w'. destruct (int value) as [n|].
      * destruct (Z.leb_spec 0 n) as [Hn|Hn]; [discriminate|].
        intros [= _ <-]. right. exists n. auto.
      * intros [= _ <-]. left. split; [now right|reflexivity].
  - rewrite parse_top_run. split.
    + intros n Hn Hneg. rewrite Hn. split; [discriminate|]. intros _.
      destruct (Z.leb_spec 0 n) as [Hle|_]; [lia|reflexivity].
    + intros e w'. destruct (int value) as [n|].
      * destruct (Z.leb_spec 0 n) as [Hn|Hn]; [discriminate|].
        intros [= _ <-]. right. exists n. auto.
      * intros [= _ <-]. left. split; [now right|reflexivity].
Qed.

(** X8. [_parse_count] never raises; it sets [options.count] to true
    exactly when the value is the word true in any mix of upper and lower
    case, with nothing around it, and to false for every other value. *)
Theorem parse_count_true_iff (value : string) (w : World) :
  exists b : bool,
    parse_count value w = (inr tt, with_options (set_count _ b) w)
    /\ (b = true
        <-> exists c1 c2 c3 c4 : ascii,
              value
              = String c1 (String c2 (String c3 (String c4 EmptyString)))
              /\ (c1 = "t" \/ c1 = "T")%char /\ (c2 = "r" \/ c2 = "R")%char
              /\ (c3 = "u" \/ c3 = "U")%char
              /\ (c4 = "e" \/ c4 = "E")%char).
Proof.
  exists (String.eqb (Py.lower value) "true").
  split; [apply parse_count_run|].
  now rewrite String.eqb_eq, PyMoreFacts.lower_is_true.
Qed.

(** X9. [_parse_expand] and [_parse_select] never raise. An empty value
    leaves the options untouched, as it does in [_parse_orderby]. A
    non-empty value is cut at every comma and each piece is stripped: the
    list stored has one item per piece, and no item has a comma or
    surrounding whitespace. *)
Theorem parse_expand_select_items (value : string) (w : World) :
  (value = EmptyString ->
   parse_expand value w = (inr tt, w)
   /\ parse_select value w = (inr tt, w)
   /\ parse_orderby value w = (inr tt, w))
  /\ (value <> EmptyString ->
      exists pieces,
        Py.join "," pieces = value
        /\ Forall (fun piece => Py.has_char "," piece = false) pieces
        /\ parse_expand value w
           = (inr tt,
              with_options (set_expand _ (Some (map Py.strip pieces))) w)
        /\ parse_select value w
           = (inr tt,
              with_options (set_select _ (Some (map Py.strip pieces))) w)
        /\ Forall (fun item => Py.trimmed item
                               /\ Py.has_char "," item = false)
                  (map Py.strip pieces)).
Proof.
  split.
  - intros ->. repeat split.
  - intros Hne. exists (Py.split "," value).
    split; [apply FilterCoreFacts.join_split|].
    split; [apply PyMoreFacts.split_items_clean|].
    rewrite parse_expand_run, parse_select_run. unfold comma_list.
    rewrite (proj2 (truthy_iff value) Hne).
    split; [reflexivity|]. split; [reflexivity|].
    apply Forall_map.
    apply (Forall_impl _ (P := fun piece => Py.has_char "," piece = false));
      [|apply PyMoreFacts.split_items_clean].
    intros piece Hp. split; [apply PyMoreFacts.strip_trimmed|now apply PyMoreFacts.has_char_strip].
Qed.

(** X10. Round trip for [$expand] and [$select]: a list of items without
    commas or surrounding whitespace, written with commas between the
    items and any whitespace around each item, item by item, is read back
    as that list. *)
Theorem parse_expand_select_roundtrip (pieces items : list string)
    (w : World) :
  Forall2
    (fun piece item =>
       Py.trimmed item /\ Py.has_char "," item = false
       /\ exists a b,
            piece = (a ++ item ++ b)%string
            /\ Py.all_whitespace a = true /\ Py.all_whitespace b = true)
    pieces items ->
  Py.join "," pieces <> EmptyString ->
  parse_expand (Py.join "," pieces) w
  = (inr tt, with_options (set_expand _ (Some items)) w)
  /\ parse_select (Py.join "," pieces) w
     = (inr tt, with_options (set_select _ (Some items)) w).
Proof.
  intros Hpad.
  assert (Hclean : Forall (fun piece => Py.has_char "," piece = false)
                          pieces).
  { induction Hpad as [|piece item ps its (_ & Hc & a & b & -> & Ha & Hb) _ IH].
    - constructor.
    - constructor; [|exact IH].
      now rewrite !PyMoreFacts.has_char_append, Hc,
        !PyMoreFacts.all_whitespace_no_comma. }
  assert (Hstrip : map Py.strip pieces = items).
  { clear Hclean.
    induction Hpad as [|piece item ps its (Ht & _ & a & b & -> & Ha & Hb) _ IH].
    - reflexivity.
    - cbn [map]. rewrite IH, PyMoreFacts.strip_pad by assumption.
      now rewrite Ht. }
  intros Hne.
  assert (Hlist : comma_list (Py.join "," pieces) = Some items).
  { unfold comma_list. rewrite (proj2 (truthy_iff _) Hne). f_equal.
    rewrite PyMoreFacts.split_join; [exact Hstrip| |exact Hclean].
    destruct pieces; [|discriminate]. now destruct Hne. }
  now rewrite parse_expand_run, parse_select_run, Hlist.
Qed.

(** X11. Round trip for [$orderby]: sort keys whose field names have no
    whitespace and no comma, each written as the name alone or as the
    name, a space and asc or desc, with commas between the keys, are read
    back as those fields and directions; a key without direction is read
    as asc. *)
Theorem parse_orderby_roundtrip (sort_keys : list (string * option string))
    (w : World) :
  sort_keys <> [] ->
  Forall (fun key => plain_name (fst key)
                     /\ (snd key = None \/ snd key = Some "asc"
                         \/ snd key = Some "desc"))
         sort_keys ->
  parse_orderby (Py.join "," (map orderby_item sort_keys)) w
  = (inr tt,
     with_options (set_orderby _ (Some (map orderby_dict sort_keys))) w).
Proof.
  intros Hne Hkeys. rewrite parse_orderby_run.
  assert (Hitems : Forall (fun item => Py.has_char "," item = false
                                       /\ item <> EmptyString)
                          (map orderby_item sort_keys)).
  { apply Forall_map.
    apply (Forall_impl _ (P := fun key =>
        plain_name (fst key)
        /\ (snd key = None \/ snd key = Some "asc"
            \/ snd key = Some "desc"))); [|exact Hkeys].
    intros key [Hp Hd].
    now destruct (orderby_entry_item key Hp Hd) as (_ & H1 & H2). }
  assert (Hmap : map orderby_item sort_keys <> [])
    by (destruct sort_keys; [congruence|discriminate]).
  assert (Hvalue : Py.join "," (map orderby_item sort_keys) <> EmptyString).
  { apply PyMoreFacts.join_not_empty; [exact Hmap|].
    apply (Forall_impl _ (P := fun item =>
        Py.has_char "," item = false /\ item <> EmptyString));
      [|exact Hitems].
    now intros item [_ H]. }
  rewrite (proj2 (truthy_iff _) Hvalue).
  assert (Hentries :
            map orderby_entry
                (Py.split "," (Py.join "," (map orderby_item sort_keys)))
            = map orderby_dict sort_keys).
  { rewrite PyMoreFacts.split_join.
    - rewrite map_map. apply map_ext_in. intros key Hin.
      rewrite Forall_forall in Hkeys. destruct (Hkeys key Hin) as [Hp Hd].
      now destruct (orderby_entry_item key Hp Hd) as [H _].
    - exact Hmap.
    - apply (Forall_impl _ (P := fun item =>
          Py.has_char "," item = false /\ item <> EmptyString));
        [|exact Hitems].
      now intros item [H _]. }
  now rewrite Hentries.
Qed.

(** X12. [_parse_orderby] recognises the direction without regard to
    case but removes it from the field only when it is written in lower
    case: for a field name followed by a suffix that is " asc" or " desc"
    up to case and not in lower case, the direction is the one written,
    and the field is the whole item, suffix included. *)
Theorem parse_orderby_keeps_uppercase_suffix (f sfx d : string)
    (w : World) :
  plain_name f ->
  d = "asc" \/ d = "desc" ->
  Py.lower sfx = String " " d ->
  sfx <> String " " d ->
  parse_orderby (f ++ sfx) w
  = (inr tt,
     with_options
       (set_orderby _ (Some [[("field", (f ++ sfx)%string);
                              ("direction", d)]])) w).
Proof.
  intros (Hne & Hw & Hc) Hd Hl Hsfx.
  destruct (PyMoreFacts.lower_space_head sfx d Hl) as (rest & -> & Hrest).
  assert (Hcomma : Py.has_char "," (String " " rest) = false).
  { rewrite <- PyMoreFacts.has_comma_lower, Hl. now destruct Hd as [->| ->]. }
  rewrite parse_orderby_run.
  assert (Hvalue : (f ++ String " " rest)%string <> EmptyString)
    by (destruct f; [congruence|discriminate]).
  rewrite (proj2 (truthy_iff _) Hvalue).
  rewrite PyMoreFacts.split_clean by (now rewrite PyMoreFacts.has_char_append, Hc, Hcomma).
  cbn [map]. rewrite (orderby_entry_two_words f rest d) by assumption.
  destruct (String.eqb_spec d rest) as [E|_]; [|reflexivity].
  subst rest. now destruct Hsfx.
Qed.

(** X13. [_parse_search] never raises and always stores a string: the
    value without its surrounding whitespace. A value of whitespace only
    is stored as the empty string, not as None. *)
Theorem parse_search_strips (value : string) (w : World) :
  exists s,
    parse_search value w = (inr tt, with_options (set_search _ (Some s)) w)
    /\ Py.trimmed s
    /\ (Py.all_whitespace value = true -> s = EmptyString)
    /\ (forall a core b,
           value = (a ++ core ++ b)%string ->
           Py.all_whitespace a = true -> Py.all_whitespace b = true ->
           Py.trimmed core -> s = core).
Proof.
  exists (Py.strip value). split; [apply parse_search_run|].
  split; [apply PyMoreFacts.strip_trimmed|]. split; [apply PyMoreFacts.strip_all_whitespace|].
  intros a core b -> Ha Hb Hcore. now rewrite PyMoreFacts.strip_pad.
Qed.

End QueryParserMore.

(* ===================================================================== *)
(** * Concrete runs of the query parser *)
(* ===================================================================== *)

Module RunsMore.
Import Run.

Local Abbreviation N := FilterCore.FilterNode.
Local Abbreviation E := FilterCore.Error.

Lemma parse_query_params_returns_iff_all_accepted_witness :
  exists o,
    fst (Run.parse_query_params
           [("$top", [Some "5"]); ("$format", [Some "json"]);
            ("$filter", [Some "a eq 1"])])
    = inr o.
Proof.
  apply (proj2 (parse_query_params_returns_iff_all_accepted
                  N E FilterCore.parse Py.int
                  [("$top", [Some "5"]); ("$format", [Some "json"]);
                   ("$filter", [Some "a eq 1"])])).
  reflexivity.
Defined.

Lemma parse_query_params_raises_first_rejection_witness :
  fst (Run.parse_query_params
         [("$top", [Some "5"]); ("$skip", [Some "-1"]);
          ("$format", [Some "pdf"])])
  = inl (NoPositiveIntegerValue "$skip" "-1").
Proof.
  apply (proj2 (parse_query_params_raises_first_rejection
                  N E FilterCore.parse Py.int
                  [("$top", [Some "5"]); ("$skip", [Some "-1"]);
                   ("$format", [Some "pdf"])]
                  (NoPositiveIntegerValue "$skip" "-1"))).
  exists [("$top", [Some "5"])], "$skip", [Some "-1"], "-1",
    [("$format", [Some "pdf"])].
  split; [reflexivity|]. split; [reflexivity|]. split; [reflexivity|].
  left. split; [now left|]. split; [reflexivity|].
  right. exists (-1)%Z. split; [reflexivity|lia].
Defined.

Lemma two_keys_distinct (a b : string) : a <> b -> NoDup [a; b].
Proof.
  intros H. constructor.
  - intros [Hin|[]]. now apply H.
  - constructor; [intros []|constructor].
Defined.

Lemma parse_query_params_reads_by_key_witness :
  NoDup (keys [("$top", [Some "5"; Some "7"]); ("$count", [Some "TRUE"])])
  /\ fst (Run.parse_query_params
            [("$top", [Some "5"; Some "7"]); ("$count", [Some "TRUE"])])
     = inr (set_count N true (set_top N (Some 5%Z) (default_options N)))
  /\ Run.parse_query_params
       [("$top", [Some "5"; Some "7"]); ("$count", [Some "TRUE"])]
     = (inr (options_of N E FilterCore.parse Py.int
               [("$top", [Some "5"; Some "7"]); ("$count", [Some "TRUE"])]),
        []).
Proof.
  assert (Hd : NoDup (keys [("$top", [Some "5"; Some "7"]);
                            ("$count", [Some "TRUE"])]))
    by (apply two_keys_distinct; discriminate).
  split; [exact Hd|]. split; [reflexivity|].
  exact (parse_query_params_reads_by_key N E FilterCore.parse Py.int
           [("$top", [Some "5"; Some "7"]); ("$count", [Some "TRUE"])]
           _ Hd eq_refl).
Defined.

Lemma parse_query_params_order_independent_witness :
  Permutation
    [("$top", [Some "5"]); ("$filter", [Some "a eq 1"])]
    [("$filter", [Some "a eq 1"]); ("$top", [Some "5"])]
  /\ NoDup (keys [("$top", [Some "5"]); ("$filter", [Some "a eq 1"])])
  /\ Run.parse_query_params
       [("$filter", [Some "a eq 1"]); ("$top", [Some "5"])]
     = Run.parse_query_params
         [("$top", [Some "5"]); ("$filter", [Some "a eq 1"])].
Proof.
  assert (Hp : Permutation
                 [("$top", [Some "5"]); ("$filter", [Some "a eq 1"])]
                 [("$filter", [Some "a eq 1"]); ("$top", [Some "5"])])
    by apply perm_swap.
  assert (Hd : NoDup (keys [("$top", [Some "5"]);
                            ("$filter", [Some "a eq 1"])]))
    by (apply two_keys_distinct; discriminate).
  split; [exact Hp|]. split; [exact Hd|].
  destruct (parse_query_params_order_independent
              N E FilterCore.parse Py.int _ _ Hp) as [_ H].
  exact (H Hd (set_filter_ N (Some a_eq_1)
                 (set_top N (Some 5%Z) (default_options N))) eq_refl).
Defined.

Lemma returned_options_are_valid_witness :
  fst (Run.parse_url "/Products?$top=5&$select=Name,+Price")
  = inr (set_select N (Some ["Name"; "Price"])
           (set_top N (Some 5%Z) (default_options N)))
  /\ valid_options N
       (set_select N (Some ["Name"; "Price"])
          (set_top N (Some 5%Z) (default_options N))).
Proof.
  split; [reflexivity|].
  destruct (returned_options_are_valid N E FilterCore.parse Py.int
              Urllib.urlparse Urllib.parse_qs) as (_ & _ & H).
  exact (H "/Products?$top=5&$select=Name,+Price" _ eq_refl).
Defined.

Lemma filter_parser_called_at_most_once_witness :
  NoDup (keys [("$filter", [Some "a eq 1"; Some "b eq 2"]);
               ("$skip", [Some "x"])])
  /\ (snd (Run.parse_query_params
             [("$filter", [Some "a eq 1"; Some "b eq 2"]);
              ("$skip", [Some "x"])])
      = []
      \/ exists v,
           first_of [("$filter", [Some "a eq 1"; Some "b eq 2"]);
                     ("$skip", [Some "x"])] "$filter"
           = Some v
           /\ snd (Run.parse_query_params
                     [("$filter", [Some "a eq 1"; Some "b eq 2"]);
                      ("$skip", [Some "x"])])
              = [v]).
Proof.
  assert (Hd : NoDup (keys [("$filter", [Some "a eq 1"; Some "b eq 2"]);
                            ("$skip", [Some "x"])]))
    by (apply two_keys_distinct; discriminate).
  split; [exact Hd|].
  exact (proj1 (filter_parser_called_at_most_once
                  N E FilterCore.parse Py.int _ Hd)).
Defined.

Lemma handler_exception_safety_witness :
  lookup "$skip" (supported_options N E FilterCore.parse Py.int)
  = Some (_parse_skip N E Py.int)
  /\ Py.int "-3" = Some (-3)%Z
  /\ (-3 < 0)%Z
  /\ _parse_skip N E Py.int "-3" Run.fresh_world
     = (inl (NoPositiveIntegerValue "$skip" "-3"),
        with_options N (set_skip N (Some (-3)%Z)) Run.fresh_world).
Proof.
  split; [reflexivity|]. split; [reflexivity|]. split; [lia|].
  refine (proj1 (proj1 (handler_exception_safety
                          N E FilterCore.parse Py.int
                          "$skip" (_parse_skip N E Py.int) "-3"
                          Run.fresh_world eq_refl)
                   (-3)%Z eq_refl _) eq_refl).
  lia.
Defined.

Lemma parse_count_true_iff_witness :
  exists b : bool,
    _parse_count N E "True" Run.fresh_world
    = (inr tt, with_options N (set_count N b) Run.fresh_world)
    /\ b = true.
Proof.
  destruct (parse_count_true_iff N E "True" Run.fresh_world)
    as (b & Hrun & Hb).
  exists b. split; [exact Hrun|]. apply Hb.
  exists "T"%char, "r"%char, "u"%char, "e"%char. auto 10.
Defined.

Lemma parse_expand_select_items_witness :
  "Orders, Customer" <> EmptyString
  /\ exists pieces,
       Py.join "," pieces = "Orders, Customer"
       /\ _parse_expand N E "Orders, Customer" Run.fresh_world
          = (inr tt,
             with_options N (set_expand N (Some (map Py.strip pieces)))
               Run.fresh_world).
Proof.
  assert (H : "Orders, Customer" <> EmptyString) by discriminate.
  split; [exact H|].
  destruct (proj2 (parse_expand_select_items N E "Orders, Customer"
                     Run.fresh_world) H)
    as (pieces & Hjoin & _ & Hexpand & _).
  exists pieces. split; [exact Hjoin|exact Hexpand].
Defined.

Lemma parse_expand_select_roundtrip_witness :
  Forall2
    (fun piece item =>
       Py.trimmed item /\ Py.has_char "," item = false
       /\ exists a b,
            piece = (a ++ item ++ b)%string
            /\ Py.all_whitespace a = true /\ Py.all_whitespace b = true)
    ["Orders"; " Customer "; "  "] ["Orders"; "Customer"; EmptyString]
  /\ _parse_expand N E "Orders, Customer ,  " Run.fresh_world
     = (inr tt,
        with_options N
          (set_expand N (Some ["Orders"; "Customer"; EmptyString]))
          Run.fresh_world).
Proof.
  assert (H : Forall2
                (fun piece item =>
                   Py.trimmed item /\ Py.has_char "," item = false
                   /\ exists a b,
                        piece = (a ++ item ++ b)%string
                        /\ Py.all_whitespace a = true
                        /\ Py.all_whitespace b = true)
                ["Orders"; " Customer "; "  "]
                ["Orders"; "Customer"; EmptyString]).
  { constructor; [|constructor; [|constructor; [|constructor]]].
    - split; [reflexivity|]. split; [reflexivity|].
      exists EmptyString, EmptyString. now repeat split.
    - split; [reflexivity|]. split; [reflexivity|].
      exists " ", " ". now repeat split.
    - split; [reflexivity|]. split; [reflexivity|].
      exists " ", " ". now repeat split. }
  split; [exact H|].
  refine (proj1 (parse_expand_select_roundtrip N E
                   ["Orders"; " Customer "; "  "]
                   ["Orders"; "Customer"; EmptyString]
                   Run.fresh_world H _)).
  discriminate.
Defined.

Lemma parse_orderby_roundtrip_witness :
  [("name", Some "desc"); ("age", None)] <> []
  /\ Forall (fun key => plain_name (fst key)
                        /\ (snd key = None \/ snd key = Some "asc"
                            \/ snd key = Some "desc"))
            [("name", Some "desc"); ("age", None)]
  /\ _parse_orderby N E "name desc,age" Run.fresh_world
     = (inr tt,
        with_options N
          (set_orderby N
             (Some [[("field", "name"); ("direction", "desc")];
                    [("field", "age"); ("direction", "asc")]]))
          Run.fresh_world).
Proof.
  assert (Hne : [("name", Some "desc"); ("age", @None string)] <> [])
    by discriminate.
  assert (Hkeys : Forall (fun key => plain_name (fst key)
                                     /\ (snd key = None
                                         \/ snd key = Some "asc"
                                         \/ snd key = Some "desc"))
                         [("name", Some "desc"); ("age", None)]).
  { constructor; [|constructor; [|constructor]].
    - split; [|auto]. repeat split. discriminate.
    - split; [|auto]. repeat split. discriminate. }
  split; [exact Hne|]. split; [exact Hkeys|].
  exact (parse_orderby_roundtrip N E
           [("name", Some "desc"); ("age", None)] Run.fresh_world
           Hne Hkeys).
Defined.

Lemma parse_orderby_keeps_uppercase_suffix_witness :
  plain_name "name"
  /\ Py.lower " DESC" = " desc"
  /\ " DESC" <> " desc"
  /\ _parse_orderby N E "name DESC" Run.fresh_world
     = (inr tt,
        with_options N
          (set_orderby N
             (Some [[("field", "name DESC"); ("direction", "desc")]]))
          Run.fresh_world).
Proof.
  assert (Hp : plain_name "name") by (repeat split; discriminate).
  assert (Hs : " DESC" <> " desc") by discriminate.
  split; [exact Hp|]. split; [reflexivity|]. split; [exact Hs|].
  exact (parse_orderby_keeps_uppercase_suffix N E "name" " DESC" "desc"
           Run.fresh_world Hp (or_intror eq_refl) eq_refl Hs).
Defined.

Lemma parse_search_strips_witness :
  exists s,
    _parse_search N E "  blue bike " Run.fresh_world
    = (inr tt, with_options N (set_search N (Some s)) Run.fresh_world)
    /\ s = "blue bike".
Proof.
  destruct (parse_search_strips N E "  blue bike " Run.fresh_world)
    as (s & Hrun & _ & _ & Hcore).
  exists s. split; [exact Hrun|].
  apply (Hcore "  " "blue bike" " "); reflexivity.
Defined.

Lemma entry_points_error_classes_witness :
  fst (Run.parse_query_string "$top=5&$format=pdf")
  = inl (UnsupportedFormat "pdf")
  /\ is_parser_error E (UnsupportedFormat "pdf").
Proof.
  split; [reflexivity|].
  destruct (entry_points_error_classes N E FilterCore.parse Py.int
              Urllib.urlparse Urllib.parse_qs) as (_ & H & _).
  exact (H "$top=5&$format=pdf" _ eq_refl).
Defined.

End RunsMore.
